(** * Waiting-Room-Manager: the reconciliation and batched-operation core

    A shallow embedding of the TypeScript sources
      - [utils]                 (normalizeEmail, isValidEmail, truncate,
                                 retryWithBackoff, processBatch),
      - [csv/parse]             (detectCSVFormat, parseRowBased, parseColumnBased,
                                 parseCSV),
      - [matching/match]        (matchParticipants, filterByDisplayName,
                                 getConflictEmailsForRound),
      - [operations/waitingRoom] (moveParticipantsToWaitingRoom,
                                 admitParticipantsFromWaitingRoom,
                                 retryFailedOperations),
      - [operations/breakoutRoom] (sendParticipantsToBreakoutRooms,
                                 returnParticipantsFromBreakoutRooms,
                                 assignParticipantWithRetry,
                                 waitForBreakoutRoomsToClose),
      - [state/store]           (loadPersistedState, saveState,
                                 createInitialState and the actions of the store),
      - [components]            (the handlers of the panels, as they act on the
                                 store: handleFileUpload, handleAssociate,
                                 handleStartRound, confirmStartRound,
                                 confirmEndRound, getParticipantStatus),
    followed by the properties of the specification and by further
    properties of the code, each stated over these definitions.

    Conventions.  A JavaScript string is a [string] of 8-bit characters, so
    case folding and white space are the ASCII ones.  A JavaScript [Set] is a
    [gset] and a [Map] or a plain object used as a dictionary is a [gmap]:
    both are compared by content, and the insertion order that JavaScript
    iterates them in is not part of the model.  An optional field [f?: T] is
    an [option T], with [None] for [undefined]. *)

From Stdlib Require Import String Ascii ZArith List Bool Lia DecimalString.
From stdpp Require Import base option list gmap strings fin_maps fin_sets.

Import ListNotations.
Local Open Scope string_scope.

(* ===================================================================== *)
(** * JavaScript string primitives used by the sources                    *)
(* ===================================================================== *)

Module Js.

(** White space as [String.prototype.trim] and the regular-expression class
    [\s] see it, restricted to ASCII: TAB, LF, VT, FF, CR and SPACE. *)
Definition isWhitespace (a : ascii) : bool :=
  let n := nat_of_ascii a in
  (Nat.leb 9 n && Nat.leb n 13) || Nat.eqb n 32.

Definition lowerChar (a : ascii) : ascii :=
  let n := nat_of_ascii a in
  if Nat.leb 65 n && Nat.leb n 90 then ascii_of_nat (n + 32) else a.

(** [s.toLowerCase()] *)
Fixpoint toLowerCase (s : string) : string :=
  match s with
  | EmptyString => EmptyString
  | String a r => String (lowerChar a) (toLowerCase r)
  end.

Fixpoint trimStart (s : string) : string :=
  match s with
  | EmptyString => EmptyString
  | String a r => if isWhitespace a then trimStart r else s
  end.

Fixpoint trimEnd (s : string) : string :=
  match s with
  | EmptyString => EmptyString
  | String a r =>
      match trimEnd r with
      | EmptyString => if isWhitespace a then EmptyString else String a EmptyString
      | r' => String a r'
      end
  end.

(** [s.trim()] *)
Definition trim (s : string) : string := trimEnd (trimStart s).

(** [s.includes(sub)] *)
Fixpoint includes (s sub : string) : bool :=
  String.prefix sub s ||
  match s with
  | EmptyString => false
  | String _ r => includes r sub
  end.

(** Truthiness of a string value: the empty string is falsy. *)
Definition truthy (s : string) : bool :=
  match s with EmptyString => false | _ => true end.

(** Truthiness of an optional string: [undefined] and [""] are falsy. *)
Definition truthyOpt (o : option string) : bool :=
  match o with None => false | Some s => truthy s end.

(** [String(v)] of a property read that may be [undefined]. *)
Definition toStr (o : option string) : string :=
  match o with None => "undefined" | Some s => s end.

(** [a || b] on optional strings. *)
Definition orElse (o : option string) (d : string) : string :=
  match o with
  | Some s => if truthy s then s else d
  | None => d
  end.

(** [s.substring(indexStart, indexEnd)]: both indexes are clamped to the
    string, and swapped when the first is the larger. *)
Definition substring (s : string) (indexStart indexEnd : Z) : string :=
  let len := Z.of_nat (String.length s) in
  let a := Z.max 0 (Z.min indexStart len) in
  let b := Z.max 0 (Z.min indexEnd len) in
  String.substring (Z.to_nat (Z.min a b)) (Z.to_nat (Z.max a b - Z.min a b)) s.

End Js.

(* ===================================================================== *)
(** * utils: normalizeEmail and isValidEmail                              *)
(* ===================================================================== *)

(** [email.trim().toLowerCase()] *)
Definition normalizeEmail (email : string) : string :=
  Js.toLowerCase (Js.trim email).

(** The character class [[^\s@]]. *)
Definition emailChar (a : ascii) : bool :=
  negb (Js.isWhitespace a) && negb (Ascii.eqb a "@").

Fixpoint allEmailChars (s : string) : bool :=
  match s with
  | EmptyString => true
  | String a r => emailChar a && allEmailChars r
  end.

(** Is there a ["."] in [s] with at least one character after it? *)
Fixpoint dotThenMore (s : string) : bool :=
  match s with
  | EmptyString => false
  | String a r => (Ascii.eqb a "." && Js.truthy r) || dotThenMore r
  end.

(** The part of the pattern after the ["@"]: [[^\s@]+\.[^\s@]+$]. *)
Definition domainPart (d : string) : bool :=
  match d with
  | EmptyString => false
  | String a r => emailChar a && allEmailChars r && dotThenMore r
  end.

(** The pattern [^[^\s@]+@] followed by the domain part: since the local part
    admits no ["@"], the ["@"] of a match is the first one of the string;
    [seen] records that the local part read so far is not empty. *)
Fixpoint localPart (seen : bool) (s : string) : bool :=
  match s with
  | EmptyString => false
  | String a r =>
      if Ascii.eqb a "@" then seen && domainPart r
      else emailChar a && localPart true r
  end.

(** [/^[^\s@]+@[^\s@]+\.[^\s@]+$/.test(email)] *)
Definition isValidEmail (email : string) : bool := localPart false email.

(* ===================================================================== *)
(** * utils: truncate                                                     *)
(* ===================================================================== *)

(** [truncate(str, maxLength)] *)
Definition truncate (str : string) (maxLength : Z) : string :=
  if (Z.of_nat (String.length str) <=? maxLength)%Z then str
  else Js.substring str 0 (maxLength - 3) ++ "...".

(* ===================================================================== *)
(** * types                                                               *)
(* ===================================================================== *)

Record ParticipantWithEmail := {
  participantUUID : string;
  displayName : string;
  role : option string;
  email : option string
}.

Global Instance ParticipantWithEmail_eq_dec : EqDecision ParticipantWithEmail.
Proof. solve_decision. Defined.

Record MatchResult := {
  matched : list ParticipantWithEmail;
  notFound : list string;
  noEmail : list ParticipantWithEmail
}.

(* ===================================================================== *)
(** * matching/match: matchParticipants                                   *)
(* ===================================================================== *)

(** The scan [for (const participant of participants)], with the three
    accumulators [matched], [foundEmails] and [noEmail] of the source. *)
Fixpoint matchLoop (conflictEmails : gset string)
    (participants : list ParticipantWithEmail)
    (matched : list ParticipantWithEmail) (foundEmails : gset string)
    (noEmail : list ParticipantWithEmail)
  : list ParticipantWithEmail * gset string * list ParticipantWithEmail :=
  match participants with
  | [] => (matched, foundEmails, noEmail)
  | participant :: rest =>
      if negb (Js.truthyOpt (email participant)) then
        matchLoop conflictEmails rest matched foundEmails (noEmail ++ [participant])
      else
        let normalizedEmail := normalizeEmail (Js.toStr (email participant)) in
        if decide (normalizedEmail ∈ conflictEmails) then
          matchLoop conflictEmails rest (matched ++ [participant])
            ({[normalizedEmail]} ∪ foundEmails) noEmail
        else
          matchLoop conflictEmails rest matched foundEmails noEmail
  end.

Definition matchParticipants (conflictEmails : gset string)
    (participants : list ParticipantWithEmail) : MatchResult :=
  let '(matched, foundEmails, noEmail) :=
    matchLoop conflictEmails participants [] ∅ [] in
  let notFound :=
    filter (λ email, email ∉ foundEmails) (elements conflictEmails) in
  {| matched := matched; notFound := notFound; noEmail := noEmail |}.

(** [filterByDisplayName(participants, searchTerm)] *)
Definition filterByDisplayName (participants : list ParticipantWithEmail)
    (searchTerm : string) : list ParticipantWithEmail :=
  let normalizedSearch := Js.trim (Js.toLowerCase searchTerm) in
  filter (λ p, Js.includes (Js.toLowerCase (displayName p)) normalizedSearch = true)
    participants.

(** [getConflictEmailsForRound(roundId, parsedRounds)]:
    [parsedRounds.get(roundId) || new Set()]. *)
Definition getConflictEmailsForRound (roundId : string)
    (parsedRounds : gmap string (gset string)) : gset string :=
  default ∅ (parsedRounds !! roundId).

(* ===================================================================== *)
(** * csv/parse                                                           *)
(* ===================================================================== *)

Module Csv.

(** A row object produced by the CSV reader with [header: true]: its own
    properties, header name first, in the order [Object.keys] lists them. *)
Definition Row := list (string * string).

(** [Object.keys(row)] *)
Definition keys (row : Row) : list string := map fst row.

(** [row[key]], [undefined] when the row has no such property. *)
Fixpoint get (row : Row) (key : string) : option string :=
  match row with
  | [] => None
  | (k, v) :: rest => if String.eqb k key then Some v else get rest key
  end.

(** Decimal rendering of a number in a template string. *)
Definition ofNat (n : nat) : string :=
  DecimalString.NilZero.string_of_uint (Nat.to_uint n).

Definition dquote : string := String (ascii_of_nat 34) EmptyString.

(** What the external reader (Papa Parse) hands to the [complete] callback:
    [results.data], [results.meta.fields] and [results.errors]. *)
Record PapaError := { message : string; row : option nat }.

Record PapaResults := {
  data : list Row;
  fields : option (list string);
  errors : list PapaError
}.

Inductive DetectedFormat := row_based | column_based | unknown.

Global Instance DetectedFormat_eq_dec : EqDecision DetectedFormat.
Proof. solve_decision. Defined.

Definition detectCSVFormat (headers : list string) : DetectedFormat :=
  let normalizedHeaders := map (λ h, Js.trim (Js.toLowerCase h)) headers in
  let hasRoundId := existsb (λ h, Js.includes h "round") normalizedHeaders in
  let hasEmail :=
    existsb (λ h, String.eqb h "email" || Js.includes h "email") normalizedHeaders in
  if hasRoundId && hasEmail && Nat.leb 2 (length normalizedHeaders)
     && Nat.leb (length normalizedHeaders) 3
  then row_based
  else if hasEmail && Nat.ltb 1 (length normalizedHeaders)
  then column_based
  else unknown.

(** The four values both row parsers return. *)
Record Parsed := {
  rounds : gmap string (gset string);
  emailToName : gmap string string;
  parseErrors : list string;
  parseWarnings : list string
}.

Definition emptyParsed : Parsed :=
  {| rounds := ∅; emailToName := ∅; parseErrors := []; parseWarnings := [] |}.

Definition pushError (msg : string) (acc : Parsed) : Parsed :=
  {| rounds := rounds acc; emailToName := emailToName acc;
     parseErrors := parseErrors acc ++ [msg]; parseWarnings := parseWarnings acc |}.

Definition pushWarning (msg : string) (acc : Parsed) : Parsed :=
  {| rounds := rounds acc; emailToName := emailToName acc;
     parseErrors := parseErrors acc; parseWarnings := parseWarnings acc ++ [msg] |}.

(** [if (!rounds.has(r)) rounds.set(r, new Set()); rounds.get(r)!.add(e)] *)
Definition addToRound (roundId email : string)
    (rounds : gmap string (gset string)) : gmap string (gset string) :=
  <[roundId := {[email]} ∪ default ∅ (rounds !! roundId)]> rounds.

Definition rowLabel (i : nat) : string := "Row " ++ ofNat (i + 2).

(** One iteration of the loop of [parseRowBased], on row [i]. *)
Definition rowBasedStep (i : nat) (row : Row) (acc : Parsed) : Parsed :=
  let roundIdKey := find (λ k, Js.includes (Js.toLowerCase k) "round") (keys row) in
  let emailKey := find (λ k, Js.includes (Js.toLowerCase k) "email") (keys row) in
  let nameKey := find (λ k, Js.includes (Js.toLowerCase k) "name") (keys row) in
  match roundIdKey, emailKey with
  | Some roundIdKey, Some emailKey =>
      if negb (Js.truthy roundIdKey) || negb (Js.truthy emailKey) then
        pushError (rowLabel i ++ ": Missing round_id or email column") acc
      else
      let roundId := Js.trim (Js.toStr (get row roundIdKey)) in
      let email := Js.trim (Js.toStr (get row emailKey)) in
      let registeredName :=
        match nameKey with
        | Some nameKey =>
            if Js.truthy nameKey then Js.trim (Js.toStr (get row nameKey))
            else EmptyString
        | None => EmptyString
        end in
      if negb (Js.truthy roundId) then
        pushWarning (rowLabel i ++ ": Empty round_id, skipping") acc
      else if negb (Js.truthy email) then
        pushWarning (rowLabel i ++ ": Empty email, skipping") acc
      else if negb (isValidEmail email) then
        pushWarning (rowLabel i ++ ": Invalid email format " ++ dquote ++ email
                       ++ dquote ++ ", skipping") acc
      else
        let normalizedEmail := normalizeEmail email in
        let emailToName' :=
          if Js.truthy registeredName
             && negb (bool_decide (is_Some (emailToName acc !! normalizedEmail)))
          then <[normalizedEmail := registeredName]> (emailToName acc)
          else emailToName acc in
        {| rounds := addToRound roundId normalizedEmail (rounds acc);
           emailToName := emailToName';
           parseErrors := parseErrors acc;
           parseWarnings := parseWarnings acc |}
  | _, _ => pushError (rowLabel i ++ ": Missing round_id or email column") acc
  end.

(** [for (let i = 0; i < rows.length; i++)] *)
Fixpoint rowsLoop (step : nat → Row → Parsed → Parsed)
    (i : nat) (rows : list Row) (acc : Parsed) : Parsed :=
  match rows with
  | [] => acc
  | row :: rest => rowsLoop step (S i) rest (step i row acc)
  end.

Definition parseRowBased (rows : list Row) : Parsed :=
  rowsLoop rowBasedStep 0 rows emptyParsed.

(** The conflict flag of one cell. *)
Definition isConflict (value : string) : bool :=
  String.eqb value "1"
  || String.eqb (Js.toLowerCase value) "true"
  || String.eqb (Js.toLowerCase value) "yes"
  || String.eqb (Js.toLowerCase value) "x".

(** [h !== nameKey], where [nameKey] may be [undefined]. *)
Definition differsFrom (h : string) (key : option string) : bool :=
  match key with
  | Some k => negb (String.eqb h k)
  | None => true
  end.

(** The inner loop [for (const roundCol of roundColumns)]. *)
Fixpoint markRounds (row : Row) (normalizedEmail : string)
    (roundColumns : list string) (rounds : gmap string (gset string))
  : gmap string (gset string) :=
  match roundColumns with
  | [] => rounds
  | roundCol :: rest =>
      let value := Js.trim (Js.toStr (get row roundCol)) in
      markRounds row normalizedEmail rest
        (if isConflict value then addToRound roundCol normalizedEmail rounds
         else rounds)
  end.

(** One iteration of the row loop of [parseColumnBased]. *)
Definition columnBasedStep (emailKey : string) (nameKey : option string)
    (roundColumns : list string) (i : nat) (row : Row) (acc : Parsed) : Parsed :=
  let email := Js.trim (Js.toStr (get row emailKey)) in
  let registeredName :=
    match nameKey with
    | Some nameKey =>
        if Js.truthy nameKey then Js.trim (Js.toStr (get row nameKey))
        else EmptyString
    | None => EmptyString
    end in
  if negb (Js.truthy email) then
    pushWarning (rowLabel i ++ ": Empty email, skipping") acc
  else if negb (isValidEmail email) then
    pushWarning (rowLabel i ++ ": Invalid email format " ++ dquote ++ email
                   ++ dquote ++ ", skipping") acc
  else
    let normalizedEmail := normalizeEmail email in
    {| rounds := markRounds row normalizedEmail roundColumns (rounds acc);
       emailToName :=
         if Js.truthy registeredName
         then <[normalizedEmail := registeredName]> (emailToName acc)
         else emailToName acc;
       parseErrors := parseErrors acc;
       parseWarnings := parseWarnings acc |}.

(** [for (const roundCol of roundColumns) rounds.set(roundCol, new Set())] *)
Definition initRounds (roundColumns : list string) : gmap string (gset string) :=
  fold_left (λ rounds roundCol, <[roundCol := ∅]> rounds) roundColumns ∅.

Definition parseColumnBased (rows : list Row) (headers : list string) : Parsed :=
  match find (λ h, Js.includes (Js.toLowerCase h) "email") headers with
  | None => pushError "Could not find email column" emptyParsed
  | Some emailKey =>
      if negb (Js.truthy emailKey) then
        pushError "Could not find email column" emptyParsed
      else
      let nameKey := find (λ h, Js.includes (Js.toLowerCase h) "name") headers in
      let roundColumns :=
        List.filter (λ h, negb (String.eqb h emailKey) && differsFrom h nameKey)
          headers in
      match roundColumns with
      | [] => pushError "No round columns found" emptyParsed
      | _ =>
          rowsLoop (columnBasedStep emailKey nameKey roundColumns) 0 rows
            {| rounds := initRounds roundColumns; emailToName := ∅;
               parseErrors := []; parseWarnings := [] |}
      end
  end.

Inductive Format := RowBased | ColumnBased.

Record ParsedCSV := {
  format : Format;
  csvRounds : gmap string (gset string);
  csvEmailToName : gmap string string
}.

Record Stats := { totalRows : nat; roundsFound : nat; uniqueEmails : nat }.

Record CSVParseResult := {
  success : bool;
  parsed : option ParsedCSV;
  resultErrors : list string;
  warnings : list string;
  stats : Stats
}.

Definition papaErrorLine (err : PapaError) : string :=
  "Parse error: " ++ message err ++ " at row "
    ++ match row err with Some r => ofNat r | None => "undefined" end.

(** The two-level [forEach] that fills [uniqueEmails]. *)
Definition allEmails (rounds : gmap string (gset string)) : gset string :=
  map_fold (λ _ emails acc, emails ∪ acc) ∅ rounds.

(** The branch [if (format === 'row-based') ... else ...] that runs one of
    the two row parsers. *)
Definition parseRows (detected : DetectedFormat) (rows : list Row)
    (headers : list string) : Parsed :=
  match detected with
  | row_based => parseRowBased rows
  | _ => parseColumnBased rows headers
  end.

(** [results.meta.fields || []] *)
Definition headersOf (results : PapaResults) : list string :=
  default [] (fields results).

(** The body of the [complete] callback of [parseCSV], on the reader's
    results. *)
Definition complete (results : PapaResults) : CSVParseResult :=
  let errors0 := map papaErrorLine (errors results) in
  match data results with
  | [] =>
      {| success := false; parsed := None;
         resultErrors := ["CSV file is empty or has no valid data"];
         warnings := [];
         stats := {| totalRows := 0; roundsFound := 0; uniqueEmails := 0 |} |}
  | _ =>
      let headers := headersOf results in
      let detected := detectCSVFormat headers in
      match detected with
      | unknown =>
          {| success := false; parsed := None;
             resultErrors := ["Could not determine CSV format. Expected either row-based (round_id,email) or column-based (email,round_1,round_2,...)"];
             warnings := [];
             stats := {| totalRows := length (data results);
                         roundsFound := 0; uniqueEmails := 0 |} |}
      | _ =>
          let result := parseRows detected (data results) headers in
          let errors := (errors0 ++ parseErrors result)%list in
          let warnings := parseWarnings result in
          let stats :=
            {| totalRows := length (data results);
               roundsFound := size (rounds result);
               uniqueEmails := size (allEmails (rounds result)) |} in
          if Nat.eqb (size (rounds result)) 0 then
            {| success := false; parsed := None;
               resultErrors := ["No valid rounds found in CSV"];
               warnings := warnings; stats := stats |}
          else
            {| success := true;
               parsed := Some {| format := match detected with
                                           | row_based => RowBased
                                           | _ => ColumnBased
                                           end;
                                 csvRounds := rounds result;
                                 csvEmailToName := emailToName result |};
               resultErrors := errors; warnings := warnings; stats := stats |}
      end
  end.

(** [parseCSV(csvContent)]: the promise resolves with what [complete]
    computes from the reader's results for [csvContent]. *)
Definition parseCSV (Papa_parse : string → PapaResults) (csvContent : string)
  : CSVParseResult :=
  complete (Papa_parse csvContent).

(** ** A reader for plain input

    Papa Parse is an external library.  For input without quoted fields it
    splits the text into lines, drops the empty ones ([skipEmptyLines]),
    splits every line at the commas, takes the first line as the header and
    turns every other line into an object that maps the header names to the
    cells of the line.  [plainReader] is that reader; it is used to run the
    parser on the literal examples of the documentation. *)
Fixpoint splitOn (sep : ascii) (s : string) : list string :=
  match s with
  | EmptyString => [EmptyString]
  | String a r =>
      if Ascii.eqb a sep then EmptyString :: splitOn sep r
      else match splitOn sep r with
           | [] => [String a EmptyString]
           | cell :: cells => String a cell :: cells
           end
  end.

Definition newline : ascii := ascii_of_nat 10.

Definition plainReader (csvContent : string) : PapaResults :=
  let lines := List.filter Js.truthy (splitOn newline csvContent) in
  match lines with
  | [] => {| data := []; fields := Some []; errors := [] |}
  | header :: body =>
      let names := splitOn "," header in
      {| data := map (λ line, combine names (splitOn "," line)) body;
         fields := Some names;
         errors := [] |}
  end.

End Csv.

(* ===================================================================== *)
(** * Asynchronous code: promises over the meeting provider                *)
(* ===================================================================== *)

(** What the wrappers of [sdk/zoom] resolve with.  They catch every error of
    the provider and report it in the result, so they never reject. *)
Module Sdk.

(** [{ success: boolean; error?: string }] *)
Record CallResult := { success : bool; error : option string }.

Record WaitingRoomParticipant := {
  participantUUID : string;
  displayName : string
}.

(** [{ success; participants?; error? }] of [getWaitingRoomParticipants];
    [fetched] and [fetchError] are its [success] and [error] fields. *)
Record WaitingRoomResult := {
  fetched : bool;
  participants : option (list WaitingRoomParticipant);
  fetchError : option string
}.

End Sdk.

Module Async.

(** The suspension points of the operation engine: the three provider
    calls it awaits, and the timer of [sleep]. *)
Inductive Call :=
| moveToWaitingRoom (participantUUID : string)
| admitFromWaitingRoom (participantUUID : string)
| getWaitingRoomParticipants
| sleep (ms : Z).

Global Instance Call_eq_dec : EqDecision Call.
Proof. solve_decision. Defined.

Definition Response (c : Call) : Type :=
  match c with
  | moveToWaitingRoom _ | admitFromWaitingRoom _ => Sdk.CallResult
  | getWaitingRoomParticipants => Sdk.WaitingRoomResult
  | sleep _ => unit
  end.

(** An [async] body: it resolves, or awaits a call and goes on with the
    value the call resolved with. *)
Inductive Promise (R : Type) : Type :=
| Resolve (r : R)
| Await (c : Call) (k : Response c → Promise R).

Arguments Resolve {R} r.
Arguments Await {R} c k.

Fixpoint bind {A B : Type} (m : Promise A) (f : A → Promise B) : Promise B :=
  match m with
  | Resolve a => f a
  | Await c k => Await c (λ x, bind (k x) f)
  end.

(** [await call] *)
Definition await (c : Call) : Promise (Response c) := Await c Resolve.

(** What a promise of the code settles with: [try]/[catch] and [throw] are
    made explicit.  The sources throw [Error] objects, and [retryWithBackoff]
    throws its [lastError], which starts as [undefined]. *)
Inductive Thrown := ErrorObject (message : string) | undefinedValue.

Inductive Outcome (T : Type) : Type :=
| Fulfilled (t : T)
| Rejected (error : Thrown).

Arguments Fulfilled {T} t.
Arguments Rejected {T} error.

(** The provider as one asynchronous body sees it: the answer to the [n]-th
    provider call the body awaits (timers apart).  Whatever the
    interleaving of the bodies that run concurrently, a body only observes
    the answers to its own calls. *)
Definition Provider := nat → ∀ c : Call, Response c.

Definition isTimer (c : Call) : bool :=
  match c with sleep _ => true | _ => false end.

(** The number of provider calls among the calls awaited so far. *)
Definition providerCalls (awaited : list Call) : nat :=
  length (List.filter (λ c, negb (isTimer c)) awaited).

(** Runs a body against a provider, after the calls [awaited].  Returns the
    value it resolves with and all the calls awaited, in order. *)
Fixpoint runFrom {R : Type} (p : Promise R) (provider : Provider)
    (awaited : list Call) : R * list Call :=
  match p with
  | Resolve r => (r, awaited)
  | Await c k =>
      runFrom (k (provider (providerCalls awaited) c)) provider (awaited ++ [c])
  end.

Definition run {R : Type} (p : Promise R) (provider : Provider) : R * list Call :=
  runFrom p provider [].

End Async.

(** The sequencing notation [x ← m; k] of stdpp reads as [await]. *)
Global Instance promise_bind : MBind Async.Promise := λ _ _ f m, Async.bind m f.
Global Instance promise_ret : MRet Async.Promise := λ _ r, Async.Resolve r.

(* ===================================================================== *)
(** * utils: retryWithBackoff and processBatch                            *)
(* ===================================================================== *)

Module Utils.
Import Async.

(** The loop [for (let attempt = 0; attempt <= maxRetries; attempt++)] of
    [retryWithBackoff]; [remaining] is the number of iterations left,
    [maxRetries + 1 - attempt].  [fn] is the body that every call [fn()]
    starts afresh. *)
Fixpoint retryLoop {T : Type} (fn : Promise (Outcome T)) (maxRetries : nat)
    (baseDelay : Z) (remaining attempt : nat) (lastError : Thrown)
  : Promise (Outcome T) :=
  match remaining with
  | 0 => Resolve (Rejected lastError)
  | S remaining' =>
      r ← fn ;
      match r with
      | Fulfilled t => Resolve (Fulfilled t)
      | Rejected error =>
          _ ← (if Nat.ltb attempt maxRetries
               then await (sleep (baseDelay * 3 ^ Z.of_nat attempt))
               else Resolve tt) ;
          retryLoop fn maxRetries baseDelay remaining' (S attempt) error
      end
  end.

Definition retryWithBackoff {T : Type} (fn : Promise (Outcome T))
    (maxRetries : nat) (baseDelay : Z) : Promise (Outcome T) :=
  retryLoop fn maxRetries baseDelay (S maxRetries) 0 undefinedValue.

(** What a run of [processBatch] leaves behind: the array it returns, the
    arguments of the successive [onProgress] calls, and the calls each
    processor invocation awaited (one list per item, in item order). *)
Record BatchRun (R : Type) := {
  results : list R;
  progress : list (nat * nat);
  calls : list (list Call)
}.

Arguments results {R} _.
Arguments progress {R} _.
Arguments calls {R} _.

(** [items.slice(i, i + concurrency)] *)
Definition slice {T : Type} (items : list T) (i j : nat) : list T :=
  take (j - i) (drop i items).

(** The loop [for (let i = 0; i < items.length; i += concurrency)].  The
    processor invocation for the item at position [j] runs against
    [providers j]; [Promise.all] returns the values in item order.  A
    processor is a body that resolves: those of the engine catch every error
    and report it in their result.  [onProgress] is taken as given, and its
    arguments are recorded.  [fuel] bounds the iterations: [None] is a loop
    that has not ended within it. *)
Fixpoint processBatchLoop {T R : Type} (fuel : nat) (items : list T)
    (processor : T → Promise R) (concurrency : nat) (providers : nat → Provider)
    (i : nat) (acc : list R) (completed : nat) (reported : list (nat * nat))
    (awaited : list (list Call)) : option (BatchRun R) :=
  if Nat.ltb i (length items) then
    match fuel with
    | 0 => None
    | S fuel' =>
        let chunk := slice items i (i + concurrency) in
        let chunkRuns :=
          imap (λ j item, run (processor item) (providers (i + j))) chunk in
        let chunkResults := chunkRuns.*1 in
        let completed' := completed + length chunk in
        processBatchLoop fuel' items processor concurrency providers
          (i + concurrency) (acc ++ chunkResults) completed'
          (reported ++ [(completed', length items)])
          (awaited ++ chunkRuns.*2)
    end
  else Some {| results := acc; progress := reported; calls := awaited |}.

(** [processBatch(items, processor, concurrency, onProgress)].  With a
    positive [concurrency] the loop ends within [items.length] iterations. *)
Definition processBatch {T R : Type} (items : list T) (processor : T → Promise R)
    (concurrency : nat) (providers : nat → Provider) : option (BatchRun R) :=
  processBatchLoop (length items) items processor concurrency providers
    0 [] 0 [] [].

End Utils.

(* ===================================================================== *)
(** * operations/waitingRoom                                              *)
(* ===================================================================== *)

(** [OperationResult] of [types] *)
Module Op.
Record OperationResult := {
  participantUUID : string;
  success : bool;
  error : option string;
  retryCount : nat
}.

Global Instance OperationResult_eq_dec : EqDecision OperationResult.
Proof. solve_decision. Defined.
End Op.

Module WaitingRoom.
Import Async.

Definition CONCURRENCY_LIMIT : nat := 5.
Definition MAX_RETRIES : nat := 3.
Definition BASE_DELAY : Z := 300.

(** [error instanceof Error ? error.message : 'Unknown error'] *)
Definition errorMessage (error : Thrown) : string :=
  match error with
  | ErrorObject message => message
  | undefinedValue => "Unknown error"
  end.

(** The arrow function handed to [retryWithBackoff]: one provider call,
    turned into a rejection when the call reports no success. *)
Definition attempt (call : Call) (result : Response call → Sdk.CallResult)
    (fallback : string) : Promise (Outcome unit) :=
  r ← await call ;
  if negb (Sdk.success (result r))
  then Resolve (Rejected (ErrorObject (Js.orElse (Sdk.error (result r)) fallback)))
  else Resolve (Fulfilled tt).

(** [processParticipant] of [moveParticipantsToWaitingRoom] *)
Definition moveParticipant (participant : ParticipantWithEmail)
  : Promise Op.OperationResult :=
  let retryCount := 0 in
  r ← Utils.retryWithBackoff
        (attempt (moveToWaitingRoom (participantUUID participant)) (λ x, x)
           "Failed to move participant")
        MAX_RETRIES BASE_DELAY ;
  match r with
  | Fulfilled _ =>
      Resolve {| Op.participantUUID := participantUUID participant;
                 Op.success := true;
                 Op.error := None;
                 Op.retryCount := retryCount |}
  | Rejected error =>
      let lastError := errorMessage error in
      Resolve {| Op.participantUUID := participantUUID participant;
                 Op.success := false;
                 Op.error := Some lastError;
                 Op.retryCount := MAX_RETRIES |}
  end.

Definition moveParticipantsToWaitingRoom (participants : list ParticipantWithEmail)
    (providers : nat → Provider) : option (Utils.BatchRun Op.OperationResult) :=
  match Utils.processBatch participants moveParticipant CONCURRENCY_LIMIT providers with
  | Some batch =>
      Some {| Utils.results := [] ++ Utils.results batch;
              Utils.progress := Utils.progress batch;
              Utils.calls := Utils.calls batch |}
  | None => None
  end.

(** [processParticipant] of [admitParticipantsFromWaitingRoom], closed over
    the snapshot [waitingRoomUUIDs]. *)
Definition admitParticipant (waitingRoomUUIDs : gset string)
    (participantUUID : string) : Promise Op.OperationResult :=
  if negb (bool_decide (participantUUID ∈ waitingRoomUUIDs)) then
    Resolve {| Op.participantUUID := participantUUID;
               Op.success := false;
               Op.error := Some "Participant not in waiting room (may have left meeting)";
               Op.retryCount := 0 |}
  else
  let retryCount := 0 in
  r ← Utils.retryWithBackoff
        (attempt (admitFromWaitingRoom participantUUID) (λ x, x)
           "Failed to admit participant")
        MAX_RETRIES BASE_DELAY ;
  match r with
  | Fulfilled _ =>
      Resolve {| Op.participantUUID := participantUUID;
                 Op.success := true;
                 Op.error := None;
                 Op.retryCount := retryCount |}
  | Rejected error =>
      let lastError := errorMessage error in
      Resolve {| Op.participantUUID := participantUUID;
                 Op.success := false;
                 Op.error := Some lastError;
                 Op.retryCount := MAX_RETRIES |}
  end.

(** [new Set(waitingRoomResult.participants?.map(p => p.participantUUID) || [])] *)
Definition snapshotUUIDs (waitingRoomResult : Sdk.WaitingRoomResult) : gset string :=
  list_to_set
    (match Sdk.participants waitingRoomResult with
     | Some participants => Sdk.participantUUID <$> participants
     | None => []
     end).

(** What a run of [admitParticipantsFromWaitingRoom] leaves behind: the
    calls its own body awaited before the batch, and the batch. *)
Record AdmitRun := {
  ownCalls : list Call;
  batch : Utils.BatchRun Op.OperationResult
}.

(** [main] answers the calls of the function body itself, [providers] those
    of the processor invocations. *)
Definition admitParticipantsFromWaitingRoom (participantUUIDs : list string)
    (main : Provider) (providers : nat → Provider) : option AdmitRun :=
  let '(waitingRoomResult, own) := run (await getWaitingRoomParticipants) main in
  let waitingRoomUUIDs := snapshotUUIDs waitingRoomResult in
  match Utils.processBatch participantUUIDs (admitParticipant waitingRoomUUIDs)
          CONCURRENCY_LIMIT providers with
  | Some batch =>
      Some {| ownCalls := own;
              batch := {| Utils.results := [] ++ Utils.results batch;
                          Utils.progress := Utils.progress batch;
                          Utils.calls := Utils.calls batch |} |}
  | None => None
  end.

(** The [operation] argument of [retryFailedOperations]. *)
Inductive Operation := moveOperation | admitOperation.

(** [processParticipant] of [retryFailedOperations]: one provider call for
    the participant of an earlier result, without [retryWithBackoff]. *)
Definition retryParticipant (operation : Operation) (result : Op.OperationResult)
  : Promise Op.OperationResult :=
  r ← match operation with
      | moveOperation =>
          attempt (moveToWaitingRoom (Op.participantUUID result)) (λ x, x)
            "Operation failed"
      | admitOperation =>
          attempt (admitFromWaitingRoom (Op.participantUUID result)) (λ x, x)
            "Operation failed"
      end;
  match r with
  | Fulfilled _ =>
      Resolve {| Op.participantUUID := Op.participantUUID result;
                 Op.success := true;
                 Op.error := None;
                 Op.retryCount := Op.retryCount result + 1 |}
  | Rejected error =>
      Resolve {| Op.participantUUID := Op.participantUUID result;
                 Op.success := false;
                 Op.error := Some (errorMessage error);
                 Op.retryCount := Op.retryCount result + 1 |}
  end.

Definition retryFailedOperations (failedResults : list Op.OperationResult)
    (operation : Operation) (providers : nat → Provider)
  : option (Utils.BatchRun Op.OperationResult) :=
  match Utils.processBatch failedResults (retryParticipant operation)
          CONCURRENCY_LIMIT providers with
  | Some batch =>
      Some {| Utils.results := [] ++ Utils.results batch;
              Utils.progress := Utils.progress batch;
              Utils.calls := Utils.calls batch |}
  | None => None
  end.

End WaitingRoom.

(* ===================================================================== *)
(** * state/store                                                         *)
(* ===================================================================== *)

Module Store.

(** [ActionLogEntry] of [types] *)
Module Log.
Inductive ActionType :=
| move_to_waiting_room | admit_from_waiting_room | parse_csv
| start_round | end_round.

Inductive ActionStatus := pending | success | failed | skipped.

Record ActionLogEntry := {
  id : string;
  timestamp : Z;
  sessionId : string;
  type : ActionType;
  roundId : option string;
  participantUUID : option string;
  displayName : option string;
  email : option string;
  status : ActionStatus;
  error : option string;
  retryCount : option nat
}.

(** [Omit<ActionLogEntry, 'id' | 'timestamp' | 'sessionId'>], for the two
    entries the round actions write. *)
Record Entry := {
  entryType : ActionType;
  entryRoundId : option string;
  entryStatus : ActionStatus
}.
(** [Omit<ActionLogEntry, 'id' | 'timestamp' | 'sessionId'>] with all its
    fields, as the panels pass it to [addActionLog]. *)
Record Fields := {
  fieldsType : ActionType;
  fieldsRoundId : option string;
  fieldsParticipantUUID : option string;
  fieldsDisplayName : option string;
  fieldsEmail : option string;
  fieldsStatus : ActionStatus;
  fieldsError : option string;
  fieldsRetryCount : option nat
}.

End Log.

(** [PersistedState] of [types]: the JSON document kept in [localStorage].
    Plain objects are dictionaries from property names to values; a property
    that is [undefined] is not written by [JSON.stringify] and reads back as
    [undefined]. *)
Module Persisted.
Record RoundRecord := {
  movedParticipants : list string;
  startedAt : option Z;
  endedAt : option Z;
  movedCount : Z;
  admittedCount : Z
}.

Record PersistedState := {
  sessionId : string;
  parsedRounds : option (gmap string (list string));
  emailToName : option (gmap string string);
  activeRounds : option (gmap string RoundRecord);
  selectedRoundId : option string;
  lastUpdated : Z
}.
End Persisted.

Record RoundState := {
  roundId : string;
  movedParticipants : gset string;
  startedAt : option Z;
  endedAt : option Z;
  movedCount : Z;
  admittedCount : Z
}.

Record AppState := {
  sessionId : string;
  parsedRounds : gmap string (gset string);
  emailToName : gmap string string;
  activeRounds : gmap string RoundState;
  actionLog : list Log.ActionLogEntry;
  selectedRoundId : option string;
  isProcessing : bool;
  fallbackMode : bool;
  cachedParticipants : option (list ParticipantWithEmail);
  lastEmailFetchTime : option Z;
  emailOverrides : gmap string string
}.

(** [Partial<AppState>] as [loadPersistedState] builds it. *)
Record Loaded := {
  loadedSessionId : string;
  loadedParsedRounds : gmap string (gset string);
  loadedEmailToName : gmap string string;
  loadedActiveRounds : gmap string RoundState;
  loadedSelectedRoundId : option string
}.

(** ** Plain objects used as dictionaries *)

(** [obj[key] = value] on an object created by [{}].  The name [__proto__]
    is an accessor inherited from [Object.prototype]: assigning to it
    creates no own property, so the key never reaches [JSON.stringify]. *)
Definition setProperty {V : Type} (key : string) (value : V)
    (obj : gmap string V) : gmap string V :=
  if String.eqb key "__proto__" then obj else <[key := value]> obj.

(** [map.forEach((value, key) => ...)] and [Object.entries(obj).forEach]:
    a left-to-right pass over the entries. *)
Definition forEach {V A : Type} (m : gmap string V) (body : string → V → A → A)
    (init : A) : A :=
  foldl (λ acc kv, body kv.1 kv.2 acc) init (map_to_list m).

(** ** The process-wide world of the store

    The zustand state, the [localStorage] item under [STORAGE_KEY], and the
    values the next calls of [Date.now()] and [generateUUID()] return. *)
Record World := {
  state : AppState;
  storage : option Persisted.PersistedState;
  times : nat → Z;
  uuids : nat → string
}.

(** Commands of the store: state-passing over the world. *)
Definition Cmd (A : Type) : Type := World → A * World.

Global Instance cmd_ret : MRet Cmd := λ _ a w, (a, w).
Global Instance cmd_bind : MBind Cmd := λ _ _ f m w, let '(a, w') := m w in f a w'.

Definition exec {A : Type} (c : Cmd A) (w : World) : World := (c w).2.

(** [get()] *)
Definition get : Cmd AppState := λ w, (state w, w).

(** [set(...)], given as the new state computed from the current one. *)
Definition set (f : AppState → AppState) : Cmd unit :=
  λ w, (tt, {| state := f (state w); storage := storage w;
               times := times w; uuids := uuids w |}).

Definition Date_now : Cmd Z :=
  λ w, (times w 0, {| state := state w; storage := storage w;
                      times := λ n, times w (S n); uuids := uuids w |}).

Definition generateUUID : Cmd string :=
  λ w, (uuids w 0, {| state := state w; storage := storage w;
                      times := times w; uuids := λ n, uuids w (S n) |}).

(** [localStorage.setItem(STORAGE_KEY, JSON.stringify(doc))] *)
Definition setItem (doc : Persisted.PersistedState) : Cmd unit :=
  λ w, (tt, {| state := state w; storage := Some doc;
               times := times w; uuids := uuids w |}).

(** [localStorage.getItem(STORAGE_KEY)], parsed. *)
Definition getItem : Cmd (option Persisted.PersistedState) := λ w, (storage w, w).

(** Updates of single fields of the state, as [set({ field })] merges them. *)
Definition withActiveRounds (activeRounds : gmap string RoundState)
    (s : AppState) : AppState :=
  {| sessionId := sessionId s; parsedRounds := parsedRounds s;
     emailToName := emailToName s; activeRounds := activeRounds;
     actionLog := actionLog s; selectedRoundId := selectedRoundId s;
     isProcessing := isProcessing s; fallbackMode := fallbackMode s;
     cachedParticipants := cachedParticipants s;
     lastEmailFetchTime := lastEmailFetchTime s;
     emailOverrides := emailOverrides s |}.

Definition withActionLog (actionLog : list Log.ActionLogEntry)
    (s : AppState) : AppState :=
  {| sessionId := sessionId s; parsedRounds := parsedRounds s;
     emailToName := emailToName s; activeRounds := activeRounds s;
     actionLog := actionLog; selectedRoundId := selectedRoundId s;
     isProcessing := isProcessing s; fallbackMode := fallbackMode s;
     cachedParticipants := cachedParticipants s;
     lastEmailFetchTime := lastEmailFetchTime s;
     emailOverrides := emailOverrides s |}.

Definition withParsedRounds (parsedRounds : gmap string (gset string))
    (s : AppState) : AppState :=
  {| sessionId := sessionId s; parsedRounds := parsedRounds;
     emailToName := emailToName s; activeRounds := activeRounds s;
     actionLog := actionLog s; selectedRoundId := selectedRoundId s;
     isProcessing := isProcessing s; fallbackMode := fallbackMode s;
     cachedParticipants := cachedParticipants s;
     lastEmailFetchTime := lastEmailFetchTime s;
     emailOverrides := emailOverrides s |}.

Definition withEmailToName (emailToName : gmap string string)
    (s : AppState) : AppState :=
  {| sessionId := sessionId s; parsedRounds := parsedRounds s;
     emailToName := emailToName; activeRounds := activeRounds s;
     actionLog := actionLog s; selectedRoundId := selectedRoundId s;
     isProcessing := isProcessing s; fallbackMode := fallbackMode s;
     cachedParticipants := cachedParticipants s;
     lastEmailFetchTime := lastEmailFetchTime s;
     emailOverrides := emailOverrides s |}.

Definition withSelectedRoundId (selectedRoundId : option string)
    (s : AppState) : AppState :=
  {| sessionId := sessionId s; parsedRounds := parsedRounds s;
     emailToName := emailToName s; activeRounds := activeRounds s;
     actionLog := actionLog s; selectedRoundId := selectedRoundId;
     isProcessing := isProcessing s; fallbackMode := fallbackMode s;
     cachedParticipants := cachedParticipants s;
     lastEmailFetchTime := lastEmailFetchTime s;
     emailOverrides := emailOverrides s |}.

(** ** Persistence *)

(** The object stored for one round by [saveState]. *)
Definition roundRecord (roundState : RoundState) : Persisted.RoundRecord :=
  {| Persisted.movedParticipants := elements (movedParticipants roundState);
     Persisted.startedAt := startedAt roundState;
     Persisted.endedAt := endedAt roundState;
     Persisted.movedCount := movedCount roundState;
     Persisted.admittedCount := admittedCount roundState |}.

Definition saveState (state : AppState) : Cmd unit :=
  let parsedRounds :=
    forEach (parsedRounds state)
      (λ roundId emails obj, setProperty roundId (elements emails) obj) ∅ in
  let emailToName :=
    forEach (emailToName state)
      (λ email name obj, setProperty email name obj) ∅ in
  let activeRounds :=
    forEach (activeRounds state)
      (λ roundId roundState obj, setProperty roundId (roundRecord roundState) obj) ∅ in
  now ← Date_now;
  setItem {| Persisted.sessionId := sessionId state;
             Persisted.parsedRounds := Some parsedRounds;
             Persisted.emailToName := Some emailToName;
             Persisted.activeRounds := Some activeRounds;
             Persisted.selectedRoundId := selectedRoundId state;
             Persisted.lastUpdated := now |}.

(** The round state [loadPersistedState] rebuilds from a stored record. *)
Definition roundStateOf (roundId : string) (record : Persisted.RoundRecord)
  : RoundState :=
  {| roundId := roundId;
     movedParticipants := list_to_set (Persisted.movedParticipants record);
     startedAt := Persisted.startedAt record;
     endedAt := Persisted.endedAt record;
     movedCount := Persisted.movedCount record;
     admittedCount := Persisted.admittedCount record |}.

Definition loadPersistedState : Cmd (option Loaded) :=
  stored ← getItem;
  match stored with
  | None => mret None
  | Some parsed =>
      let parsedRounds :=
        forEach (default ∅ (Persisted.parsedRounds parsed))
          (λ roundId emails m, <[roundId := list_to_set emails]> m) ∅ in
      let emailToName :=
        forEach (default ∅ (Persisted.emailToName parsed))
          (λ email name m, <[email := name]> m) ∅ in
      let activeRounds :=
        forEach (default ∅ (Persisted.activeRounds parsed))
          (λ roundId record m, <[roundId := roundStateOf roundId record]> m) ∅ in
      mret (Some {| loadedSessionId := Persisted.sessionId parsed;
                    loadedParsedRounds := parsedRounds;
                    loadedEmailToName := emailToName;
                    loadedActiveRounds := activeRounds;
                    loadedSelectedRoundId := Persisted.selectedRoundId parsed |})
  end.

(** ** Actions *)

Definition setParsedRounds (rounds : gmap string (gset string)) : Cmd unit :=
  _ ← set (withParsedRounds rounds);
  s ← get; saveState s.

Definition setEmailToName (emailToName : gmap string string) : Cmd unit :=
  _ ← set (withEmailToName emailToName);
  s ← get; saveState s.

Definition setSelectedRoundId (roundId : option string) : Cmd unit :=
  _ ← set (withSelectedRoundId roundId);
  s ← get; saveState s.

Definition addActionLog (entry : Log.Entry) : Cmd unit :=
  id ← generateUUID;
  timestamp ← Date_now;
  s ← get;
  let newEntry :=
    {| Log.id := id; Log.timestamp := timestamp; Log.sessionId := sessionId s;
       Log.type := Log.entryType entry; Log.roundId := Log.entryRoundId entry;
       Log.participantUUID := None; Log.displayName := None; Log.email := None;
       Log.status := Log.entryStatus entry; Log.error := None;
       Log.retryCount := None |} in
  set (λ state, withActionLog (actionLog state ++ [newEntry]) state).

(** [roundState.startedAt = now; roundState.endedAt = undefined] *)
Definition restarted (now : Z) (roundState : RoundState) : RoundState :=
  {| roundId := roundId roundState;
     movedParticipants := movedParticipants roundState;
     startedAt := Some now; endedAt := None;
     movedCount := movedCount roundState;
     admittedCount := admittedCount roundState |}.

(** [roundState.endedAt = now] *)
Definition ended (now : Z) (roundState : RoundState) : RoundState :=
  {| roundId := roundId roundState;
     movedParticipants := movedParticipants roundState;
     startedAt := startedAt roundState; endedAt := Some now;
     movedCount := movedCount roundState;
     admittedCount := admittedCount roundState |}.

(** The actions copy the map ([new Map(get().activeRounds)]) and change the
    round-state object of the round in place; the object is shared with the
    map that the copy replaces, and with nothing else, so the new state is
    the old map with the changed object at [roundId]. *)
Definition startRound (roundId : string) : Cmd unit :=
  s ← get;
  let activeRounds := activeRounds s in
  activeRounds' ←
    match activeRounds !! roundId with
    | None =>
        now ← Date_now;
        mret (<[roundId := {| roundId := roundId; movedParticipants := ∅;
                              startedAt := Some now; endedAt := None;
                              movedCount := 0; admittedCount := 0 |}]> activeRounds)
    | Some roundState =>
        now ← Date_now;
        mret (<[roundId := restarted now roundState]> activeRounds)
    end;
  _ ← set (withActiveRounds activeRounds');
  s ← get;
  _ ← saveState s;
  addActionLog {| Log.entryType := Log.start_round;
                  Log.entryRoundId := Some roundId;
                  Log.entryStatus := Log.success |}.

Definition endRound (roundId : string) : Cmd unit :=
  s ← get;
  let activeRounds := activeRounds s in
  _ ← match activeRounds !! roundId with
      | Some roundState =>
          now ← Date_now;
          _ ← set (withActiveRounds (<[roundId := ended now roundState]> activeRounds));
          s ← get;
          saveState s
      | None => mret tt
      end;
  addActionLog {| Log.entryType := Log.end_round;
                  Log.entryRoundId := Some roundId;
                  Log.entryStatus := Log.success |}.

Definition addMovedParticipant (roundId participantUUID : string) : Cmd unit :=
  s ← get;
  let activeRounds := activeRounds s in
  activeRounds' ←
    match activeRounds !! roundId with
    | None =>
        now ← Date_now;
        mret (<[roundId := {| roundId := roundId;
                              movedParticipants := {[participantUUID]};
                              startedAt := Some now; endedAt := None;
                              movedCount := 0; admittedCount := 0 |}]> activeRounds)
    | Some roundState =>
        mret (<[roundId := {| roundId := Store.roundId roundState;
                              movedParticipants :=
                                {[participantUUID]} ∪ movedParticipants roundState;
                              startedAt := startedAt roundState;
                              endedAt := endedAt roundState;
                              movedCount := movedCount roundState;
                              admittedCount := admittedCount roundState |}]>
                activeRounds)
    end;
  _ ← set (withActiveRounds activeRounds');
  s ← get;
  saveState s.

Definition clearRound (roundId : string) : Cmd unit :=
  s ← get;
  _ ← set (withActiveRounds (delete roundId (activeRounds s)));
  s ← get;
  saveState s.

(** [roundState?.movedParticipants || new Set()] *)
Definition getMovedParticipants (roundId : string) : Cmd (gset string) :=
  s ← get;
  mret (default ∅ (movedParticipants <$> activeRounds s !! roundId)).

(** ** The other actions of the store *)

(** [localStorage.removeItem(STORAGE_KEY)] *)
Definition removeItem : Cmd unit :=
  λ w, (tt, {| state := state w; storage := None;
               times := times w; uuids := uuids w |}).

(** [addActionLog(entry)] for an entry with any of its optional fields. *)
Definition addActionLogEntry (entry : Log.Fields) : Cmd unit :=
  id ← generateUUID;
  timestamp ← Date_now;
  s ← get;
  let newEntry :=
    {| Log.id := id; Log.timestamp := timestamp; Log.sessionId := sessionId s;
       Log.type := Log.fieldsType entry; Log.roundId := Log.fieldsRoundId entry;
       Log.participantUUID := Log.fieldsParticipantUUID entry;
       Log.displayName := Log.fieldsDisplayName entry;
       Log.email := Log.fieldsEmail entry;
       Log.status := Log.fieldsStatus entry; Log.error := Log.fieldsError entry;
       Log.retryCount := Log.fieldsRetryCount entry |} in
  set (λ state, withActionLog (actionLog state ++ [newEntry]) state).

Definition setIsProcessing (isProcessing : bool) : Cmd unit :=
  set (λ s,
    {| sessionId := sessionId s; parsedRounds := parsedRounds s;
       emailToName := emailToName s; activeRounds := activeRounds s;
       actionLog := actionLog s; selectedRoundId := selectedRoundId s;
       isProcessing := isProcessing; fallbackMode := fallbackMode s;
       cachedParticipants := cachedParticipants s;
       lastEmailFetchTime := lastEmailFetchTime s;
       emailOverrides := emailOverrides s |}).

Definition setFallbackMode (enabled : bool) : Cmd unit :=
  set (λ s,
    {| sessionId := sessionId s; parsedRounds := parsedRounds s;
       emailToName := emailToName s; activeRounds := activeRounds s;
       actionLog := actionLog s; selectedRoundId := selectedRoundId s;
       isProcessing := isProcessing s; fallbackMode := enabled;
       cachedParticipants := cachedParticipants s;
       lastEmailFetchTime := lastEmailFetchTime s;
       emailOverrides := emailOverrides s |}).

(** [set({ cachedParticipants, lastEmailFetchTime })] *)
Definition withCache (cachedParticipants : option (list ParticipantWithEmail))
    (lastEmailFetchTime : option Z) (s : AppState) : AppState :=
  {| sessionId := sessionId s; parsedRounds := parsedRounds s;
     emailToName := emailToName s; activeRounds := activeRounds s;
     actionLog := actionLog s; selectedRoundId := selectedRoundId s;
     isProcessing := isProcessing s; fallbackMode := fallbackMode s;
     cachedParticipants := cachedParticipants;
     lastEmailFetchTime := lastEmailFetchTime;
     emailOverrides := emailOverrides s |}.

Definition withEmailOverrides (emailOverrides : gmap string string)
    (s : AppState) : AppState :=
  {| sessionId := sessionId s; parsedRounds := parsedRounds s;
     emailToName := emailToName s; activeRounds := activeRounds s;
     actionLog := actionLog s; selectedRoundId := selectedRoundId s;
     isProcessing := isProcessing s; fallbackMode := fallbackMode s;
     cachedParticipants := cachedParticipants s;
     lastEmailFetchTime := lastEmailFetchTime s;
     emailOverrides := emailOverrides |}.

Definition updateRoundStats (roundId : string) (movedCount admittedCount : Z)
  : Cmd unit :=
  s ← get;
  let activeRounds := activeRounds s in
  match activeRounds !! roundId with
  | Some roundState =>
      _ ← set (withActiveRounds
                 (<[roundId := {| roundId := Store.roundId roundState;
                                  movedParticipants := movedParticipants roundState;
                                  startedAt := startedAt roundState;
                                  endedAt := endedAt roundState;
                                  movedCount := movedCount;
                                  admittedCount := admittedCount |}]> activeRounds));
      s ← get;
      saveState s
  | None => mret tt
  end.

Definition setCachedParticipants (participants : list ParticipantWithEmail)
  : Cmd unit :=
  now ← Date_now;
  set (withCache (Some participants) (Some now)).

Definition clearCachedParticipants : Cmd unit := set (withCache None None).

(** [{ ...p, email }] *)
Definition withEmail (email : string) (p : ParticipantWithEmail)
  : ParticipantWithEmail :=
  {| participantUUID := participantUUID p; displayName := displayName p;
     role := role p; email := Some email |}.

Definition updateParticipantEmail (participantUUID email : string) : Cmd unit :=
  s ← get;
  match cachedParticipants s with
  | None => mret tt
  | Some cachedParticipants =>
      let updated :=
        (λ p, match p with
              | {| participantUUID := uuid |} =>
                  if String.eqb uuid participantUUID then withEmail email p else p
              end) <$> cachedParticipants in
      set (λ s, withCache (Some updated) (lastEmailFetchTime s) s)
  end.

Definition setEmailOverride (participantUUID email : string) : Cmd unit :=
  s ← get;
  set (withEmailOverrides
         (<[participantUUID := Js.trim (Js.toLowerCase email)]> (emailOverrides s))).

Definition removeEmailOverride (participantUUID : string) : Cmd unit :=
  s ← get;
  set (withEmailOverrides (delete participantUUID (emailOverrides s))).

(** [createInitialState()]: [a || b] takes [b] for an empty string as for a
    missing value; a map is never replaced. *)
Definition createInitialState : Cmd AppState :=
  persisted ← loadPersistedState;
  sessionId ←
    match persisted with
    | Some p =>
        if Js.truthy (loadedSessionId p) then mret (loadedSessionId p)
        else generateUUID
    | None => generateUUID
    end;
  mret {| sessionId := sessionId;
          parsedRounds := default ∅ (loadedParsedRounds <$> persisted);
          emailToName := default ∅ (loadedEmailToName <$> persisted);
          activeRounds := default ∅ (loadedActiveRounds <$> persisted);
          actionLog := [];
          selectedRoundId :=
            match persisted ≫= loadedSelectedRoundId with
            | Some roundId => if Js.truthy roundId then Some roundId else None
            | None => None
            end;
          isProcessing := false;
          fallbackMode := false;
          cachedParticipants := None;
          lastEmailFetchTime := None;
          emailOverrides := ∅ |}.

(** [resetState()]: the state is rebuilt by [createInitialState], which
    reads the stored item, before the item is removed. *)
Definition resetState : Cmd unit :=
  initial ← createInitialState;
  sessionId ← generateUUID;
  _ ← set (λ _,
        {| sessionId := sessionId;
           parsedRounds := parsedRounds initial;
           emailToName := emailToName initial;
           activeRounds := activeRounds initial;
           actionLog := actionLog initial;
           selectedRoundId := selectedRoundId initial;
           isProcessing := isProcessing initial;
           fallbackMode := fallbackMode initial;
           cachedParticipants := cachedParticipants initial;
           lastEmailFetchTime := lastEmailFetchTime initial;
           emailOverrides := emailOverrides initial |});
  removeItem.

End Store.

(* ===================================================================== *)
(** * operations/breakoutRoom                                             *)
(* ===================================================================== *)

Module Breakout.

(** What the wrappers of [sdk/zoom] resolve with.  Each wrapper catches the
    errors of the SDK and reports them in its result, so none rejects. *)

(** [{ success; state?; ... }] of [getBreakoutRoomList] *)
Record RoomList := { listed : bool; state : option string }.

(** The response of the SDK to [createBreakoutRooms], as far as it is read:
    [response.rooms?.[0]?.breakoutRoomId]. *)
Record Room := { breakoutRoomId : option string }.
Record Created := { createdRooms : option (list Room) }.

(** [{ success; rooms?; error? }] of [createBreakoutRooms] *)
Record CreateResult := {
  created : bool;
  rooms : option Created;
  createError : option string
}.

(** The suspension points of the breakout operations: the wrappers they
    await, the timer of [delay], the clock read by [Date.now()] and the
    callback [onProgress]. *)
Inductive Call :=
| getBreakoutRoomList
| closeBreakoutRooms
| createBreakoutRooms (numberOfRooms : Z) (assign : string) (names : list string)
| configureBreakoutRooms (allowParticipantsReturnToMainSession
                          automaticallyMoveParticipantsIntoRooms : bool) (countDown : Z)
| assignParticipantToBreakoutRoom (breakoutRoomId participantUUID : string)
| openBreakoutRooms
| delay (ms : Z)
| Date_now
| onProgress (completed total : nat).

Global Instance Call_eq_dec : EqDecision Call.
Proof. solve_decision. Defined.

Definition Response (c : Call) : Type :=
  match c with
  | getBreakoutRoomList => RoomList
  | createBreakoutRooms _ _ _ => CreateResult
  | closeBreakoutRooms | openBreakoutRooms
  | configureBreakoutRooms _ _ _ | assignParticipantToBreakoutRoom _ _ => Sdk.CallResult
  | Date_now => Z
  | delay _ | onProgress _ _ => unit
  end.

Inductive Promise (R : Type) : Type :=
| Resolve (r : R)
| Await (c : Call) (k : Response c → Promise R).

Arguments Resolve {R} r.
Arguments Await {R} c k.

Fixpoint bind {A B : Type} (m : Promise A) (f : A → Promise B) : Promise B :=
  match m with
  | Resolve a => f a
  | Await c k => Await c (λ x, bind (k x) f)
  end.

Definition await (c : Call) : Promise (Response c) := Await c Resolve.

(** The meeting as the operation sees it: the answer to the call it awaits
    after [n] earlier ones.  The operations of this module await one call
    at a time. *)
Definition Provider := nat → ∀ c : Call, Response c.

Fixpoint runFrom {R : Type} (p : Promise R) (provider : Provider)
    (awaited : list Call) : R * list Call :=
  match p with
  | Resolve r => (r, awaited)
  | Await c k => runFrom (k (provider (length awaited) c)) provider (awaited ++ [c])
  end.

Definition run {R : Type} (p : Promise R) (provider : Provider) : R * list Call :=
  runFrom p provider [].

End Breakout.

Global Instance breakout_bind : MBind Breakout.Promise := λ _ _ f m, Breakout.bind m f.
Global Instance breakout_ret : MRet Breakout.Promise := λ _ r, Breakout.Resolve r.

Module BreakoutRoom.
Import Breakout.

Definition RETRY_DELAY_MS : Z := 500.
Definition MAX_RETRIES : nat := 3.
Definition BATCH_DELAY_MS : Z := 200.

(** [assignParticipantWithRetry(breakoutRoomId, participantUUID,
    displayName, retryCount)].  The function calls itself with
    [retryCount + 1] while [retryCount < MAX_RETRIES]; [remaining] is
    [MAX_RETRIES - retryCount], the number of such calls left. *)
Fixpoint assignFrom (remaining : nat) (breakoutRoomId participantUUID displayName : string)
    (retryCount : nat) : Promise Op.OperationResult :=
  result ← await (assignParticipantToBreakoutRoom breakoutRoomId participantUUID);
  if Sdk.success result then
    Resolve {| Op.participantUUID := participantUUID; Op.success := true;
               Op.error := None; Op.retryCount := retryCount |}
  else
    let errorMsg := Js.orElse (Sdk.error result) "Unknown error" in
    match remaining with
    | S remaining' =>
        _ ← await (delay (RETRY_DELAY_MS * (Z.of_nat retryCount + 1)));
        assignFrom remaining' breakoutRoomId participantUUID displayName (S retryCount)
    | 0 =>
        Resolve {| Op.participantUUID := participantUUID; Op.success := false;
                   Op.error := Some errorMsg; Op.retryCount := retryCount |}
    end.

Definition assignParticipantWithRetry (breakoutRoomId participantUUID displayName : string)
  : Promise Op.OperationResult :=
  assignFrom MAX_RETRIES breakoutRoomId participantUUID displayName 0.

(** The loop of [waitForBreakoutRoomsToClose]; [fuel] bounds its
    iterations, and [None] is a loop that has not ended within it. *)
Fixpoint waitLoop (fuel : nat) (start timeoutMs : Z) : Promise (option unit) :=
  now ← await Date_now;
  if (now - start <? timeoutMs)%Z then
    match fuel with
    | 0 => Resolve None
    | S fuel' =>
        status ← await getBreakoutRoomList;
        if negb (listed status) || negb (bool_decide (state status = Some "open"))
        then Resolve (Some tt)
        else _ ← await (delay 400); waitLoop fuel' start timeoutMs
    end
  else Resolve (Some tt).

Definition waitForBreakoutRoomsToClose (fuel : nat) (timeoutMs : Z)
  : Promise (option unit) :=
  start ← await Date_now;
  waitLoop fuel start timeoutMs.

(** Step 4 of [sendParticipantsToBreakoutRooms]: the loop over the
    participants, with [results] and [completed] as the source has them. *)
Fixpoint assignAll (breakoutRoomId : string) (participants : list ParticipantWithEmail)
    (total completed : nat) (results : list Op.OperationResult)
  : Promise (list Op.OperationResult) :=
  match participants with
  | [] => Resolve results
  | participant :: rest =>
      result ← assignParticipantWithRetry breakoutRoomId
                 (participantUUID participant) (displayName participant);
      let results := (results ++ [result])%list in
      let completed := S completed in
      _ ← await (onProgress completed total);
      _ ← (if Nat.ltb completed total then await (delay BATCH_DELAY_MS)
           else Resolve tt);
      assignAll breakoutRoomId rest total completed results
  end.

(** [createResult.rooms.rooms?.[0]?.breakoutRoomId] *)
Definition firstRoomId (response : Created) : option string :=
  rooms ← createdRooms response;
  room ← head rooms;
  breakoutRoomId room.

(** The [try] block of [sendParticipantsToBreakoutRooms]: it is fulfilled
    with the results or rejected with the error it throws; [None] when the
    wait for the rooms to close has not ended. *)
Definition sendBody (fuel : nat) (participants : list ParticipantWithEmail)
    (roundId : string) : Promise (option (Async.Outcome (list Op.OperationResult))) :=
  listResult ← await getBreakoutRoomList;
  closed ←
    (if listed listResult && bool_decide (state listResult = Some "open") then
       closeResult ← await closeBreakoutRooms;
       if negb (Sdk.success closeResult) then Resolve (Some tt)
       else waitForBreakoutRoomsToClose fuel 5000
     else Resolve (Some tt));
  match closed with
  | None => Resolve None
  | Some _ =>
      let roomName := ("Round " ++ roundId)%string in
      createResult ← await (createBreakoutRooms 1 "manually" [roomName]);
      match (if created createResult then rooms createResult else None) with
      | None =>
          Resolve (Some (Async.Rejected (Async.ErrorObject
            (Js.orElse (createError createResult) "Failed to create breakout rooms"))))
      | Some response =>
          if Js.truthyOpt (firstRoomId response) then
            let breakoutRoomId := Js.toStr (firstRoomId response) in
            _ ← await (configureBreakoutRooms false true 0);
            results ← assignAll breakoutRoomId participants (length participants) 0 [];
            _ ← await (delay (BATCH_DELAY_MS * 2));
            openResult ← await openBreakoutRooms;
            Resolve (Some (Async.Fulfilled results))
          else
            Resolve (Some (Async.Rejected
              (Async.ErrorObject "No breakout room ID returned")))
      end
  end.

Definition sendParticipantsToBreakoutRooms (fuel : nat)
    (participants : list ParticipantWithEmail) (roundId : string)
  : Promise (option (list Op.OperationResult)) :=
  if Nat.eqb (length participants) 0 then Resolve (Some [])
  else
    outcome ← sendBody fuel participants roundId;
    match outcome with
    | None => Resolve None
    | Some (Async.Fulfilled results) => Resolve (Some results)
    | Some (Async.Rejected error) =>
        Resolve (Some ((λ p, {| Op.participantUUID := participantUUID p;
                                Op.success := false;
                                Op.error :=
                                  Some (match error with
                                        | Async.ErrorObject message => message
                                        | Async.undefinedValue =>
                                            "Failed to create breakout rooms"
                                        end);
                                Op.retryCount := 0 |}) <$> participants))
    end.

(** [returnParticipantsFromBreakoutRooms]: its result has the fields
    [success] and [error], and no other. *)
Definition returnParticipantsFromBreakoutRooms : Promise Sdk.CallResult :=
  closeResult ← await closeBreakoutRooms;
  if negb (Sdk.success closeResult) then
    Resolve {| Sdk.success := false;
               Sdk.error := Some (Js.orElse (Sdk.error closeResult)
                                    "Failed to close breakout rooms") |}
  else Resolve {| Sdk.success := true; Sdk.error := None |}.

End BreakoutRoom.

(* ===================================================================== *)
(** * components: what the panels compute from the store                  *)
(* ===================================================================== *)

(** [emailOverrides.get(p.participantUUID) || p.email]: the email the
    panels use for a participant. *)
Definition effectiveEmail (emailOverrides : gmap string string)
    (p : ParticipantWithEmail) : option string :=
  match emailOverrides !! participantUUID p with
  | Some override => if Js.truthy override then Some override else email p
  | None => email p
  end.

(** [EmailAssociationPanel] *)
Module EmailAssociationPanel.

Definition handleAssociate (selectedUUID emailInput : string) : Store.Cmd unit :=
  if negb (Js.truthy selectedUUID) || negb (Js.truthy (Js.trim emailInput))
  then mret tt
  else Store.setEmailOverride selectedUUID (Js.trim emailInput).

End EmailAssociationPanel.

(** [Participant] of [types] *)
Module Meeting.
Record Participant := {
  participantUUID : string;
  displayName : string;
  role : option string
}.
End Meeting.

(** [RoundSelector] *)
Module RoundSelector.

(** [{ status; participant? }] *)
Inductive ParticipantStatus :=
| in_meeting (participant : Meeting.Participant)
| waiting_room (participant : Sdk.WaitingRoomParticipant)
| not_present
| no_association.

(** [getParticipantStatus(email)], from the store's [cachedParticipants]
    and [emailOverrides] and the two participant lists the component
    holds. *)
Definition getParticipantStatus (cachedParticipants : option (list ParticipantWithEmail))
    (emailOverrides : gmap string string)
    (meetingParticipants : list Meeting.Participant)
    (waitingRoomParticipants : list Sdk.WaitingRoomParticipant)
    (email : string) : ParticipantStatus :=
  let participantWithEmail :=
    cachedParticipants ≫= List.find (λ p,
      match effectiveEmail emailOverrides p with
      | Some pEmail => String.eqb (Js.toLowerCase pEmail) (Js.toLowerCase email)
      | None => false
      end) in
  match participantWithEmail with
  | None => no_association
  | Some participantWithEmail =>
      match List.find (λ p, String.eqb (Sdk.participantUUID p)
                              (participantUUID participantWithEmail))
              waitingRoomParticipants with
      | Some inWaitingRoom => waiting_room inWaitingRoom
      | None =>
          match List.find (λ p, String.eqb (Meeting.participantUUID p)
                                  (participantUUID participantWithEmail))
                  meetingParticipants with
          | Some inMeeting => in_meeting inMeeting
          | None => not_present
          end
      end
  end.

End RoundSelector.

(** [UploadPanel] *)
Module UploadPanel.

(** [handleFileUpload].  [file] is [event.target.files?.[0]], given by
    what [file.text()] settles with; the reader of [parseCSV] is a
    parameter, as for [parseCSV].  The handler returns nothing: what it
    leaves is what it does to the store.  [parseResult] and [isLoading],
    the state of the component itself, are not part of the store and are
    left out, and with them [setParseResult], [setIsLoading] and the reset
    of the file input. *)
Definition handleFileUpload (Papa_parse : string → Csv.PapaResults)
    (file : option (Async.Outcome string)) : Store.Cmd unit :=
  match file with
  | None => mret tt
  | Some (Async.Fulfilled content) =>
      let result := Csv.parseCSV Papa_parse content in
      match (if Csv.success result then Csv.parsed result else None) with
      | Some data =>
          _ ← Store.setParsedRounds (Csv.csvRounds data);
          _ ← Store.setEmailToName (Csv.csvEmailToName data);
          Store.addActionLogEntry
            {| Store.Log.fieldsType := Store.Log.parse_csv;
               Store.Log.fieldsRoundId := None;
               Store.Log.fieldsParticipantUUID := None;
               Store.Log.fieldsDisplayName := None;
               Store.Log.fieldsEmail := None;
               Store.Log.fieldsStatus := Store.Log.success;
               Store.Log.fieldsError := None;
               Store.Log.fieldsRetryCount := None |}
      | None =>
          Store.addActionLogEntry
            {| Store.Log.fieldsType := Store.Log.parse_csv;
               Store.Log.fieldsRoundId := None;
               Store.Log.fieldsParticipantUUID := None;
               Store.Log.fieldsDisplayName := None;
               Store.Log.fieldsEmail := None;
               Store.Log.fieldsStatus := Store.Log.failed;
               Store.Log.fieldsError :=
                 Some (String.concat "; " (Csv.resultErrors result));
               Store.Log.fieldsRetryCount := None |}
      end
  | Some (Async.Rejected error) =>
      let errorMsg := WaitingRoom.errorMessage error in
      Store.addActionLogEntry
        {| Store.Log.fieldsType := Store.Log.parse_csv;
           Store.Log.fieldsRoundId := None;
           Store.Log.fieldsParticipantUUID := None;
           Store.Log.fieldsDisplayName := None;
           Store.Log.fieldsEmail := None;
           Store.Log.fieldsStatus := Store.Log.failed;
           Store.Log.fieldsError := Some errorMsg;
           Store.Log.fieldsRetryCount := None |}
  end.

End UploadPanel.

(** [ControlPanel] *)
Module ControlPanel.

(** [cachedParticipants.map(p => ({ ...p, email: ... }))] of
    [handleStartRound] *)
Definition participantsWithOverrides (cachedParticipants : list ParticipantWithEmail)
    (emailOverrides : gmap string string) : list ParticipantWithEmail :=
  (λ p, {| participantUUID := participantUUID p; displayName := displayName p;
           role := role p; email := effectiveEmail emailOverrides p |})
    <$> cachedParticipants.

(** How [handleStartRound] ends: with one of its four notifications, or
    with the confirmation dialog for the matched participants. *)
Inductive StartRoundOutcome :=
| selectRoundFirst
| fetchEmailsFirst
| noConflictsDefined
| noParticipantsMatched (matchResult : MatchResult)
| confirmStart (matchResult : MatchResult) (participantsToMove : list ParticipantWithEmail).

Definition handleStartRound (s : Store.AppState) : StartRoundOutcome :=
  match Store.selectedRoundId s with
  | None => selectRoundFirst
  | Some selectedRoundId =>
      if negb (Js.truthy selectedRoundId) then selectRoundFirst
      else
        match Store.cachedParticipants s with
        | None => fetchEmailsFirst
        | Some cachedParticipants =>
            let participantsWithOverrides :=
              participantsWithOverrides cachedParticipants (Store.emailOverrides s) in
            let conflictEmails :=
              getConflictEmailsForRound selectedRoundId (Store.parsedRounds s) in
            if Nat.eqb (size conflictEmails) 0 then noConflictsDefined
            else
              let matchResult := matchParticipants conflictEmails participantsWithOverrides in
              if Nat.ltb 0 (length (matched matchResult))
              then confirmStart matchResult (matched matchResult)
              else noParticipantsMatched matchResult
        end
  end.

(** The log entry [confirmStartRound] writes for a result. *)
Definition movedEntry (selectedRoundId : string) (result : Op.OperationResult)
  : Store.Log.Fields :=
  {| Store.Log.fieldsType := Store.Log.move_to_waiting_room;
     Store.Log.fieldsRoundId := Some selectedRoundId;
     Store.Log.fieldsParticipantUUID := Some (Op.participantUUID result);
     Store.Log.fieldsDisplayName := None;
     Store.Log.fieldsEmail := None;
     Store.Log.fieldsStatus :=
       if Op.success result then Store.Log.success else Store.Log.failed;
     Store.Log.fieldsError := if Op.success result then None else Op.error result;
     Store.Log.fieldsRetryCount := None |}.

(** The loop [for (const result of results)] of [confirmStartRound], with
    its counter [successCount]. *)
Fixpoint recordResults (selectedRoundId : string) (results : list Op.OperationResult)
    (successCount : Z) : Store.Cmd Z :=
  match results with
  | [] => mret successCount
  | result :: rest =>
      if Op.success result then
        _ ← Store.addMovedParticipant selectedRoundId (Op.participantUUID result);
        _ ← Store.addActionLogEntry (movedEntry selectedRoundId result);
        recordResults selectedRoundId rest (successCount + 1)
      else
        _ ← Store.addActionLogEntry (movedEntry selectedRoundId result);
        recordResults selectedRoundId rest successCount
  end.

(** [confirmStartRound], as it acts on the store: the breakout operation it
    awaits runs against [provider]; the result is [false] when that
    operation has not ended, and the handler with it.  The notifications
    and the state local to the component are left out. *)
Definition confirmStartRound (fuel : nat) (selectedRoundId : option string)
    (participantsToMove : list ParticipantWithEmail) (provider : Breakout.Provider)
  : Store.Cmd bool :=
  match selectedRoundId with
  | None => mret true
  | Some selectedRoundId =>
      if negb (Js.truthy selectedRoundId) then mret true
      else
        _ ← Store.setIsProcessing true;
        _ ← Store.startRound selectedRoundId;
        match (Breakout.run (BreakoutRoom.sendParticipantsToBreakoutRooms fuel
                               participantsToMove selectedRoundId) provider).1 with
        | None => mret false
        | Some results =>
            successCount ← recordResults selectedRoundId results 0;
            _ ← Store.updateRoundStats selectedRoundId successCount 0;
            _ ← Store.setIsProcessing false;
            mret true
        end
  end.

(** The log entry [confirmEndRound] writes for a moved participant. *)
Definition admittedEntry (selectedRoundId uuid : string) : Store.Log.Fields :=
  {| Store.Log.fieldsType := Store.Log.admit_from_waiting_room;
     Store.Log.fieldsRoundId := Some selectedRoundId;
     Store.Log.fieldsParticipantUUID := Some uuid;
     Store.Log.fieldsDisplayName := None;
     Store.Log.fieldsEmail := None;
     Store.Log.fieldsStatus := Store.Log.success;
     Store.Log.fieldsError := None;
     Store.Log.fieldsRetryCount := None |}.

(** [movedParticipants.forEach(uuid => addActionLog(...))], over the
    participants in the order the set iterates them. *)
Fixpoint logAdmitted (selectedRoundId : string) (uuids : list string) : Store.Cmd unit :=
  match uuids with
  | [] => mret tt
  | uuid :: rest =>
      _ ← Store.addActionLogEntry (admittedEntry selectedRoundId uuid);
      logAdmitted selectedRoundId rest
  end.

(** [confirmEndRound], as it acts on the store; the breakout operation it
    awaits runs against [provider].  The moved set iterates in insertion
    order, which a [gset] does not keep: [iteration] gives the order.
    [result.participantCount] reads a field that the result of
    [returnParticipantsFromBreakoutRooms] does not have, so [successCount]
    is [undefined || 0]. *)
Definition confirmEndRound (selectedRoundId : option string)
    (provider : Breakout.Provider) (iteration : gset string → list string)
  : Store.Cmd unit :=
  match selectedRoundId with
  | None => mret tt
  | Some selectedRoundId =>
      if negb (Js.truthy selectedRoundId) then mret tt
      else
        _ ← Store.setIsProcessing true;
        movedParticipants ← Store.getMovedParticipants selectedRoundId;
        let result :=
          (Breakout.run BreakoutRoom.returnParticipantsFromBreakoutRooms provider).1 in
        _ ← (if negb (Sdk.success result) then mret tt
             else
               let successCount := 0%Z in
               _ ← logAdmitted selectedRoundId (iteration movedParticipants);
               _ ← Store.endRound selectedRoundId;
               Store.updateRoundStats selectedRoundId
                 (Z.of_nat (size movedParticipants)) successCount);
        Store.setIsProcessing false
  end.

End ControlPanel.

(* ===================================================================== *)
(** * Vocabulary of the properties                                        *)
(* ===================================================================== *)

Local Open Scope list_scope.
Local Open Scope nat_scope.

(** ** Matcher *)

(** The key a participant is looked up under. *)
Definition lookupKey (p : ParticipantWithEmail) : string :=
  normalizeEmail (Js.toStr (email p)).

(** The participant has no usable email: [!participant.email]. *)
Definition lacksEmail (p : ParticipantWithEmail) : Prop :=
  Js.truthyOpt (email p) = false.

(** The participant has an email whose normalized form is a conflict. *)
Definition isHit (conflictEmails : gset string) (p : ParticipantWithEmail) : Prop :=
  Js.truthyOpt (email p) = true ∧ lookupKey p ∈ conflictEmails.

Global Instance lacksEmail_dec p : Decision (lacksEmail p).
Proof. unfold lacksEmail. apply _. Defined.

Global Instance isHit_dec conflictEmails p : Decision (isHit conflictEmails p).
Proof. unfold isHit. apply _. Defined.

(** The participants of Scenario C. *)
Definition scenarioC_p1 : ParticipantWithEmail :=
  {| participantUUID := "p1"; displayName := "Alice"; role := None;
     email := Some "Alice@Example.com" |}.

Definition scenarioC_p2 : ParticipantWithEmail :=
  {| participantUUID := "p2"; displayName := "Bob"; role := None; email := None |}.

(** ** CSV parser *)

Definition line (s1 s2 : string) : string :=
  (s1 ++ String Csv.newline EmptyString ++ s2)%string.

(** The text of Scenario B, the column-based sample of the quick-start guide
    with other flags in the second row. *)
Definition scenarioB_text : string :=
  line "email,round_1,round_2"
    (line "alice@example.com,1,0" "bob@example.com,yes,x").

(** What the CSV reader returns for it. *)
Definition scenarioB_results : Csv.PapaResults :=
  {| Csv.data :=
       [ [("email", "alice@example.com"); ("round_1", "1"); ("round_2", "0")];
         [("email", "bob@example.com"); ("round_1", "yes"); ("round_2", "x")] ];
     Csv.fields := Some ["email"; "round_1"; "round_2"];
     Csv.errors := [] |}.

(** The reader's results with further data rows under the same header. *)
Definition withMoreRows (results : Csv.PapaResults) (more : list Csv.Row)
  : Csv.PapaResults :=
  {| Csv.data := Csv.data results ++ more;
     Csv.fields := Csv.fields results;
     Csv.errors := Csv.errors results |}.

(** A row-based text whose second row has no valid email. *)
Definition skippedRow_text : string :=
  line "round_id,email" (line "1,alice@example.com" "1,not-an-email").

(** ** Operation engine *)

(** Every value the body can resolve with satisfies [P]. *)
Fixpoint Always {R : Type} (P : R → Prop) (p : Async.Promise R) : Prop :=
  match p with
  | Async.Resolve r => P r
  | Async.Await c k => ∀ x, Always P (k x)
  end.

(** Every call the body can await satisfies [Q]. *)
Fixpoint Awaits {R : Type} (Q : Async.Call → Prop) (p : Async.Promise R) : Prop :=
  match p with
  | Async.Resolve _ => True
  | Async.Await c k => Q c ∧ ∀ x, Awaits Q (k x)
  end.

(** The calls an operation on [participantUUID] may await: its own provider
    call [call], and timers. *)
Definition ownCall (call : Async.Call) (c : Async.Call) : Prop :=
  c = call ∨ Async.isTimer c = true.

Definition succeeded : Sdk.CallResult := {| Sdk.success := true; Sdk.error := None |}.

Definition failed (message : string) : Sdk.CallResult :=
  {| Sdk.success := false; Sdk.error := Some message |}.

(** A provider whose calls fail [k] times and succeed from then on, and
    whose waiting room holds the participants [waiting]. *)
Definition flaky (k : nat) (waiting : list string) : Async.Provider :=
  λ n c,
    match c with
    | Async.moveToWaitingRoom _ | Async.admitFromWaitingRoom _ =>
        if Nat.ltb n k then failed "busy" else succeeded
    | Async.getWaitingRoomParticipants =>
        {| Sdk.fetched := true;
           Sdk.participants :=
             Some (map (λ u, {| Sdk.participantUUID := u;
                                Sdk.displayName := "guest" |}) waiting);
           Sdk.fetchError := None |}
    | Async.sleep _ => tt
    end.

Definition participant (uuid : string) : ParticipantWithEmail :=
  {| participantUUID := uuid; displayName := "guest"; role := None; email := None |}.

(** ** Round state tracker *)

(** The states the store can hold and persist without loss: every round
    state is filed under its own [roundId], and no dictionary uses the one
    property name that a plain object cannot hold, [__proto__]. *)
Definition valid (s : Store.AppState) : Prop :=
  Store.parsedRounds s !! "__proto__" = None ∧
  Store.emailToName s !! "__proto__" = None ∧
  Store.activeRounds s !! "__proto__" = None ∧
  map_Forall (λ roundId roundState, Store.roundId roundState = roundId)
    (Store.activeRounds s).

Global Instance valid_dec s : Decision (valid s).
Proof. unfold valid. apply _. Defined.

(** The part of the state that is persisted, as an in-memory model. *)
Definition modelOf (s : Store.AppState) : Store.Loaded :=
  {| Store.loadedSessionId := Store.sessionId s;
     Store.loadedParsedRounds := Store.parsedRounds s;
     Store.loadedEmailToName := Store.emailToName s;
     Store.loadedActiveRounds := Store.activeRounds s;
     Store.loadedSelectedRoundId := Store.selectedRoundId s |}.

(** What a plain object keeps of a dictionary that is written to it key by
    key: every entry but the one under the property name [__proto__],
    whose assignment adds no property to the object. *)
Definition ownProperties {V : Type} (m : gmap string V) : gmap string V :=
  delete "__proto__" m.

(** The round state [roundState], filed under the identifier [roundId]. *)
Definition filedUnder (roundId : string) (roundState : Store.RoundState)
  : Store.RoundState :=
  {| Store.roundId := roundId;
     Store.movedParticipants := Store.movedParticipants roundState;
     Store.startedAt := Store.startedAt roundState;
     Store.endedAt := Store.endedAt roundState;
     Store.movedCount := Store.movedCount roundState;
     Store.admittedCount := Store.admittedCount roundState |}.

(** What is read back of a state that has been saved: the dictionaries
    without their entries under [__proto__], and every round state filed
    under the key it was stored at. *)
Definition reloaded (s : Store.AppState) : Store.Loaded :=
  {| Store.loadedSessionId := Store.sessionId s;
     Store.loadedParsedRounds := ownProperties (Store.parsedRounds s);
     Store.loadedEmailToName := ownProperties (Store.emailToName s);
     Store.loadedActiveRounds :=
       map_imap (λ roundId roundState, Some (filedUnder roundId roundState))
         (ownProperties (Store.activeRounds s));
     Store.loadedSelectedRoundId := Store.selectedRoundId s |}.

(** A row-based file whose one round is named [__proto__]. *)
Definition reservedRoundFile : string :=
  line "round_id,email" "__proto__,alice@example.com".

(** The moved set of a round, as [getMovedParticipants] reads it. *)
Definition movedSet (roundId : string) (w : Store.World) : gset string :=
  (Store.getMovedParticipants roundId w).1.

(** The fields of the state other than [activeRounds] and [actionLog] are
    the same in [before] and [after]. *)
Definition sameSettings (before after : Store.AppState) : Prop :=
  Store.sessionId after = Store.sessionId before ∧
  Store.parsedRounds after = Store.parsedRounds before ∧
  Store.emailToName after = Store.emailToName before ∧
  Store.selectedRoundId after = Store.selectedRoundId before ∧
  Store.isProcessing after = Store.isProcessing before ∧
  Store.fallbackMode after = Store.fallbackMode before ∧
  Store.cachedParticipants after = Store.cachedParticipants before ∧
  Store.lastEmailFetchTime after = Store.lastEmailFetchTime before ∧
  Store.emailOverrides after = Store.emailOverrides before.

(** [endRound roundId] in the world [w], as the frame property reads when
    taken literally: the round gets an end timestamp and keeps its moved
    set, every other round is as before, and so is every other field of the
    store, the action log included. *)
Definition endRound_changes_nothing_else (w : Store.World) (roundId : string) : Prop :=
  ∀ roundState, Store.activeRounds (Store.state w) !! roundId = Some roundState →
    let after := Store.state (Store.exec (Store.endRound roundId) w) in
    (∃ roundState',
       Store.activeRounds after !! roundId = Some roundState' ∧
       is_Some (Store.endedAt roundState') ∧
       Store.movedParticipants roundState' = Store.movedParticipants roundState) ∧
    (∀ other, other ≠ roundId →
       Store.activeRounds after !! other = Store.activeRounds (Store.state w) !! other) ∧
    sameSettings (Store.state w) after ∧
    Store.actionLog after = Store.actionLog (Store.state w).

(** The log entry an action on [roundId] appends in the world [w], whose
    clock has been read [reads] times by the action before. *)
Definition roundEntry (type : Store.Log.ActionType) (roundId : string)
    (w : Store.World) (reads : nat) : Store.Log.ActionLogEntry :=
  {| Store.Log.id := Store.uuids w 0;
     Store.Log.timestamp := Store.times w reads;
     Store.Log.sessionId := Store.sessionId (Store.state w);
     Store.Log.type := type;
     Store.Log.roundId := Some roundId;
     Store.Log.participantUUID := None; Store.Log.displayName := None;
     Store.Log.email := None;
     Store.Log.status := Store.Log.success;
     Store.Log.error := None; Store.Log.retryCount := None |}.

(** A store in which round r1 is active with two moved participants and
    round r2 has ended. *)
Definition sampleState : Store.AppState :=
  {| Store.sessionId := "session-1";
     Store.parsedRounds := {[ "r1" := {[ "alice@example.com"; "bob@example.com" ]};
                              "r2" := {[ "alice@example.com" ]} ]};
     Store.emailToName := {[ "alice@example.com" := "Alice" ]};
     Store.activeRounds :=
       {[ "r1" := {| Store.roundId := "r1";
                     Store.movedParticipants := {[ "p1"; "p2" ]};
                     Store.startedAt := Some 1000%Z; Store.endedAt := None;
                     Store.movedCount := 2%Z; Store.admittedCount := 0%Z |};
          "r2" := {| Store.roundId := "r2";
                     Store.movedParticipants := {[ "p1" ]};
                     Store.startedAt := Some 10%Z; Store.endedAt := Some 20%Z;
                     Store.movedCount := 1%Z; Store.admittedCount := 1%Z |} ]};
     Store.actionLog := [];
     Store.selectedRoundId := Some "r1";
     Store.isProcessing := false;
     Store.fallbackMode := false;
     Store.cachedParticipants := None;
     Store.lastEmailFetchTime := None;
     Store.emailOverrides := ∅ |}.

Definition sampleWorld : Store.World :=
  {| Store.state := sampleState;
     Store.storage := None;
     Store.times := λ n, (2000 + Z.of_nat n)%Z;
     Store.uuids := λ n, Csv.ofNat n |}.

(** The record [startRound] creates for a round that has none. *)
Definition freshRound (roundId : string) (now : Z) : Store.RoundState :=
  {| Store.roundId := roundId; Store.movedParticipants := ∅;
     Store.startedAt := Some now; Store.endedAt := None;
     Store.movedCount := 0; Store.admittedCount := 0 |}.

(** ** Strings *)

(** A string that does not start with white space. *)
Definition noLeadingSpace (s : string) : Prop :=
  match s with
  | EmptyString => True
  | String a _ => Js.isWhitespace a = false
  end.


(** ** Parsed conflict sets *)

(** No character of the string is white space. *)
Fixpoint noWhitespace (s : string) : bool :=
  match s with
  | EmptyString => true
  | String a r => negb (Js.isWhitespace a) && noWhitespace r
  end.

(** An email as the parsers store it: it matches the email pattern and is
    its own normal form. *)
Definition storedEmail (e : string) : Prop :=
  isValidEmail e = true ∧ normalizeEmail e = e.

(** Every email of every round is a stored email. *)
Definition storedRounds (rounds : gmap string (gset string)) : Prop :=
  ∀ roundId emails e, rounds !! roundId = Some emails → e ∈ emails → storedEmail e.

(** Every key of the name map is a stored email, and no name is empty. *)
Definition storedNames (emailToName : gmap string string) : Prop :=
  ∀ e name, emailToName !! e = Some name → storedEmail e ∧ name ≠ EmptyString.

(** The round columns of a column-based header: the columns other than the
    first one whose name contains "email" and the first one whose name
    contains "name". *)
Definition roundColumnsOf (headers : list string) : list string :=
  match find (λ h, Js.includes (Js.toLowerCase h) "email") headers with
  | None => []
  | Some emailKey =>
      List.filter
        (λ h, negb (String.eqb h emailKey)
              && Csv.differsFrom h
                   (find (λ h, Js.includes (Js.toLowerCase h) "name") headers))
        headers
  end.

(** [sampleColumnBasedCSV], the column-based template the parser module
    exports. *)
Definition sampleColumnBasedCSV : string :=
  line "email,round_1,round_2,round_3"
    (line "alice@example.com,1,0,1"
       (line "bob@example.com,1,1,0"
          (line "carol@example.com,0,1,0" "dave@example.com,0,0,1"))).

(** What both row loops keep true of their accumulator. *)
Definition storedParsed (acc : Csv.Parsed) : Prop :=
  storedRounds (Csv.rounds acc) ∧ storedNames (Csv.emailToName acc).


(** ** Utilities and retries *)

(** The provider call [retryFailedOperations] makes for a participant. *)
Definition operationCall (operation : WaitingRoom.Operation) (uuid : string)
  : Async.Call :=
  match operation with
  | WaitingRoom.moveOperation => Async.moveToWaitingRoom uuid
  | WaitingRoom.admitOperation => Async.admitFromWaitingRoom uuid
  end.

(** The answer of a provider to the first such call. *)
Definition operationAnswer (provider : Async.Provider)
    (operation : WaitingRoom.Operation) (uuid : string) : Sdk.CallResult :=
  match operation with
  | WaitingRoom.moveOperation => provider 0 (Async.moveToWaitingRoom uuid)
  | WaitingRoom.admitOperation => provider 0 (Async.admitFromWaitingRoom uuid)
  end.

(** The result of an operation that used up its retries. *)
Definition exhausted (uuid : string) : Op.OperationResult :=
  {| Op.participantUUID := uuid; Op.success := false;
     Op.error := Some "busy"; Op.retryCount := WaitingRoom.MAX_RETRIES |}.

(** The calls of a retried provider call whose first [failures] attempts
    fail, from attempt number [attempt] on: each failure is followed by a
    pause of [baseDelay * 3 ^ attempt], and the last call by none. *)
Fixpoint scheduleFrom (call : Async.Call) (baseDelay : Z) (attempt failures : nat)
  : list Async.Call :=
  match failures with
  | 0 => [call]
  | S failures' =>
      call :: Async.sleep (baseDelay * 3 ^ Z.of_nat attempt)
           :: scheduleFrom call baseDelay (S attempt) failures'
  end.

Definition schedule (call : Async.Call) (baseDelay : Z) (failures : nat)
  : list Async.Call :=
  scheduleFrom call baseDelay 0 failures.

(** The error an attempt throws for an answer that reports no success. *)
Definition thrownFor (answer : Sdk.CallResult) (fallback : string) : Async.Thrown :=
  Async.ErrorObject (Js.orElse (Sdk.error answer) fallback).

(** ** Store actions *)

(** The item in [localStorage] reloads to the persisted part of the state:
    a page reload would start from the rounds the store holds now. *)
Definition inSync (w : Store.World) : Prop :=
  (Store.loadPersistedState w).1 = Some (modelOf (Store.state w)).

(** The actions of the store a component can call, but for [resetState]. *)
Inductive Action :=
| SetParsedRounds (rounds : gmap string (gset string))
| SetEmailToName (emailToName : gmap string string)
| SetSelectedRoundId (roundId : option string)
| SetIsProcessing (isProcessing : bool)
| SetFallbackMode (enabled : bool)
| AddActionLog (entry : Store.Log.Fields)
| StartRound (roundId : string)
| EndRound (roundId : string)
| AddMovedParticipant (roundId participantUUID : string)
| UpdateRoundStats (roundId : string) (movedCount admittedCount : Z)
| ClearRound (roundId : string)
| SetCachedParticipants (participants : list ParticipantWithEmail)
| ClearCachedParticipants
| UpdateParticipantEmail (participantUUID email : string)
| SetEmailOverride (participantUUID email : string)
| RemoveEmailOverride (participantUUID : string).

Definition perform (a : Action) : Store.Cmd unit :=
  match a with
  | SetParsedRounds rounds => Store.setParsedRounds rounds
  | SetEmailToName emailToName => Store.setEmailToName emailToName
  | SetSelectedRoundId roundId => Store.setSelectedRoundId roundId
  | SetIsProcessing isProcessing => Store.setIsProcessing isProcessing
  | SetFallbackMode enabled => Store.setFallbackMode enabled
  | AddActionLog entry => Store.addActionLogEntry entry
  | StartRound roundId => Store.startRound roundId
  | EndRound roundId => Store.endRound roundId
  | AddMovedParticipant roundId participantUUID =>
      Store.addMovedParticipant roundId participantUUID
  | UpdateRoundStats roundId movedCount admittedCount =>
      Store.updateRoundStats roundId movedCount admittedCount
  | ClearRound roundId => Store.clearRound roundId
  | SetCachedParticipants participants => Store.setCachedParticipants participants
  | ClearCachedParticipants => Store.clearCachedParticipants
  | UpdateParticipantEmail participantUUID email =>
      Store.updateParticipantEmail participantUUID email
  | SetEmailOverride participantUUID email => Store.setEmailOverride participantUUID email
  | RemoveEmailOverride participantUUID => Store.removeEmailOverride participantUUID
  end.

Definition performAll (actions : list Action) (w : Store.World) : Store.World :=
  foldl (λ w a, Store.exec (perform a) w) w actions.

(** The action creates no dictionary entry under the property name
    [__proto__]. *)
Definition admissible (a : Action) : Prop :=
  match a with
  | SetParsedRounds rounds => rounds !! "__proto__" = None
  | SetEmailToName emailToName => emailToName !! "__proto__" = None
  | StartRound roundId | AddMovedParticipant roundId _ => roundId ≠ "__proto__"
  | _ => True
  end.

(** The actions that call [saveState] whatever the state is. *)
Definition saves (a : Action) : bool :=
  match a with
  | SetParsedRounds _ | SetEmailToName _ | SetSelectedRoundId _
  | StartRound _ | AddMovedParticipant _ _ | ClearRound _ => true
  | _ => false
  end.

(** The record [addMovedParticipant] creates for a round that has none. *)
Definition firstMoved (roundId participantUUID : string) (now : Z) : Store.RoundState :=
  {| Store.roundId := roundId; Store.movedParticipants := {[participantUUID]};
     Store.startedAt := Some now; Store.endedAt := None;
     Store.movedCount := 0; Store.admittedCount := 0 |}.

(** A world whose stored item was written by [setSelectedRoundId]. *)
Definition savedWorld : Store.World :=
  Store.exec (Store.setSelectedRoundId (Some "r1")) sampleWorld.

(** ** Breakout rooms *)

(** The calls of an assignment whose first [failures] attempts fail, from
    the retry count [retryCount] on: each failure is followed by a pause of
    [RETRY_DELAY_MS * (retryCount + 1)], and the last call by none. *)
Fixpoint assignSchedule (call : Breakout.Call) (retryCount failures : nat)
  : list Breakout.Call :=
  match failures with
  | 0 => [call]
  | S failures' =>
      call :: Breakout.delay (BreakoutRoom.RETRY_DELAY_MS * (Z.of_nat retryCount + 1))
           :: assignSchedule call (S retryCount) failures'
  end.

(** The calls the assignment loop may await for the room [breakoutRoomId]:
    assignments to that room, pauses and progress reports. *)
Definition assignmentCall (breakoutRoomId : string) (c : Breakout.Call) : Prop :=
  match c with
  | Breakout.assignParticipantToBreakoutRoom room _ => room = breakoutRoomId
  | Breakout.delay _ | Breakout.onProgress _ _ => True
  | _ => False
  end.

Definition isProgress (c : Breakout.Call) : bool :=
  match c with Breakout.onProgress _ _ => true | _ => false end.

Definition isAssignment (c : Breakout.Call) : bool :=
  match c with Breakout.assignParticipantToBreakoutRoom _ _ => true | _ => false end.

Definition isPoll (c : Breakout.Call) : bool :=
  match c with Breakout.getBreakoutRoomList => true | _ => false end.

(** No breakout rooms are open when the operation starts: the first answer
    of the meeting, to [getBreakoutRoomList], does not report the state
    open. *)
Definition noRoomsOpen (provider : Breakout.Provider) : Prop :=
  Breakout.listed (provider 0 Breakout.getBreakoutRoomList)
  && bool_decide (Breakout.state (provider 0 Breakout.getBreakoutRoomList) = Some "open")
  = false.

(** The room the meeting creates for [roundId], when it creates one. *)
Definition createCall (roundId : string) : Breakout.Call :=
  Breakout.createBreakoutRooms 1 "manually" [("Round " ++ roundId)%string].

Definition createdRoom (answer : Breakout.CreateResult) : option string :=
  match (if Breakout.created answer then Breakout.rooms answer else None) with
  | Some response =>
      if Js.truthyOpt (BreakoutRoom.firstRoomId response)
      then BreakoutRoom.firstRoomId response else None
  | None => None
  end.

(** The error [sendParticipantsToBreakoutRooms] reports for every
    participant when no room was created. *)
Definition createFailure (answer : Breakout.CreateResult) : string :=
  match (if Breakout.created answer then Breakout.rooms answer else None) with
  | Some _ => "No breakout room ID returned"
  | None => Js.orElse (Breakout.createError answer) "Failed to create breakout rooms"
  end.

(** A meeting without open rooms that creates the room "room-1"; the
    assignment awaited after [n] earlier calls fails when [failing n]. *)
Definition meeting (failing : nat → bool) : Breakout.Provider :=
  λ n c,
    match c with
    | Breakout.getBreakoutRoomList =>
        {| Breakout.listed := true; Breakout.state := Some "closed" |}
    | Breakout.createBreakoutRooms _ _ _ =>
        {| Breakout.created := true;
           Breakout.rooms :=
             Some {| Breakout.createdRooms :=
                       Some [{| Breakout.breakoutRoomId := Some "room-1" |}] |};
           Breakout.createError := None |}
    | Breakout.assignParticipantToBreakoutRoom _ _ =>
        if failing n then failed "busy" else succeeded
    | Breakout.closeBreakoutRooms | Breakout.openBreakoutRooms
    | Breakout.configureBreakoutRooms _ _ _ => succeeded
    | Breakout.Date_now => (Z.of_nat n * 400)%Z
    | Breakout.delay _ | Breakout.onProgress _ _ => tt
    end.

(** A result as [assignParticipantWithRetry] gives them: the retry count
    is within the budget; a failure has used the whole budget and names an
    error, a success names none. *)
Definition assignmentResult (x : Op.OperationResult) : Prop :=
  Op.retryCount x ≤ BreakoutRoom.MAX_RETRIES ∧
  (Op.success x = false →
     Op.retryCount x = BreakoutRoom.MAX_RETRIES ∧ is_Some (Op.error x)) ∧
  (Op.success x = true → Op.error x = None).

(** The assignment calls behind a list of results: for each result in
    turn, one call and one more per retry. *)
Definition assignmentsOf (breakoutRoomId : string) (results : list Op.OperationResult)
  : list Breakout.Call :=
  results ≫= λ x,
    replicate (S (Op.retryCount x))
      (Breakout.assignParticipantToBreakoutRoom breakoutRoomId (Op.participantUUID x)).

(** The progress reports for [n] participants out of [total], after
    [completed] earlier ones. *)
Definition progressReports (completed n total : nat) : list Breakout.Call :=
  (λ m, Breakout.onProgress m total) <$> seq (S completed) n.

(** The results when no room could be created. *)
Definition allFailed (participants : list ParticipantWithEmail) (message : string)
  : list Op.OperationResult :=
  (λ p, {| Op.participantUUID := participantUUID p; Op.success := false;
           Op.error := Some message; Op.retryCount := 0 |}) <$> participants.

(** The clock advances by at least 400 ms from one reading of the wait
    loop to the next, which a [delay(400)] separates: the loop reads it
    after 1, 4, 7, ... earlier calls, the first call being the reading of
    [start]. *)
Definition clockAdvances (provider : Breakout.Provider) : Prop :=
  ∀ i : nat,
    (provider 0%nat Breakout.Date_now + 400 * Z.of_nat i
     ≤ provider (1 + 3 * i)%nat Breakout.Date_now)%Z.

(** A meeting whose rooms stay open, and whose clock advances by 400 ms
    with every third call. *)
Definition stuckMeeting : Breakout.Provider :=
  λ n c,
    match c with
    | Breakout.getBreakoutRoomList =>
        {| Breakout.listed := true; Breakout.state := Some "open" |}
    | Breakout.Date_now => (Z.of_nat (n / 3) * 400)%Z
    | other => meeting (λ _, false) n other
    end.

(** ** Start of a round *)

(** A round state with another moved set. *)
Definition withMoved (moved : gset string) (roundState : Store.RoundState)
  : Store.RoundState :=
  {| Store.roundId := Store.roundId roundState;
     Store.movedParticipants := moved;
     Store.startedAt := Store.startedAt roundState;
     Store.endedAt := Store.endedAt roundState;
     Store.movedCount := Store.movedCount roundState;
     Store.admittedCount := Store.admittedCount roundState |}.

(** The participants a list of results reports as moved, and their
    number. *)
Definition movedBy (results : list Op.OperationResult) : gset string :=
  list_to_set (Op.participantUUID <$> filter (λ x, Op.success x = true) results).

Definition successes (results : list Op.OperationResult) : Z :=
  Z.of_nat (length (filter (λ x, Op.success x = true) results)).

(** What a log entry says, its identifier and timestamp apart. *)
Definition logView (entry : Store.Log.ActionLogEntry)
  : Store.Log.ActionType * option string * option string
    * Store.Log.ActionStatus * option string :=
  (Store.Log.type entry, Store.Log.roundId entry, Store.Log.participantUUID entry,
   Store.Log.status entry, Store.Log.error entry).

(** What the entry for a result of the round [roundId] says. *)
Definition movedView (roundId : string) (result : Op.OperationResult)
  : Store.Log.ActionType * option string * option string
    * Store.Log.ActionStatus * option string :=
  (Store.Log.move_to_waiting_room, Some roundId, Some (Op.participantUUID result),
   if Op.success result then Store.Log.success else Store.Log.failed,
   if Op.success result then None else Op.error result).

(** ** Panels *)

(** A participant whose fetched email starts with a blank. *)
Definition blankAlice : ParticipantWithEmail :=
  {| participantUUID := "p1"; displayName := "Alice"; role := None;
     email := Some " alice@example.com" |}.

(** A world with a participant cache: the participants of Scenario C. *)
Definition cachedWorld : Store.World :=
  Store.exec (Store.setCachedParticipants [scenarioC_p1; scenarioC_p2]) sampleWorld.

(** ** Rows of a file *)

(** The union of two round maps: round by round, the union of the
    emails. *)
Definition mergeRounds (a b : gmap string (gset string)) : gmap string (gset string) :=
  union_with (λ x y, Some (x ∪ y)) a b.

(** The reader's results with the data rows in another order. *)
Definition withRows (results : Csv.PapaResults) (rows : list Csv.Row) : Csv.PapaResults :=
  {| Csv.data := rows; Csv.fields := Csv.fields results; Csv.errors := Csv.errors results |}.

(** Two rows of a row-based file that register a name for the same email. *)
Definition namedRows : list Csv.Row :=
  [ [("round_id", "1"); ("email", "alice@example.com"); ("name", "Alice")];
    [("round_id", "2"); ("email", "Alice@Example.com"); ("name", "Alice B.")] ].

(** ** Proof automation *)

(** Unfolds the commands of the store down to functions on the world. *)
Ltac run_store :=
  unfold Store.exec, Store.startRound, Store.endRound, Store.addMovedParticipant,
    Store.addActionLog, Store.getMovedParticipants, Store.saveState,
    Store.loadPersistedState, Store.get, Store.set, Store.Date_now,
    Store.generateUUID, Store.setItem, Store.getItem;
  unfold mbind, Store.cmd_bind, mret, Store.cmd_ret.

(** Unfolds every action of the store down to functions on the world. *)
Ltac run_actions :=
  unfold performAll, perform, Store.setParsedRounds, Store.setEmailToName,
    Store.setSelectedRoundId, Store.setIsProcessing, Store.setFallbackMode,
    Store.addActionLogEntry, Store.updateRoundStats, Store.clearRound,
    Store.setCachedParticipants, Store.clearCachedParticipants,
    Store.updateParticipantEmail, Store.setEmailOverride, Store.removeEmailOverride,
    Store.resetState, Store.createInitialState, Store.removeItem;
  run_store.


(* ===================================================================== *)
(** * The email pattern                                                   *)
(* ===================================================================== *)

Section EmailPattern.
Local Open Scope string_scope.

Lemma append_cons (x : ascii) (a b : string) :
  String x a ++ b = String x (a ++ b).
Proof. reflexivity. Qed.

Lemma append_empty (b : string) : EmptyString ++ b = b.
Proof. reflexivity. Qed.

Lemma allEmailChars_app (a b : string) :
  allEmailChars (a ++ b) = allEmailChars a && allEmailChars b.
Proof.
  induction a as [|x a IH]; [reflexivity|].
  rewrite append_cons. cbn. rewrite IH. apply andb_assoc.
Qed.

Lemma dotThenMore_spec (s : string) :
  dotThenMore s = true ↔ ∃ b c, s = b ++ "." ++ c ∧ c ≠ EmptyString.
Proof.
  induction s as [|x s IH]; cbn.
  - split; [discriminate|]. intros (b & c & Hs & _). destruct b; discriminate.
  - rewrite orb_true_iff, andb_true_iff, IH. split.
    + intros [[Hx Hs]|(b & c & -> & Hc)].
      * apply Ascii.eqb_eq in Hx as ->. exists EmptyString, s.
        split; [reflexivity|]. destruct s; [discriminate|congruence].
      * exists (String x b), c. split; [reflexivity|assumption].
    + intros (b & c & Hs & Hc). destruct b as [|y b]; rewrite ?append_cons, ?append_empty in Hs.
      * injection Hs as -> ->. left. split; [reflexivity|].
        destruct c; [congruence|reflexivity].
      * injection Hs as -> ->. right. eauto.
Qed.

Lemma domainPart_spec (d : string) :
  domainPart d = true ↔
  ∃ b c, d = b ++ "." ++ c ∧ b ≠ EmptyString ∧ c ≠ EmptyString ∧
         allEmailChars b = true ∧ allEmailChars c = true.
Proof.
  destruct d as [|x r]; cbn.
  - split; [discriminate|]. intros (b & c & Hd & _). destruct b; discriminate.
  - rewrite !andb_true_iff, dotThenMore_spec. split.
    + intros [[Hx Hr] (b & c & -> & Hc)].
      rewrite allEmailChars_app in Hr. apply andb_true_iff in Hr as [Hb Hdc].
      change ("." ++ c) with (String "." c) in Hdc. cbn in Hdc.
      exists (String x b), c. split; [reflexivity|]. split; [discriminate|].
      split; [assumption|]. split; [|assumption].
      cbn. rewrite Hx, Hb. reflexivity.
    + intros (b & c & Hd & Hb & Hc & Hbs & Hcs).
      destruct b as [|y b]; [congruence|]. rewrite append_cons in Hd.
      injection Hd as -> ->.
      cbn in Hbs. apply andb_true_iff in Hbs as [Hy Hbs].
      split; [split; [assumption|]|eauto].
      rewrite allEmailChars_app, Hbs. change ("." ++ c) with (String "." c).
      cbn. exact Hcs.
Qed.

Lemma localPart_spec (s : string) :
  ∀ seen, localPart seen s = true ↔
    ∃ a d, s = a ++ "@" ++ d ∧ (seen = true ∨ a ≠ EmptyString) ∧
           allEmailChars a = true ∧ domainPart d = true.
Proof.
  induction s as [|x s IH]; intros seen; cbn.
  - split; [discriminate|]. intros (a & d & Hs & _). destruct a; discriminate.
  - destruct (Ascii.eqb x "@") eqn:Hx.
    + apply Ascii.eqb_eq in Hx as ->. rewrite andb_true_iff. split.
      * intros [-> Hd]. exists EmptyString, s. auto.
      * intros (a & d & Hs & Hseen & Ha & Hd). destruct a as [|y a]; rewrite ?append_cons, ?append_empty in Hs.
        -- injection Hs as ->. destruct Hseen; [auto|congruence].
        -- injection Hs as <- ->. cbn in Ha. discriminate.
    + rewrite andb_true_iff, IH. split.
      * intros [Hc (a & d & -> & _ & Ha & Hd)].
        exists (String x a), d. rewrite append_cons. cbn. rewrite Hc, Ha.
        repeat split; try assumption. right. discriminate.
      * intros (a & d & Hs & _ & Ha & Hd). destruct a as [|y a]; rewrite ?append_cons, ?append_empty in Hs.
        -- injection Hs as -> ->. cbn in Hx. discriminate.
        -- injection Hs as -> ->. cbn in Ha.
           apply andb_true_iff in Ha as [Hy Ha]. split; [assumption|].
           exists a, d. auto.
Qed.

(** X1.  [isValidEmail] accepts the strings the pattern
    [^[^\s@]+@[^\s@]+\.[^\s@]+$] matches: a non-empty local part, an at
    sign, and a domain with a dot between two non-empty parts, none of the
    three parts holding white space or an at sign. *)
Lemma isValidEmail_pattern (email : string) :
  isValidEmail email = true ↔
  ∃ a b c, email = a ++ "@" ++ b ++ "." ++ c ∧
           a ≠ EmptyString ∧ b ≠ EmptyString ∧ c ≠ EmptyString ∧
           allEmailChars a = true ∧ allEmailChars b = true ∧
           allEmailChars c = true.
Proof.
  unfold isValidEmail. rewrite localPart_spec. split.
  - intros (a & d & -> & [Hseen|Ha] & Has & Hd); [discriminate|].
    apply domainPart_spec in Hd as (b & c & -> & Hb & Hc & Hbs & Hcs).
    exists a, b, c. auto 10.
  - intros (a & b & c & -> & Ha & Hb & Hc & Has & Hbs & Hcs).
    exists a, (b ++ "." ++ c). repeat split; auto.
    apply domainPart_spec. exists b, c. auto.
Qed.

End EmailPattern.

(* ===================================================================== *)
(** * Properties of the participant matcher                               *)
(* ===================================================================== *)

Section Matcher.
Variable conflictEmails : gset string.

(** The loop appends to its accumulators what three filters select. *)
Lemma matchLoop_filters participants matched foundEmails noEmail :
  matchLoop conflictEmails participants matched foundEmails noEmail =
    (matched ++ filter (isHit conflictEmails) participants,
     list_to_set (lookupKey <$> filter (isHit conflictEmails) participants) ∪ foundEmails,
     noEmail ++ filter lacksEmail participants).
Proof.
  revert matched foundEmails noEmail.
  induction participants as [|p rest IH]; intros matched foundEmails noEmail.
  - cbn. rewrite !app_nil_r, (left_id_L ∅ (∪)). reflexivity.
  - cbn [matchLoop]. destruct (Js.truthyOpt (email p)) eqn:Hp; cbn [negb].
    + rewrite (filter_cons_False lacksEmail) by (unfold lacksEmail; congruence).
      fold (lookupKey p). destruct (decide (lookupKey p ∈ conflictEmails)) as [Hin|Hout].
      * rewrite IH, (filter_cons_True (isHit conflictEmails)) by (split; assumption).
        rewrite <- app_assoc. cbn.
        f_equal. f_equal. apply set_eq. intros x. rewrite !elem_of_union. tauto.
      * rewrite IH, (filter_cons_False (isHit conflictEmails)) by (intros [_ ?]; contradiction).
        reflexivity.
    + rewrite IH, (filter_cons_True lacksEmail) by exact Hp.
      rewrite (filter_cons_False (isHit conflictEmails)) by (intros [? _]; congruence).
      rewrite <- app_assoc. reflexivity.
Qed.

Lemma matched_filter participants :
  matched (matchParticipants conflictEmails participants) = filter (isHit conflictEmails) participants.
Proof. unfold matchParticipants. rewrite matchLoop_filters. reflexivity. Qed.

Lemma noEmail_filter participants :
  noEmail (matchParticipants conflictEmails participants) = filter lacksEmail participants.
Proof. unfold matchParticipants. rewrite matchLoop_filters. reflexivity. Qed.

Lemma notFound_filter participants :
  notFound (matchParticipants conflictEmails participants) =
    filter (λ e, e ∉ (list_to_set (lookupKey <$> filter (isHit conflictEmails) participants) : gset string))
      (elements conflictEmails).
Proof.
  unfold matchParticipants. rewrite matchLoop_filters. cbn.
  rewrite (right_id_L ∅ (∪)). reflexivity.
Qed.

Lemma elem_of_foundEmails participants e :
  e ∈ (list_to_set (lookupKey <$> filter (isHit conflictEmails) participants) : gset string) ↔
  ∃ p, p ∈ participants ∧ isHit conflictEmails p ∧ lookupKey p = e.
Proof.
  rewrite elem_of_list_to_set, list_elem_of_fmap. split.
  - intros (p & -> & Hp). apply list_elem_of_filter in Hp as [? ?]. eauto.
  - intros (p & Hp & Hhit & <-). exists p. split; [reflexivity|].
    apply list_elem_of_filter. auto.
Qed.

End Matcher.

(** C7.  [matchParticipants] puts into [noEmail] exactly the participants
    without an email (none of them is matched), into [matched] exactly the
    participants whose normalized email is in the conflict set, and into
    [notFound] exactly the conflict emails that no participant's normalized
    email equals.  Scenario C: the conflict set of alice@example.com against
    p1 (email Alice@Example.com) and p2 (no email) gives matched = p1,
    notFound empty, noEmail = p2. *)
Theorem matchParticipants_partition :
  (∀ (conflictEmails : gset string) (participants : list ParticipantWithEmail),
     let r := matchParticipants conflictEmails participants in
     (∀ p, p ∈ noEmail r ↔ p ∈ participants ∧ Js.truthyOpt (email p) = false) ∧
     (∀ p, p ∈ participants → email p = None → p ∈ noEmail r ∧ p ∉ matched r) ∧
     (∀ p, p ∈ matched r ↔
           p ∈ participants ∧ Js.truthyOpt (email p) = true ∧
           normalizeEmail (Js.toStr (email p)) ∈ conflictEmails) ∧
     (∀ e, e ∈ notFound r ↔
           e ∈ conflictEmails ∧
           ¬ ∃ p, p ∈ participants ∧ Js.truthyOpt (email p) = true ∧
                  normalizeEmail (Js.toStr (email p)) = e)) ∧
  matchParticipants {[ "alice@example.com" ]} [scenarioC_p1; scenarioC_p2] =
    {| matched := [scenarioC_p1]; notFound := []; noEmail := [scenarioC_p2] |}.
Proof.
  split.
  - intros C ps r. subst r.
    rewrite noEmail_filter, matched_filter, notFound_filter.
    split; [|split; [|split]].
    + intros p. rewrite list_elem_of_filter. unfold lacksEmail. tauto.
    + intros p Hp Hnone. rewrite !list_elem_of_filter.
      unfold lacksEmail, isHit. rewrite Hnone. cbn. split; [auto|].
      intros [[? _] _]. discriminate.
    + intros p. rewrite list_elem_of_filter. unfold isHit, lookupKey. tauto.
    + intros e. rewrite list_elem_of_filter, elem_of_elements, elem_of_foundEmails.
      unfold isHit, lookupKey. split.
      * intros [Hnot Hin]. split; [assumption|].
        intros (p & Hp & Ht & He). apply Hnot. exists p.
        rewrite He. auto.
      * intros [Hin Hnot]. split; [|assumption].
        intros (p & Hp & [Ht _] & He). apply Hnot. eauto.
  - vm_compute. reflexivity.
Qed.

(** C8.  Matching is insensitive to the order of the participants: for two
    participant lists that are permutations of one another the matched and
    the no-email participants are the same up to order, the not-found emails
    are the same, and so the three results hold the same sets of participant
    identifiers and emails. *)
Theorem matchParticipants_permutation (conflictEmails : gset string)
    (participants participants' : list ParticipantWithEmail) :
  participants ≡ₚ participants' →
  let r := matchParticipants conflictEmails participants in
  let r' := matchParticipants conflictEmails participants' in
  (matched r ≡ₚ matched r' ∧ noEmail r ≡ₚ noEmail r' ∧ notFound r = notFound r') ∧
  (list_to_set (participantUUID <$> matched r) : gset string)
    = list_to_set (participantUUID <$> matched r') ∧
  (list_to_set (notFound r) : gset string) = list_to_set (notFound r') ∧
  (list_to_set (participantUUID <$> noEmail r) : gset string)
    = list_to_set (participantUUID <$> noEmail r').
Proof.
  intros Hperm r r'. subst r r'.
  rewrite !matched_filter, !noEmail_filter, !notFound_filter.
  assert (Hm : filter (isHit conflictEmails) participants
                 ≡ₚ filter (isHit conflictEmails) participants')
    by (rewrite Hperm; reflexivity).
  assert (Hn : filter lacksEmail participants ≡ₚ filter lacksEmail participants')
    by (rewrite Hperm; reflexivity).
  assert (Hf : (list_to_set (lookupKey <$> filter (isHit conflictEmails) participants)
                  : gset string)
               = list_to_set (lookupKey <$> filter (isHit conflictEmails) participants'))
    by (rewrite Hm; reflexivity).
  rewrite Hf. repeat split; try assumption.
  - rewrite Hm. reflexivity.
  - rewrite Hn. reflexivity.
Qed.

Lemma matchParticipants_permutation_witness :
  let r := matchParticipants {[ "alice@example.com" ]} [scenarioC_p1; scenarioC_p2] in
  let r' := matchParticipants {[ "alice@example.com" ]} [scenarioC_p2; scenarioC_p1] in
  (matched r ≡ₚ matched r' ∧ noEmail r ≡ₚ noEmail r' ∧ notFound r = notFound r') ∧
  (list_to_set (participantUUID <$> matched r) : gset string)
    = list_to_set (participantUUID <$> matched r') ∧
  (list_to_set (notFound r) : gset string) = list_to_set (notFound r') ∧
  (list_to_set (participantUUID <$> noEmail r) : gset string)
    = list_to_set (participantUUID <$> noEmail r').
Proof.
  apply (matchParticipants_permutation {[ "alice@example.com" ]}
           [scenarioC_p1; scenarioC_p2] [scenarioC_p2; scenarioC_p1]).
  apply perm_swap.
Defined.

(* ===================================================================== *)
(** * Properties of the CSV parser                                        *)
(* ===================================================================== *)

Lemma plainReader_scenarioB : Csv.plainReader scenarioB_text = scenarioB_results.
Proof. vm_compute. reflexivity. Qed.

(** The three-column header of Scenario B satisfies the row-based test. *)
Lemma detectCSVFormat_scenarioB :
  Csv.detectCSVFormat ["email"; "round_1"; "round_2"] = Csv.row_based.
Proof. vm_compute. reflexivity. Qed.

(** The column-based parser itself reads the rows of Scenario B as the
    documentation describes. *)
Lemma parseColumnBased_scenarioB :
  Csv.rounds (Csv.parseColumnBased (Csv.data scenarioB_results)
                ["email"; "round_1"; "round_2"]) =
    {[ "round_1" := {[ "alice@example.com"; "bob@example.com" ]};
       "round_2" := {[ "bob@example.com" ]} ]}.
Proof. vm_compute. reflexivity. Qed.

(** C2.  On the text of Scenario B the parser succeeds, but with the format
    row-based: the header has three columns, one of them containing "round"
    and one "email".  The column round_1 is then read as the round
    identifier of each row, so the round map sends "1" to alice@example.com
    and "yes" to bob@example.com, and the column round_2 is ignored. *)
Theorem parseCSV_scenarioB (Papa_parse : string → Csv.PapaResults) :
  Papa_parse scenarioB_text = scenarioB_results →
  Csv.parseCSV Papa_parse scenarioB_text =
    {| Csv.success := true;
       Csv.parsed :=
         Some {| Csv.format := Csv.RowBased;
                 Csv.csvRounds := {[ "1" := {[ "alice@example.com" ]};
                                     "yes" := {[ "bob@example.com" ]} ]};
                 Csv.csvEmailToName := ∅ |};
       Csv.resultErrors := [];
       Csv.warnings := [];
       Csv.stats := {| Csv.totalRows := 2; Csv.roundsFound := 2;
                       Csv.uniqueEmails := 2 |} |}.
Proof.
  intros Hread. unfold Csv.parseCSV. rewrite Hread. vm_compute. reflexivity.
Qed.

Lemma parseCSV_scenarioB_witness :
  Csv.parseCSV Csv.plainReader scenarioB_text =
    {| Csv.success := true;
       Csv.parsed :=
         Some {| Csv.format := Csv.RowBased;
                 Csv.csvRounds := {[ "1" := {[ "alice@example.com" ]};
                                     "yes" := {[ "bob@example.com" ]} ]};
                 Csv.csvEmailToName := ∅ |};
       Csv.resultErrors := [];
       Csv.warnings := [];
       Csv.stats := {| Csv.totalRows := 2; Csv.roundsFound := 2;
                       Csv.uniqueEmails := 2 |} |}.
Proof.
  apply (parseCSV_scenarioB Csv.plainReader). vm_compute. reflexivity.
Defined.

(** The outcome of [complete] follows the three tests of its body. *)
Lemma complete_success (results : Csv.PapaResults) :
  Csv.success (Csv.complete results) =
    negb (bool_decide (Csv.data results = []))
    && negb (bool_decide (Csv.detectCSVFormat (Csv.headersOf results) = Csv.unknown))
    && negb (Nat.eqb (size (Csv.rounds
               (Csv.parseRows (Csv.detectCSVFormat (Csv.headersOf results))
                  (Csv.data results) (Csv.headersOf results)))) 0).
Proof.
  unfold Csv.complete.
  destruct (Csv.data results) as [|row rows] eqn:Hdata; [reflexivity|].
  rewrite bool_decide_eq_false_2 by discriminate.
  destruct (Csv.detectCSVFormat (Csv.headersOf results)) eqn:Hfmt; cbn [negb andb];
    try reflexivity;
    rewrite bool_decide_eq_false_2 by discriminate; cbn [negb andb];
    match goal with |- context [Nat.eqb ?n 0] => destruct (Nat.eqb n 0) end;
    reflexivity.
Qed.

(** ** Rows never remove a round *)

Lemma rowsLoop_app (step : nat → Csv.Row → Csv.Parsed → Csv.Parsed)
    (i : nat) (rows more : list Csv.Row) (acc : Csv.Parsed) :
  Csv.rowsLoop step i (rows ++ more) acc =
    Csv.rowsLoop step (i + length rows) more (Csv.rowsLoop step i rows acc).
Proof.
  revert i acc. induction rows as [|row rows IH]; intros i acc; cbn.
  - rewrite Nat.add_0_r. reflexivity.
  - rewrite IH. f_equal. lia.
Qed.

Lemma rowsLoop_keeps_rounds (step : nat → Csv.Row → Csv.Parsed → Csv.Parsed) :
  (∀ i row acc, dom (Csv.rounds acc) ⊆ dom (Csv.rounds (step i row acc))) →
  ∀ rows i acc, dom (Csv.rounds acc) ⊆ dom (Csv.rounds (Csv.rowsLoop step i rows acc)).
Proof.
  intros Hstep rows. induction rows as [|row rows IH]; intros i acc; cbn.
  - reflexivity.
  - etransitivity; [apply Hstep|apply IH].
Qed.

Lemma addToRound_keeps_rounds (roundId email : string) (rounds : gmap string (gset string)) :
  dom rounds ⊆ dom (Csv.addToRound roundId email rounds).
Proof. unfold Csv.addToRound. rewrite dom_insert. apply union_subseteq_r. Qed.

Lemma rowBasedStep_keeps_rounds (i : nat) (row : Csv.Row) (acc : Csv.Parsed) :
  dom (Csv.rounds acc) ⊆ dom (Csv.rounds (Csv.rowBasedStep i row acc)).
Proof.
  unfold Csv.rowBasedStep.
  repeat match goal with
         | |- context [match ?x with _ => _ end] => destruct x; cbn [Csv.rounds Csv.pushError Csv.pushWarning]
         end;
    try reflexivity; apply addToRound_keeps_rounds.
Qed.

Lemma markRounds_keeps_rounds (row : Csv.Row) (email : string) (roundColumns : list string)
    (rounds : gmap string (gset string)) :
  dom rounds ⊆ dom (Csv.markRounds row email roundColumns rounds).
Proof.
  revert rounds. induction roundColumns as [|roundCol rest IH]; intros rounds; cbn.
  - reflexivity.
  - etransitivity; [|apply IH].
    destruct (Csv.isConflict _); [apply addToRound_keeps_rounds|reflexivity].
Qed.

Lemma columnBasedStep_keeps_rounds emailKey nameKey roundColumns
    (i : nat) (row : Csv.Row) (acc : Csv.Parsed) :
  dom (Csv.rounds acc)
    ⊆ dom (Csv.rounds (Csv.columnBasedStep emailKey nameKey roundColumns i row acc)).
Proof.
  unfold Csv.columnBasedStep.
  destruct (negb (Js.truthy _)); [reflexivity|].
  destruct (negb (isValidEmail _)); [reflexivity|].
  cbn [Csv.rounds]. apply markRounds_keeps_rounds.
Qed.

(** More data rows under the same header cannot remove a round. *)
Lemma parseRows_keeps_rounds (detected : Csv.DetectedFormat) (rows more : list Csv.Row)
    (headers : list string) :
  dom (Csv.rounds (Csv.parseRows detected rows headers))
    ⊆ dom (Csv.rounds (Csv.parseRows detected (rows ++ more) headers)).
Proof.
  assert (Hcolumn : dom (Csv.rounds (Csv.parseColumnBased rows headers))
                      ⊆ dom (Csv.rounds (Csv.parseColumnBased (rows ++ more) headers))).
  { unfold Csv.parseColumnBased.
    destruct (find _ headers) as [emailKey|]; [|reflexivity].
    destruct (negb (Js.truthy emailKey)); [reflexivity|].
    destruct (List.filter _ headers) as [|roundCol roundColumns]; [reflexivity|].
    rewrite rowsLoop_app.
    apply rowsLoop_keeps_rounds. apply columnBasedStep_keeps_rounds. }
  destruct detected; cbn [Csv.parseRows]; try exact Hcolumn.
  unfold Csv.parseRowBased. rewrite rowsLoop_app.
  apply rowsLoop_keeps_rounds. apply rowBasedStep_keeps_rounds.
Qed.

(** C3.  [parseCSV] reports failure exactly when the reader returned no data
    row, or the header format is not detected, or the round map is empty
    after the rows were processed.  Skipped rows do not make it fail: on
    success it hands over their warnings, a parse that succeeds still
    succeeds when further rows, skipped or not, follow under the same header,
    and a text with a valid row and a skipped one succeeds with one
    warning. *)
Theorem parseCSV_fails_iff :
  (∀ (Papa_parse : string → Csv.PapaResults) (csvContent : string),
     let results := Papa_parse csvContent in
     let detected := Csv.detectCSVFormat (Csv.headersOf results) in
     let processed :=
       Csv.parseRows detected (Csv.data results) (Csv.headersOf results) in
     (Csv.success (Csv.parseCSV Papa_parse csvContent) = false ↔
        Csv.data results = [] ∨ detected = Csv.unknown ∨ Csv.rounds processed = ∅) ∧
     (Csv.success (Csv.parseCSV Papa_parse csvContent) = true →
        Csv.warnings (Csv.parseCSV Papa_parse csvContent) = Csv.parseWarnings processed)) ∧
  (∀ (results : Csv.PapaResults) (more : list Csv.Row),
     Csv.success (Csv.complete results) = true →
     Csv.success (Csv.complete (withMoreRows results more)) = true) ∧
  (Csv.success (Csv.parseCSV Csv.plainReader skippedRow_text) = true ∧
   length (Csv.warnings (Csv.parseCSV Csv.plainReader skippedRow_text)) = 1).
Proof.
  split; [|split].
  - intros Papa_parse csvContent results detected processed.
    unfold Csv.parseCSV. fold results. split.
    + rewrite complete_success. fold detected. fold processed.
      rewrite !andb_false_iff, !negb_false_iff, !bool_decide_eq_true, Nat.eqb_eq.
      rewrite map_size_empty_iff. tauto.
    + unfold Csv.complete. subst processed detected.
      destruct (Csv.data results) as [|row rows]; [discriminate|].
      destruct (Csv.detectCSVFormat (Csv.headersOf results)); try discriminate;
        match goal with |- context [Nat.eqb ?n 0] => destruct (Nat.eqb n 0) end;
        try discriminate; reflexivity.
  - intros results more. rewrite !complete_success.
    change (Csv.headersOf (withMoreRows results more)) with (Csv.headersOf results).
    change (Csv.data (withMoreRows results more)) with (Csv.data results ++ more).
    rewrite !andb_true_iff, !negb_true_iff, !bool_decide_eq_false, !Nat.eqb_neq.
    intros [[Hdata Hformat] Hrounds]. split; [split|].
    + intros Happ. apply app_eq_nil in Happ as [? _]. contradiction.
    + assumption.
    + intros Hsize. apply Hrounds. apply map_size_empty_iff.
      apply map_size_empty_iff in Hsize. apply dom_empty_iff_L.
      pose proof (parseRows_keeps_rounds (Csv.detectCSVFormat (Csv.headersOf results))
                    (Csv.data results) more (Csv.headersOf results)) as Hsub.
      rewrite Hsize, dom_empty_L in Hsub.
      apply set_eq. intros x. split; [apply Hsub|]. intros Hx.
      apply not_elem_of_empty in Hx. contradiction.
  - vm_compute. split; reflexivity.
Qed.

(* ===================================================================== *)
(** * Properties of the operation engine                                  *)
(* ===================================================================== *)

Section Promises.
Import Async.
Context {R : Type}.

Lemma runFrom_Always (P : R → Prop) (p : Promise R) provider awaited :
  Always P p → P (runFrom p provider awaited).1.
Proof.
  revert awaited. induction p as [r|c k IH]; intros awaited Hp; cbn in *.
  - exact Hp.
  - apply IH, Hp.
Qed.

Lemma runFrom_Awaits (Q : Call → Prop) (p : Promise R) provider awaited :
  Awaits Q p → Forall Q awaited → Forall Q (runFrom p provider awaited).2.
Proof.
  revert awaited. induction p as [r|c k IH]; intros awaited Hp Hawaited; cbn in *.
  - exact Hawaited.
  - destruct Hp as [Hc Hk]. apply IH; [apply Hk|].
    apply Forall_app. split; [assumption|]. constructor; [assumption|constructor].
Qed.

Lemma Always_intro (P : R → Prop) (p : Promise R) : (∀ r, P r) → Always P p.
Proof. intros HP. induction p as [r|c k IH]; cbn; auto. Qed.

Lemma Always_bind {A : Type} (P : R → Prop) (m : Promise A) (f : A → Promise R) :
  (∀ a, Always P (f a)) → Always P (m ≫= f).
Proof.
  intros Hf. induction m as [a|c k IH]; cbn.
  - apply Hf.
  - intros x. apply IH.
Qed.

Lemma Awaits_bind {A : Type} (Q : Call → Prop) (m : Promise A) (f : A → Promise R) :
  Awaits Q m → (∀ a, Awaits Q (f a)) → Awaits Q (m ≫= f).
Proof.
  intros Hm Hf. induction m as [a|c k IH]; cbn in *.
  - apply Hf.
  - destruct Hm as [Hc Hk]. split; [assumption|]. intros x. apply IH, Hk.
Qed.

(** Running [m] and then [f] on its value is running [m ≫= f]. *)
Lemma runFrom_bind {A : Type} (m : Promise A) (f : A → Promise R) provider awaited :
  runFrom (m ≫= f) provider awaited =
    runFrom (f (runFrom m provider awaited).1) provider (runFrom m provider awaited).2.
Proof.
  revert awaited. induction m as [a|c k IH]; intros awaited; cbn.
  - reflexivity.
  - apply IH.
Qed.

End Promises.

Section Retry.
Import Async.

(** [retryWithBackoff] awaits nothing but what [fn] awaits, and timers. *)
Lemma Awaits_retryLoop {T : Type} (Q : Call → Prop) (fn : Promise (Outcome T))
    maxRetries baseDelay remaining attempt lastError :
  Awaits Q fn → (∀ ms, Q (sleep ms)) →
  Awaits Q (Utils.retryLoop fn maxRetries baseDelay remaining attempt lastError).
Proof.
  intros Hfn Hsleep. revert attempt lastError.
  induction remaining as [|remaining IH]; intros attempt lastError;
    cbn -[Nat.ltb Z.mul Z.pow].
  - exact I.
  - apply Awaits_bind; [assumption|]. intros [t|error]; [exact I|].
    apply Awaits_bind; [|intros _; apply IH].
    destruct (Nat.ltb attempt maxRetries); cbn;
      [split; [apply Hsleep|intros; exact I]|exact I].
Qed.

Lemma Awaits_attempt (call : Call) result fallback :
  Awaits (ownCall call) (WaitingRoom.attempt call result fallback).
Proof.
  cbn. split; [left; reflexivity|]. intros x.
  destruct (negb (Sdk.success (result x))); exact I.
Qed.

Lemma Awaits_moveParticipant (p : ParticipantWithEmail) :
  Awaits (ownCall (moveToWaitingRoom (participantUUID p)))
    (WaitingRoom.moveParticipant p).
Proof.
  unfold WaitingRoom.moveParticipant. apply Awaits_bind.
  - apply Awaits_retryLoop; [apply Awaits_attempt|].
    intros ms. right. reflexivity.
  - intros [t|error]; exact I.
Qed.

Lemma Awaits_admitParticipant (waitingRoomUUIDs : gset string) (uuid : string) :
  Awaits (ownCall (admitFromWaitingRoom uuid))
    (WaitingRoom.admitParticipant waitingRoomUUIDs uuid).
Proof.
  unfold WaitingRoom.admitParticipant.
  destruct (negb (bool_decide (uuid ∈ waitingRoomUUIDs))); [exact I|].
  apply Awaits_bind.
  - apply Awaits_retryLoop; [apply Awaits_attempt|].
    intros ms. right. reflexivity.
  - intros [t|error]; exact I.
Qed.

Lemma Always_moveParticipant (p : ParticipantWithEmail) :
  Always (λ r, Op.participantUUID r = participantUUID p)
    (WaitingRoom.moveParticipant p).
Proof.
  unfold WaitingRoom.moveParticipant. apply Always_bind.
  intros [t|error]; reflexivity.
Qed.

Lemma Always_admitParticipant (waitingRoomUUIDs : gset string) (uuid : string) :
  Always (λ r, Op.participantUUID r = uuid)
    (WaitingRoom.admitParticipant waitingRoomUUIDs uuid).
Proof.
  unfold WaitingRoom.admitParticipant.
  destruct (negb (bool_decide (uuid ∈ waitingRoomUUIDs))); [reflexivity|].
  apply Always_bind. intros [t|error]; reflexivity.
Qed.

End Retry.

Section Batches.
Import Async.
Context {T R : Type}.

Lemma imap_take_drop {B : Type} (f : nat → T → B) (c i : nat) (l : list T) :
  imap (λ j, f (i + j)) (take c l) ++ imap (λ j, f (i + c + j)) (drop c l)
  = imap (λ j, f (i + j)) l.
Proof.
  destruct (le_lt_dec c (length l)) as [Hle|Hlt].
  - rewrite <- (take_drop c l) at 3. rewrite imap_app. f_equal.
    apply imap_ext. intros j x _. cbn. rewrite length_take, Nat.min_l by lia.
    f_equal. lia.
  - rewrite take_ge, drop_ge by lia. cbn. apply app_nil_r.
Qed.

Variable items : list T.
Variable processor : T → Promise R.
Variable concurrency : nat.
Variable providers : nat → Provider.
Hypothesis positive : 0 < concurrency.

(** With enough fuel the loop ends, having appended one result and one list
    of awaited calls per remaining item, in item order. *)
Lemma processBatchLoop_ends fuel i acc completed reported awaited :
  length items - i ≤ fuel →
  ∃ reported',
    Utils.processBatchLoop fuel items processor concurrency providers
      i acc completed reported awaited
    = Some {| Utils.results :=
                acc ++ imap (λ j item, (run (processor item) (providers (i + j))).1)
                         (drop i items);
              Utils.progress := reported';
              Utils.calls :=
                awaited ++ imap (λ j item, (run (processor item) (providers (i + j))).2)
                             (drop i items) |}.
Proof.
  revert i acc completed reported awaited.
  induction fuel as [|fuel IH]; intros i acc completed reported awaited Hfuel;
    cbn [Utils.processBatchLoop];
    destruct (Nat.ltb i (length items)) eqn:Hi.
  - apply Nat.ltb_lt in Hi. lia.
  - apply Nat.ltb_ge in Hi. rewrite drop_ge by assumption. cbn.
    rewrite !app_nil_r. eauto.
  - apply Nat.ltb_lt in Hi.
    destruct (IH (i + concurrency)
                (acc ++ (imap (λ j item, run (processor item) (providers (i + j)))
                           (Utils.slice items i (i + concurrency))).*1)
                (completed + length (Utils.slice items i (i + concurrency)))
                (reported ++ [(completed + length (Utils.slice items i (i + concurrency)),
                               length items)])
                (awaited ++ (imap (λ j item, run (processor item) (providers (i + j)))
                               (Utils.slice items i (i + concurrency))).*2))
      as [reported' Heq]; [lia|].
    exists reported'. rewrite Heq. unfold Utils.slice.
    replace (i + concurrency - i) with concurrency by lia.
    rewrite !fmap_imap, <- !app_assoc, <- drop_drop.
    f_equal. f_equal.
    + f_equal. apply (imap_take_drop (λ j item, (run (processor item) (providers j)).1)).
    + f_equal. apply (imap_take_drop (λ j item, (run (processor item) (providers j)).2)).
  - apply Nat.ltb_ge in Hi. rewrite drop_ge by assumption. cbn.
    rewrite !app_nil_r. eauto.
Qed.

Lemma processBatch_ends :
  ∃ r, Utils.processBatch items processor concurrency providers = Some r ∧
       Utils.results r = imap (λ j item, (run (processor item) (providers j)).1) items ∧
       Utils.calls r = imap (λ j item, (run (processor item) (providers j)).2) items.
Proof.
  unfold Utils.processBatch.
  destruct (processBatchLoop_ends (length items) 0 [] 0 [] []) as [reported Heq]; [lia|].
  rewrite Heq. eexists. split; [reflexivity|]. cbn. rewrite drop_0. split; reflexivity.
Qed.

End Batches.

Section RetryBudget.
Import Async.

Lemma providerCalls_app (awaited more : list Call) :
  providerCalls (awaited ++ more) = providerCalls awaited + providerCalls more.
Proof. unfold providerCalls. rewrite List.filter_app, length_app. reflexivity. Qed.

(** The provider call an operation retries, which is no timer. *)
Variable call : Call.
Variable result : Response call → Sdk.CallResult.
Variable fallback : string.
Variable provider : Provider.
Hypothesis provider_call : isTimer call = false.

Local Abbreviation fn := (WaitingRoom.attempt call result fallback).

(** The answer to the provider call number [n] reports success. *)
Local Abbreviation ok n := (Sdk.success (result (provider n call))).

Lemma providerCalls_call awaited :
  providerCalls (awaited ++ [call]) = S (providerCalls awaited).
Proof.
  rewrite providerCalls_app. unfold providerCalls at 2. cbn.
  rewrite provider_call. cbn. lia.
Qed.

Lemma runFrom_attempt awaited :
  runFrom fn provider awaited =
    (if ok (providerCalls awaited) then Fulfilled tt
     else Rejected (ErrorObject
            (Js.orElse (Sdk.error (result (provider (providerCalls awaited) call)))
               fallback)),
     awaited ++ [call]).
Proof.
  unfold WaitingRoom.attempt. cbn -[providerCalls].
  destruct (Sdk.success (result (provider (providerCalls awaited) call)));
    reflexivity.
Qed.

(** The pause between two attempts makes no provider call. *)
Lemma runFrom_pause (pause : bool) (ms : Z) awaited :
  providerCalls
    (runFrom (if pause then await (sleep ms) else Resolve tt) provider awaited).2
  = providerCalls awaited.
Proof.
  destruct pause; cbn -[providerCalls]; [|reflexivity].
  rewrite providerCalls_app. unfold providerCalls at 2. cbn. lia.
Qed.

(** [k] failures followed by a success, with [k] below the number of
    attempts left: the loop ends fulfilled after [k + 1] provider calls. *)
Lemma retryLoop_fulfilled maxRetries baseDelay (k : nat) :
  ∀ remaining attempt lastError awaited,
    k < remaining →
    (∀ i, i < k → ok (providerCalls awaited + i) = false) →
    ok (providerCalls awaited + k) = true →
    let r := runFrom (Utils.retryLoop fn maxRetries baseDelay remaining attempt lastError)
               provider awaited in
    r.1 = Fulfilled tt ∧ providerCalls r.2 = providerCalls awaited + S k.
Proof.
  induction k as [|k IH]; intros remaining attempt lastError awaited Hk Hfail Hok;
    (destruct remaining as [|remaining]; [lia|]);
    cbn [Utils.retryLoop]; rewrite runFrom_bind, runFrom_attempt; cbn [fst snd].
  - rewrite Nat.add_0_r in Hok. rewrite Hok. cbn [runFrom fst snd].
    rewrite providerCalls_call. split; [reflexivity|lia].
  - pose proof (Hfail 0 ltac:(lia)) as Hfirst. rewrite Nat.add_0_r in Hfirst.
    rewrite Hfirst. rewrite runFrom_bind.
    set (paused := runFrom _ provider (awaited ++ [call])).
    assert (Hpaused : providerCalls paused.2 = S (providerCalls awaited)).
    { subst paused. rewrite runFrom_pause. apply providerCalls_call. }
    destruct (IH remaining (S attempt)
                (ErrorObject (Js.orElse
                   (Sdk.error (result (provider (providerCalls awaited) call)))
                   fallback))
                paused.2) as [Hr Hcalls].
    + lia.
    + intros i Hi. rewrite Hpaused.
      replace (S (providerCalls awaited) + i) with (providerCalls awaited + S i) by lia.
      apply Hfail. lia.
    + rewrite Hpaused.
      replace (S (providerCalls awaited) + k) with (providerCalls awaited + S k) by lia.
      exact Hok.
    + split; [exact Hr|]. rewrite Hcalls, Hpaused. lia.
Qed.

(** Every attempt left fails: the loop ends rejected, with the error of the
    last attempt, after as many provider calls as attempts were left. *)
Lemma retryLoop_rejected maxRetries baseDelay :
  ∀ remaining attempt lastError awaited,
    (∀ i, i < remaining → ok (providerCalls awaited + i) = false) →
    let r := runFrom (Utils.retryLoop fn maxRetries baseDelay remaining attempt lastError)
               provider awaited in
    (0 < remaining → ∃ message, r.1 = Rejected (ErrorObject message)) ∧
    (remaining = 0 → r.1 = Rejected lastError) ∧
    providerCalls r.2 = providerCalls awaited + remaining.
Proof.
  induction remaining as [|remaining IH]; intros attempt lastError awaited Hfail;
    cbn [Utils.retryLoop].
  - cbn -[providerCalls]. split; [intros Hpos; inversion Hpos|].
    split; [reflexivity|lia].
  - rewrite runFrom_bind, runFrom_attempt. cbn [fst snd].
    pose proof (Hfail 0 ltac:(lia)) as Hfirst. rewrite Nat.add_0_r in Hfirst.
    rewrite Hfirst. rewrite runFrom_bind.
    set (paused := runFrom _ provider (awaited ++ [call])).
    assert (Hpaused : providerCalls paused.2 = S (providerCalls awaited)).
    { subst paused. rewrite runFrom_pause. apply providerCalls_call. }
    destruct (IH (S attempt)
                (ErrorObject (Js.orElse
                   (Sdk.error (result (provider (providerCalls awaited) call)))
                   fallback))
                paused.2) as (Hlast & Hnone & Hcalls).
    + intros i Hi. rewrite Hpaused.
      replace (S (providerCalls awaited) + i) with (providerCalls awaited + S i) by lia.
      apply Hfail. lia.
    + split; [|split; [discriminate|rewrite Hcalls, Hpaused; lia]].
      intros _. destruct remaining as [|remaining'].
      * rewrite Hnone by reflexivity. eauto.
      * apply Hlast. lia.
Qed.

End RetryBudget.

Section Operations.
Import Async.

(** A move whose provider call fails [k] times within the budget and then
    succeeds is reported as a success after [k + 1] provider calls, with a
    retry count of zero. *)
Lemma moveParticipant_fulfilled (p : ParticipantWithEmail) (provider : Provider) (k : nat) :
  k ≤ WaitingRoom.MAX_RETRIES →
  (∀ i, i < k →
     Sdk.success (provider i (moveToWaitingRoom (participantUUID p))) = false) →
  Sdk.success (provider k (moveToWaitingRoom (participantUUID p))) = true →
  (run (WaitingRoom.moveParticipant p) provider).1 =
    {| Op.participantUUID := participantUUID p; Op.success := true;
       Op.error := None; Op.retryCount := 0 |} ∧
  providerCalls (run (WaitingRoom.moveParticipant p) provider).2 = S k.
Proof.
  intros Hk Hfail Hok. unfold run, WaitingRoom.moveParticipant.
  rewrite runFrom_bind. unfold Utils.retryWithBackoff.
  destruct (retryLoop_fulfilled (moveToWaitingRoom (participantUUID p)) (λ x, x)
              "Failed to move participant" provider eq_refl
              WaitingRoom.MAX_RETRIES WaitingRoom.BASE_DELAY k
              (S WaitingRoom.MAX_RETRIES) 0 undefinedValue [])
    as [Hr Hcalls]; [lia|exact Hfail|exact Hok|].
  rewrite Hr. cbn [runFrom fst snd]. rewrite Hcalls. split; reflexivity.
Qed.

(** A move whose provider call fails on every attempt is reported as a
    failure with the whole budget as its retry count. *)
Lemma moveParticipant_rejected (p : ParticipantWithEmail) (provider : Provider) :
  (∀ i, i < S WaitingRoom.MAX_RETRIES →
     Sdk.success (provider i (moveToWaitingRoom (participantUUID p))) = false) →
  ∃ message,
    (run (WaitingRoom.moveParticipant p) provider).1 =
      {| Op.participantUUID := participantUUID p; Op.success := false;
         Op.error := Some message; Op.retryCount := WaitingRoom.MAX_RETRIES |}.
Proof.
  intros Hfail. unfold run, WaitingRoom.moveParticipant.
  rewrite runFrom_bind. unfold Utils.retryWithBackoff.
  destruct (retryLoop_rejected (moveToWaitingRoom (participantUUID p)) (λ x, x)
              "Failed to move participant" provider eq_refl
              WaitingRoom.MAX_RETRIES WaitingRoom.BASE_DELAY
              (S WaitingRoom.MAX_RETRIES) 0 undefinedValue [] Hfail)
    as [Hr _].
  destruct Hr as [message Hr]; [lia|]. rewrite Hr. cbn. eauto.
Qed.

Lemma admitParticipant_fulfilled (waitingRoomUUIDs : gset string) (uuid : string)
    (provider : Provider) (k : nat) :
  uuid ∈ waitingRoomUUIDs →
  k ≤ WaitingRoom.MAX_RETRIES →
  (∀ i, i < k → Sdk.success (provider i (admitFromWaitingRoom uuid)) = false) →
  Sdk.success (provider k (admitFromWaitingRoom uuid)) = true →
  (run (WaitingRoom.admitParticipant waitingRoomUUIDs uuid) provider).1 =
    {| Op.participantUUID := uuid; Op.success := true;
       Op.error := None; Op.retryCount := 0 |} ∧
  providerCalls (run (WaitingRoom.admitParticipant waitingRoomUUIDs uuid) provider).2
    = S k.
Proof.
  intros Hin Hk Hfail Hok. unfold run, WaitingRoom.admitParticipant.
  rewrite bool_decide_eq_true_2 by assumption. cbn [negb].
  rewrite runFrom_bind. unfold Utils.retryWithBackoff.
  destruct (retryLoop_fulfilled (admitFromWaitingRoom uuid) (λ x, x)
              "Failed to admit participant" provider eq_refl
              WaitingRoom.MAX_RETRIES WaitingRoom.BASE_DELAY k
              (S WaitingRoom.MAX_RETRIES) 0 undefinedValue [])
    as [Hr Hcalls]; [lia|exact Hfail|exact Hok|].
  rewrite Hr. cbn [runFrom fst snd]. rewrite Hcalls. split; reflexivity.
Qed.

Lemma admitParticipant_rejected (waitingRoomUUIDs : gset string) (uuid : string)
    (provider : Provider) :
  uuid ∈ waitingRoomUUIDs →
  (∀ i, i < S WaitingRoom.MAX_RETRIES →
     Sdk.success (provider i (admitFromWaitingRoom uuid)) = false) →
  ∃ message,
    (run (WaitingRoom.admitParticipant waitingRoomUUIDs uuid) provider).1 =
      {| Op.participantUUID := uuid; Op.success := false;
         Op.error := Some message; Op.retryCount := WaitingRoom.MAX_RETRIES |}.
Proof.
  intros Hin Hfail. unfold run, WaitingRoom.admitParticipant.
  rewrite bool_decide_eq_true_2 by assumption. cbn [negb].
  rewrite runFrom_bind. unfold Utils.retryWithBackoff.
  destruct (retryLoop_rejected (admitFromWaitingRoom uuid) (λ x, x)
              "Failed to admit participant" provider eq_refl
              WaitingRoom.MAX_RETRIES WaitingRoom.BASE_DELAY
              (S WaitingRoom.MAX_RETRIES) 0 undefinedValue [] Hfail)
    as [Hr _].
  destruct Hr as [message Hr]; [lia|]. rewrite Hr. cbn. eauto.
Qed.

(** An admit for an identifier outside the snapshot resolves at once. *)
Lemma admitParticipant_absent (waitingRoomUUIDs : gset string) (uuid : string)
    (provider : Provider) :
  uuid ∉ waitingRoomUUIDs →
  run (WaitingRoom.admitParticipant waitingRoomUUIDs uuid) provider =
    ({| Op.participantUUID := uuid; Op.success := false;
        Op.error := Some "Participant not in waiting room (may have left meeting)";
        Op.retryCount := 0 |}, []).
Proof.
  intros Hout. unfold run, WaitingRoom.admitParticipant.
  rewrite bool_decide_eq_false_2 by assumption. reflexivity.
Qed.

End Operations.

(** C1.  One failure of the provider followed by a success, for a move, and
    two failures followed by a success, for an admit: both operations are
    reported with success = true and retryCount = 0, although the calls
    awaited show the one and the two retries that were made. *)
Theorem retryCount_is_zero_after_retries :
  WaitingRoom.moveParticipantsToWaitingRoom [participant "p1"] (λ _, flaky 1 []) =
    Some {| Utils.results :=
              [ {| Op.participantUUID := "p1"; Op.success := true;
                   Op.error := None; Op.retryCount := 0 |} ];
            Utils.progress := [(1, 1)];
            Utils.calls :=
              [ [ Async.moveToWaitingRoom "p1"; Async.sleep 300;
                  Async.moveToWaitingRoom "p1" ] ] |} ∧
  WaitingRoom.admitParticipantsFromWaitingRoom ["p1"] (flaky 0 ["p1"]) (λ _, flaky 2 []) =
    Some {| WaitingRoom.ownCalls := [Async.getWaitingRoomParticipants];
            WaitingRoom.batch :=
              {| Utils.results :=
                   [ {| Op.participantUUID := "p1"; Op.success := true;
                        Op.error := None; Op.retryCount := 0 |} ];
                 Utils.progress := [(1, 1)];
                 Utils.calls :=
                   [ [ Async.admitFromWaitingRoom "p1"; Async.sleep 300;
                       Async.admitFromWaitingRoom "p1"; Async.sleep 900;
                       Async.admitFromWaitingRoom "p1" ] ] |} |}.
Proof. split; vm_compute; reflexivity. Qed.

(** Scenario D: seven participants, chunks of five, and a provider that fails
    the first call for the third participant.  The seven moves succeed,
    progress is reported after each of the two chunks, and the third result
    carries a retry count of 0 like the others. *)
Lemma scenarioD_run :
  ∃ r, WaitingRoom.moveParticipantsToWaitingRoom
         (participant <$> ["p1"; "p2"; "p3"; "p4"; "p5"; "p6"; "p7"])
         (λ j, if Nat.eqb j 2 then flaky 1 [] else flaky 0 []) = Some r ∧
       Utils.results r =
         (λ uuid, {| Op.participantUUID := uuid; Op.success := true;
                     Op.error := None; Op.retryCount := 0 |})
           <$> ["p1"; "p2"; "p3"; "p4"; "p5"; "p6"; "p7"] ∧
       Utils.progress r = [(5, 7); (7, 7)] ∧
       Utils.calls r !! 2 =
         Some [ Async.moveToWaitingRoom "p3"; Async.sleep 300;
                Async.moveToWaitingRoom "p3" ].
Proof. eexists. split; [vm_compute; reflexivity|]. repeat split. Qed.

(** C5.  In an admit batch the waiting-room membership is fetched once, by
    the first call of the function.  A target that is not in that snapshot is
    answered, at its position of the result array, by a failure with the
    reason "Participant not in waiting room (may have left meeting)" and a
    retry count of 0; its processor awaits no call, and no processor of the
    batch awaits an admit call for that identifier or a second fetch of the
    membership, whatever the provider would have answered. *)
Theorem admit_outside_snapshot_fails_fast (participantUUIDs : list string)
    (main : Async.Provider) (providers : nat → Async.Provider)
    (j : nat) (uuid : string) :
  participantUUIDs !! j = Some uuid →
  uuid ∉ WaitingRoom.snapshotUUIDs (main 0 Async.getWaitingRoomParticipants) →
  ∃ r, WaitingRoom.admitParticipantsFromWaitingRoom participantUUIDs main providers
         = Some r ∧
       WaitingRoom.ownCalls r = [Async.getWaitingRoomParticipants] ∧
       Utils.results (WaitingRoom.batch r) !! j =
         Some {| Op.participantUUID := uuid; Op.success := false;
                 Op.error := Some "Participant not in waiting room (may have left meeting)";
                 Op.retryCount := 0 |} ∧
       Utils.calls (WaitingRoom.batch r) !! j = Some [] ∧
       ∀ awaited, awaited ∈ Utils.calls (WaitingRoom.batch r) →
                  (Async.admitFromWaitingRoom uuid ∉ awaited) ∧
                  (Async.getWaitingRoomParticipants ∉ awaited).
Proof.
  intros Hj Hout. unfold WaitingRoom.admitParticipantsFromWaitingRoom.
  change (Async.run (Async.await Async.getWaitingRoomParticipants) main)
    with (main 0 Async.getWaitingRoomParticipants, [Async.getWaitingRoomParticipants]).
  cbv iota beta.
  set (snapshot := WaitingRoom.snapshotUUIDs (main 0 Async.getWaitingRoomParticipants)) in *.
  destruct (processBatch_ends participantUUIDs (WaitingRoom.admitParticipant snapshot)
              WaitingRoom.CONCURRENCY_LIMIT providers)
    as (batch & Hbatch & Hresults & Hcalls); [unfold WaitingRoom.CONCURRENCY_LIMIT; lia|].
  rewrite Hbatch. eexists. split; [reflexivity|]. cbn [WaitingRoom.ownCalls
    WaitingRoom.batch Utils.results Utils.calls app].
  rewrite Hresults, Hcalls, !list_lookup_imap, Hj. cbn [fmap option_fmap option_map].
  rewrite admitParticipant_absent by assumption.
  split; [reflexivity|]. split; [reflexivity|]. split; [reflexivity|].
  intros awaited Hawaited.
  apply list_elem_of_lookup in Hawaited as [i Hi].
  rewrite list_lookup_imap in Hi.
  destruct (participantUUIDs !! i) as [item|] eqn:Hitem; [|discriminate].
  cbn in Hi. injection Hi as <-.
  pose proof (runFrom_Awaits _ _ (providers i) [] (Awaits_admitParticipant snapshot item)
                ltac:(constructor)) as Hown.
  fold (Async.run (WaitingRoom.admitParticipant snapshot item) (providers i)) in Hown.
  rewrite Forall_forall in Hown. split; intros Hin.
  - destruct (decide (item = uuid)) as [->|Hne].
    + rewrite admitParticipant_absent in Hin by assumption. inversion Hin.
    + apply Hown in Hin as [Heq|Htimer]; [|discriminate]. congruence.
  - apply Hown in Hin as [Heq|Htimer]; discriminate.
Qed.

Lemma admit_outside_snapshot_fails_fast_witness :
  ∃ r, WaitingRoom.admitParticipantsFromWaitingRoom ["p1"; "p2"]
         (flaky 0 ["p1"]) (λ _, flaky 0 []) = Some r ∧
       WaitingRoom.ownCalls r = [Async.getWaitingRoomParticipants] ∧
       Utils.results (WaitingRoom.batch r) !! 1 =
         Some {| Op.participantUUID := "p2"; Op.success := false;
                 Op.error := Some "Participant not in waiting room (may have left meeting)";
                 Op.retryCount := 0 |} ∧
       Utils.calls (WaitingRoom.batch r) !! 1 = Some [] ∧
       ∀ awaited, awaited ∈ Utils.calls (WaitingRoom.batch r) →
                  (Async.admitFromWaitingRoom "p2" ∉ awaited) ∧
                  (Async.getWaitingRoomParticipants ∉ awaited).
Proof.
  apply (admit_outside_snapshot_fails_fast ["p1"; "p2"] (flaky 0 ["p1"])
           (λ _, flaky 0 []) 1 "p2").
  - reflexivity.
  - apply (bool_decide_unpack _). vm_compute. exact I.
Defined.

(** C10.  [processBatch] ends for every positive concurrency and returns one
    result per item, the result at each position being the one its processor
    resolved with for the item at that position.  The batched move and admit
    therefore return, whatever the provider answers, an array as long as
    their input whose participant identifiers are those of the input, in
    order. *)
Theorem batch_results_follow_input :
  (∀ (T R : Type) (items : list T) (processor : T → Async.Promise R)
     (concurrency : nat) (providers : nat → Async.Provider),
     0 < concurrency →
     ∃ r, Utils.processBatch items processor concurrency providers = Some r ∧
          length (Utils.results r) = length items ∧
          ∀ j, Utils.results r !! j =
               (λ item, (Async.run (processor item) (providers j)).1) <$> items !! j) ∧
  (∀ (participants : list ParticipantWithEmail) (providers : nat → Async.Provider),
     ∃ r, WaitingRoom.moveParticipantsToWaitingRoom participants providers = Some r ∧
          Op.participantUUID <$> Utils.results r = participantUUID <$> participants) ∧
  (∀ (participantUUIDs : list string) (main : Async.Provider)
     (providers : nat → Async.Provider),
     ∃ r, WaitingRoom.admitParticipantsFromWaitingRoom participantUUIDs main providers
            = Some r ∧
          Op.participantUUID <$> Utils.results (WaitingRoom.batch r) = participantUUIDs).
Proof.
  split; [|split].
  - intros T R items processor concurrency providers Hpos.
    destruct (processBatch_ends items processor concurrency providers Hpos)
      as (r & Hr & Hresults & _).
    exists r. split; [assumption|]. rewrite Hresults, length_imap.
    split; [reflexivity|]. intros j. apply list_lookup_imap.
  - intros participants providers. unfold WaitingRoom.moveParticipantsToWaitingRoom.
    destruct (processBatch_ends participants WaitingRoom.moveParticipant
                WaitingRoom.CONCURRENCY_LIMIT providers)
      as (r & Hr & Hresults & _); [unfold WaitingRoom.CONCURRENCY_LIMIT; lia|].
    rewrite Hr. eexists. split; [reflexivity|]. cbn [Utils.results app].
    rewrite Hresults. apply list_eq. intros j.
    rewrite !list_lookup_fmap, list_lookup_imap.
    destruct (participants !! j) as [p|]; [|reflexivity]. cbn. f_equal.
    apply (runFrom_Always (λ r, Op.participantUUID r = participantUUID p)),
      Always_moveParticipant.
  - intros participantUUIDs main providers.
    unfold WaitingRoom.admitParticipantsFromWaitingRoom.
    change (Async.run (Async.await Async.getWaitingRoomParticipants) main)
      with (main 0 Async.getWaitingRoomParticipants, [Async.getWaitingRoomParticipants]).
    cbv iota beta.
    set (snapshot := WaitingRoom.snapshotUUIDs _).
    destruct (processBatch_ends participantUUIDs (WaitingRoom.admitParticipant snapshot)
                WaitingRoom.CONCURRENCY_LIMIT providers)
      as (r & Hr & Hresults & _); [unfold WaitingRoom.CONCURRENCY_LIMIT; lia|].
    rewrite Hr. eexists. split; [reflexivity|].
    cbn [WaitingRoom.batch Utils.results app].
    rewrite Hresults. apply list_eq. intros j.
    rewrite !list_lookup_fmap, list_lookup_imap.
    destruct (participantUUIDs !! j) as [uuid|]; [|reflexivity]. cbn. f_equal.
    apply (runFrom_Always (λ r, Op.participantUUID r = uuid)),
      Always_admitParticipant.
Qed.

Lemma batch_results_follow_input_witness :
  0 < 2 ∧
  ∃ r, Utils.processBatch [participant "p1"; participant "p2"; participant "p3"]
         WaitingRoom.moveParticipant 2 (λ _, flaky 1 []) = Some r ∧
       length (Utils.results r) = 3 ∧
       ∀ j, Utils.results r !! j =
            (λ item, (Async.run (WaitingRoom.moveParticipant item) (flaky 1 [])).1)
              <$> [participant "p1"; participant "p2"; participant "p3"] !! j.
Proof.
  split; [lia|].
  apply (proj1 batch_results_follow_input ParticipantWithEmail Op.OperationResult
           [participant "p1"; participant "p2"; participant "p3"]
           WaitingRoom.moveParticipant 2 (λ _, flaky 1 [])).
  lia.
Defined.

(* ===================================================================== *)
(** * Properties of the round state tracker                               *)
(* ===================================================================== *)

Section Dictionaries.
Context {V W : Type}.

(** A pass that files [h k v] under every key [k] it does not skip. *)
Lemma foldl_entries_lookup (body : gmap string W → string * V → gmap string W)
    (skip : string → bool) (h : string → V → W) :
  (∀ acc kv, body acc kv = if skip kv.1 then acc else <[kv.1 := h kv.1 kv.2]> acc) →
  ∀ (l : list (string * V)) (acc : gmap string W) (k : string),
    NoDup l.*1 →
    foldl body acc l !! k =
      match (list_to_map l : gmap string V) !! k with
      | Some v => if skip k then acc !! k else Some (h k v)
      | None => acc !! k
      end.
Proof.
  intros Hbody l. induction l as [|[k0 v0] l IH]; intros acc k Hnodup.
  - cbn. rewrite lookup_empty. reflexivity.
  - cbn in Hnodup. apply NoDup_cons in Hnodup as [Hfresh Hnodup].
    cbn [foldl list_to_map foldr]. rewrite IH by assumption.
    rewrite Hbody. cbn [fst snd].
    destruct (decide (k0 = k)) as [->|Hne].
    + rewrite lookup_insert_eq.
      rewrite (not_elem_of_list_to_map_1 l k) by assumption.
      destruct (skip k); [reflexivity|]. apply lookup_insert_eq.
    + rewrite (lookup_insert_ne (list_to_map l)) by assumption.
      destruct (skip k0); [reflexivity|].
      rewrite lookup_insert_ne by assumption. reflexivity.
Qed.

Lemma forEach_lookup (m : gmap string V) (body : string → V → gmap string W → gmap string W)
    (skip : string → bool) (h : string → V → W) (k : string) :
  (∀ key v acc, body key v acc = if skip key then acc else <[key := h key v]> acc) →
  Store.forEach m body ∅ !! k =
    match m !! k with
    | Some v => if skip k then None else Some (h k v)
    | None => None
    end.
Proof.
  intros Hbody. unfold Store.forEach.
  rewrite (foldl_entries_lookup _ skip h).
  - rewrite list_to_map_to_list, lookup_empty. reflexivity.
  - intros acc [key v]. apply Hbody.
  - apply NoDup_fst_map_to_list.
Qed.

End Dictionaries.

(** What [saveState] stores for a dictionary of the state: the image of
    every entry, but for the key [__proto__]. *)
Lemma saved_lookup {V W : Type} (m : gmap string V) (f : string → V → W) (k : string) :
  Store.forEach m (λ key v obj, Store.setProperty key (f key v) obj) ∅ !! k =
    if String.eqb k "__proto__" then None else f k <$> m !! k.
Proof.
  rewrite (forEach_lookup m _ (λ key, String.eqb key "__proto__") f) by reflexivity.
  destruct (m !! k), (String.eqb k "__proto__"); reflexivity.
Qed.

(** What [loadPersistedState] rebuilds from a stored dictionary. *)
Lemma loaded_lookup {V W : Type} (m : gmap string V) (g : string → V → W) (k : string) :
  Store.forEach m (λ key v (acc : gmap string W), <[key := g key v]> acc) ∅ !! k
  = g k <$> m !! k.
Proof.
  rewrite (forEach_lookup m _ (λ _, false) g) by reflexivity.
  destruct (m !! k); reflexivity.
Qed.

(** Saving and loading a dictionary that does not use the key [__proto__]
    gives back every entry [v] as [g k (f k v)]. *)
Lemma saved_loaded {V W : Type} (m : gmap string V) (f : string → V → W)
    (g : string → W → V) :
  m !! "__proto__" = None →
  (∀ k v, m !! k = Some v → g k (f k v) = v) →
  Store.forEach
    (Store.forEach m (λ key v obj, Store.setProperty key (f key v) obj) ∅)
    (λ key w (acc : gmap string V), <[key := g key w]> acc) ∅ = m.
Proof.
  intros Hreserved Hgf. apply map_eq. intros k.
  rewrite loaded_lookup, saved_lookup.
  destruct (String.eqb_spec k "__proto__") as [->|_].
  - rewrite Hreserved. reflexivity.
  - destruct (m !! k) as [v|] eqn:Hk; [|reflexivity]. cbn. f_equal. auto.
Qed.

(** Saving and loading a dictionary gives back its own properties, every
    entry [v] as [g k (f k v)]. *)
Lemma saved_loaded_own {V W : Type} (m : gmap string V) (f : string → V → W)
    (g : string → W → V) (k : string) :
  Store.forEach
    (Store.forEach m (λ key v obj, Store.setProperty key (f key v) obj) ∅)
    (λ key w (acc : gmap string V), <[key := g key w]> acc) ∅ !! k
  = (λ v, g k (f k v)) <$> ownProperties m !! k.
Proof.
  rewrite loaded_lookup, saved_lookup. unfold ownProperties.
  destruct (String.eqb_spec k "__proto__") as [->|Hne].
  - rewrite lookup_delete_eq. reflexivity.
  - rewrite lookup_delete_ne by congruence.
    destruct (m !! k); reflexivity.
Qed.

(** What is read back of any state that has been saved. *)
Lemma loadPersistedState_reloaded (w : Store.World) (s : Store.AppState) :
  (Store.loadPersistedState (Store.exec (Store.saveState s) w)).1 = Some (reloaded s).
Proof.
  run_store. unfold reloaded. cbn -[Store.forEach]. f_equal. f_equal.
  - apply map_eq. intros k.
    rewrite (saved_loaded_own (Store.parsedRounds s) (λ _ emails, elements emails)
               (λ _ emails, list_to_set emails)).
    destruct (ownProperties (Store.parsedRounds s) !! k) as [emails|]; [|reflexivity].
    cbn. rewrite list_to_set_elements_L. reflexivity.
  - apply map_eq. intros k.
    rewrite (saved_loaded_own (Store.emailToName s) (λ _ name, name) (λ _ name, name)).
    destruct (ownProperties (Store.emailToName s) !! k); reflexivity.
  - apply map_eq. intros k.
    rewrite (saved_loaded_own (Store.activeRounds s)
               (λ _ roundState, Store.roundRecord roundState) Store.roundStateOf).
    rewrite map_lookup_imap.
    destruct (ownProperties (Store.activeRounds s) !! k) as [roundState|]; [|reflexivity].
    cbn. unfold Store.roundStateOf, Store.roundRecord, filedUnder. cbn.
    rewrite list_to_set_elements_L. reflexivity.
Qed.

(** A dictionary is the same as its own properties when it has no entry
    under [__proto__]. *)
Lemma ownProperties_same {V : Type} (m : gmap string V) :
  ownProperties m = m ↔ m !! "__proto__" = None.
Proof.
  unfold ownProperties. split.
  - intros Hsame. rewrite <- Hsame. apply lookup_delete_eq.
  - apply delete_id.
Qed.

(** What is read back of a saved state is the state when the state is
    valid, and only then. *)
Lemma reloaded_modelOf (s : Store.AppState) : reloaded s = modelOf s ↔ valid s.
Proof.
  unfold reloaded, modelOf, valid. split.
  - intros Hsame. injection Hsame as Hrounds Hnames Hactive.
    apply ownProperties_same in Hrounds. apply ownProperties_same in Hnames.
    split; [exact Hrounds|]. split; [exact Hnames|].
    assert (Hreserved : Store.activeRounds s !! "__proto__" = None).
    { rewrite <- Hactive. rewrite map_lookup_imap. unfold ownProperties.
      rewrite lookup_delete_eq. reflexivity. }
    split; [exact Hreserved|].
    intros k roundState Hk. cbn.
    rewrite <- Hactive, map_lookup_imap in Hk.
    destruct (ownProperties (Store.activeRounds s) !! k) as [filed|]; [|discriminate].
    cbn in Hk. injection Hk as <-. reflexivity.
  - intros (Hrounds & Hnames & Hactive & Hids).
    apply ownProperties_same in Hrounds. apply ownProperties_same in Hnames.
    rewrite Hrounds, Hnames. f_equal.
    apply ownProperties_same in Hactive. rewrite Hactive.
    apply map_eq. intros k. rewrite map_lookup_imap.
    destruct (Store.activeRounds s !! k) as [roundState|] eqn:Hk; [|reflexivity].
    cbn. f_equal. apply Hids in Hk. cbn in Hk.
    destruct roundState. unfold filedUnder. cbn in *. congruence.
Qed.

(** C4.  Whatever the state and the world it is saved in, [saveState]
    followed by [loadPersistedState] gives back the session identifier and
    the selected round of the state, and of its parsed rounds, its
    email-to-name map and its active rounds every entry (moved sets,
    timestamps and counters included; maps and sets equal by content) but
    those under the key [__proto__], each round state under the identifier
    of its key.  So the state is read back as it was exactly when it is
    valid: every round state filed under its own identifier, and no
    dictionary key [__proto__].  The store does reach states that are not:
    once the rounds that [parseCSV] reads from a row-based file whose round
    is named [__proto__] are set as the parsed rounds, as the upload of the
    file does, the state holds that round and what is stored reloads
    without it; after [startRound] on that round its record is in the
    state, and what is stored reloads without it. *)
Theorem saveState_loadPersistedState :
  (∀ (w : Store.World) (s : Store.AppState),
     (Store.loadPersistedState (Store.exec (Store.saveState s) w)).1
     = Some (reloaded s)) ∧
  (∀ (w : Store.World) (s : Store.AppState),
     (Store.loadPersistedState (Store.exec (Store.saveState s) w)).1
     = Some (modelOf s) ↔ valid s) ∧
  (∃ data,
     Csv.success (Csv.parseCSV Csv.plainReader reservedRoundFile) = true ∧
     Csv.parsed (Csv.parseCSV Csv.plainReader reservedRoundFile) = Some data ∧
     Csv.csvRounds data = {[ "__proto__" := {[ "alice@example.com" ]} ]} ∧
     let uploaded := Store.exec (Store.setParsedRounds (Csv.csvRounds data)) sampleWorld in
     Store.parsedRounds (Store.state uploaded) !! "__proto__"
       = Some {[ "alice@example.com" ]} ∧
     (∃ loaded, (Store.loadPersistedState uploaded).1 = Some loaded ∧
                Store.loadedParsedRounds loaded !! "__proto__" = None) ∧
     (Store.loadPersistedState uploaded).1 ≠ Some (modelOf (Store.state uploaded))) ∧
  (let started := Store.exec (Store.startRound "__proto__") sampleWorld in
   Store.activeRounds (Store.state started) !! "__proto__"
     = Some (freshRound "__proto__" (Store.times sampleWorld 0)) ∧
   (∃ loaded, (Store.loadPersistedState started).1 = Some loaded ∧
              Store.loadedActiveRounds loaded !! "__proto__" = None) ∧
   (Store.loadPersistedState started).1 ≠ Some (modelOf (Store.state started))).
Proof.
  split; [exact loadPersistedState_reloaded|].
  split.
  { intros w s. rewrite loadPersistedState_reloaded. rewrite <- reloaded_modelOf.
    split; [congruence | intros ->; reflexivity]. }
  split.
  - eexists. split; [vm_compute; reflexivity|]. split; [vm_compute; reflexivity|].
    split; [vm_compute; reflexivity|].
    cbv zeta. split; [vm_compute; reflexivity|]. split.
    + eexists. split; vm_compute; reflexivity.
    + intros Hsame.
      apply (f_equal (fmap (λ loaded, Store.loadedParsedRounds loaded !! "__proto__")))
        in Hsame.
      vm_compute in Hsame. discriminate Hsame.
  - cbv zeta. split; [vm_compute; reflexivity|]. split.
    + eexists. split; vm_compute; reflexivity.
    + intros Hsame.
      apply (f_equal (fmap (λ loaded, Store.loadedActiveRounds loaded !! "__proto__")))
        in Hsame.
      vm_compute in Hsame. discriminate Hsame.
Qed.

Section Rounds.
Variable w : Store.World.
Variable roundId : string.

Local Abbreviation rounds := (Store.activeRounds (Store.state w)).

(** The state [startRound] leaves: the round restarted in place, or
    created empty, and one entry more in the action log. *)
Lemma startRound_state :
  Store.state (Store.exec (Store.startRound roundId) w) =
    Store.withActionLog
      (Store.actionLog (Store.state w) ++ [roundEntry Store.Log.start_round roundId w 2])
      (Store.withActiveRounds
         (<[roundId := match rounds !! roundId with
                       | Some roundState => Store.restarted (Store.times w 0) roundState
                       | None => freshRound roundId (Store.times w 0)
                       end]> rounds)
         (Store.state w)).
Proof.
  run_store.
  destruct (Store.activeRounds (Store.state w) !! roundId); reflexivity.
Qed.

(** The state [endRound] leaves for a round that has a record. *)
Lemma endRound_state (roundState : Store.RoundState) :
  rounds !! roundId = Some roundState →
  Store.state (Store.exec (Store.endRound roundId) w) =
    Store.withActionLog
      (Store.actionLog (Store.state w) ++ [roundEntry Store.Log.end_round roundId w 2])
      (Store.withActiveRounds
         (<[roundId := Store.ended (Store.times w 0) roundState]> rounds)
         (Store.state w)).
Proof.
  intros Hround. run_store. rewrite Hround. reflexivity.
Qed.

(** The environment after [startRound]: the clock has been read three
    times. *)
Lemma startRound_times (n : nat) :
  Store.times (Store.exec (Store.startRound roundId) w) n = Store.times w (3 + n).
Proof.
  run_store. destruct (Store.activeRounds (Store.state w) !! roundId); reflexivity.
Qed.

Lemma movedSet_lookup (world : Store.World) :
  movedSet roundId world =
    default ∅ (Store.movedParticipants
                 <$> Store.activeRounds (Store.state world) !! roundId).
Proof. reflexivity. Qed.

End Rounds.

(** C6.  Two calls of [startRound] for a round leave one record for it: the
    second call creates none, it keeps the record of the first and changes
    only its start timestamp, which it refreshes, and its end timestamp,
    which it clears.  The moved set of the round is the same after the
    first call, after the second call and before, so it is empty when no
    participant was moved.  In general [startRound] on a round that has a
    record keeps the moved set of that record, and the records of the other
    rounds. *)
Theorem startRound_twice_keeps_moved_set (w : Store.World) (roundId : string) :
  let w1 := Store.exec (Store.startRound roundId) w in
  let w2 := Store.exec (Store.startRound roundId) w1 in
  (∃ roundState,
     Store.activeRounds (Store.state w1) !! roundId = Some roundState ∧
     Store.activeRounds (Store.state w2) !! roundId
       = Some (Store.restarted (Store.times w 3) roundState)) ∧
  (dom (Store.activeRounds (Store.state w2)) = dom (Store.activeRounds (Store.state w1)) ∧
   size (Store.activeRounds (Store.state w2)) = size (Store.activeRounds (Store.state w1)) ∧
   dom (Store.activeRounds (Store.state w1))
     = {[roundId]} ∪ dom (Store.activeRounds (Store.state w))) ∧
  (movedSet roundId w2 = movedSet roundId w ∧ movedSet roundId w1 = movedSet roundId w) ∧
  (∀ roundState, Store.activeRounds (Store.state w) !! roundId = Some roundState →
     ∃ roundState1,
       Store.activeRounds (Store.state w1) !! roundId = Some roundState1 ∧
       Store.movedParticipants roundState1 = Store.movedParticipants roundState ∧
       Store.movedCount roundState1 = Store.movedCount roundState ∧
       Store.admittedCount roundState1 = Store.admittedCount roundState) ∧
  (∀ other, other ≠ roundId →
     Store.activeRounds (Store.state w2) !! other
       = Store.activeRounds (Store.state w) !! other).
Proof.
  intros w1 w2.
  assert (H1 := startRound_state w roundId). fold w1 in H1.
  assert (H2 := startRound_state w1 roundId). fold w2 in H2.
  assert (Ht := startRound_times w roundId 0). fold w1 in Ht. cbn in Ht.
  set (first := match Store.activeRounds (Store.state w) !! roundId with
                | Some roundState => Store.restarted (Store.times w 0) roundState
                | None => freshRound roundId (Store.times w 0)
                end) in *.
  assert (Hfirst : Store.activeRounds (Store.state w1) !! roundId = Some first).
  { rewrite H1. cbn. apply lookup_insert_eq. }
  rewrite Hfirst, Ht in H2.
  assert (Hmoved : Store.movedParticipants first
                   = default ∅ (Store.movedParticipants
                                  <$> Store.activeRounds (Store.state w) !! roundId)).
  { subst first. destruct (Store.activeRounds (Store.state w) !! roundId); reflexivity. }
  split; [|split; [|split; [|split]]].
  - exists first. split; [assumption|]. rewrite H2. cbn. apply lookup_insert_eq.
  - rewrite H2, H1. cbn. rewrite !dom_insert_L. split; [|split].
    + apply set_eq. intros x. rewrite !elem_of_union. tauto.
    + rewrite insert_insert_eq, !map_size_insert. reflexivity.
    + reflexivity.
  - rewrite !movedSet_lookup, H2, Hfirst. cbn. rewrite lookup_insert_eq. cbn.
    split; exact Hmoved.
  - intros roundState Hround. exists first. split; [assumption|].
    subst first. rewrite Hround. cbn. repeat split.
  - intros other Hother. rewrite H2, H1. cbn.
    rewrite !lookup_insert_ne by congruence. reflexivity.
Qed.

(** C9, as the code has it.  For a round with a record, [endRound] files
    the end timestamp in that record and keeps its other fields, the moved
    set among them; it keeps the record of every other round and every
    other field of the state except the action log, to which it appends one
    entry of type end_round. *)
Theorem endRound_frame (w : Store.World) (roundId : string)
    (roundState : Store.RoundState) :
  Store.activeRounds (Store.state w) !! roundId = Some roundState →
  let after := Store.state (Store.exec (Store.endRound roundId) w) in
  Store.activeRounds after !! roundId
    = Some (Store.ended (Store.times w 0) roundState) ∧
  movedSet roundId (Store.exec (Store.endRound roundId) w)
    = Store.movedParticipants roundState ∧
  (∀ other, other ≠ roundId →
     Store.activeRounds after !! other = Store.activeRounds (Store.state w) !! other) ∧
  sameSettings (Store.state w) after ∧
  Store.actionLog after
    = Store.actionLog (Store.state w) ++ [roundEntry Store.Log.end_round roundId w 2].
Proof.
  intros Hround after.
  assert (Hafter := endRound_state w roundId roundState Hround). fold after in Hafter.
  rewrite movedSet_lookup. fold after. rewrite Hafter. cbn.
  rewrite lookup_insert_eq. split; [reflexivity|]. split; [reflexivity|].
  split; [|split; [repeat split|reflexivity]].
  intros other Hother. apply lookup_insert_ne. congruence.
Qed.

Lemma endRound_frame_witness :
  let after := Store.state (Store.exec (Store.endRound "r1") sampleWorld) in
  Store.activeRounds after !! "r1"
    = Some {| Store.roundId := "r1"; Store.movedParticipants := {[ "p1"; "p2" ]};
              Store.startedAt := Some 1000%Z; Store.endedAt := Some 2000%Z;
              Store.movedCount := 2%Z; Store.admittedCount := 0%Z |} ∧
  movedSet "r1" (Store.exec (Store.endRound "r1") sampleWorld) = {[ "p1"; "p2" ]} ∧
  (∀ other, other ≠ "r1" →
     Store.activeRounds after !! other = Store.activeRounds sampleState !! other) ∧
  sameSettings sampleState after ∧
  Store.actionLog after = [] ++ [roundEntry Store.Log.end_round "r1" sampleWorld 2].
Proof.
  refine (endRound_frame sampleWorld "r1"
            {| Store.roundId := "r1"; Store.movedParticipants := {[ "p1"; "p2" ]};
               Store.startedAt := Some 1000%Z; Store.endedAt := None;
               Store.movedCount := 2%Z; Store.admittedCount := 0%Z |} _).
  vm_compute. reflexivity.
Defined.

(** C9, counterexample.  In the sample store, ending round r1 leaves an
    action log of one entry where it was empty: the store is not unchanged
    outside the record of the round. *)
Lemma endRound_appends_to_the_log : ¬ endRound_changes_nothing_else sampleWorld "r1".
Proof.
  intros Hclaim.
  destruct (Hclaim {| Store.roundId := "r1"; Store.movedParticipants := {[ "p1"; "p2" ]};
                      Store.startedAt := Some 1000%Z; Store.endedAt := None;
                      Store.movedCount := 2%Z; Store.admittedCount := 0%Z |})
    as (_ & _ & _ & Hlog).
  - vm_compute. reflexivity.
  - vm_compute in Hlog. discriminate Hlog.
Qed.

(* ===================================================================== *)
(** * Properties of the string utilities                                  *)
(* ===================================================================== *)

Section Normalization.
Local Open Scope string_scope.

Lemma lowerChar_idem (a : ascii) : Js.lowerChar (Js.lowerChar a) = Js.lowerChar a.
Proof. destruct a as [[] [] [] [] [] [] [] []]; reflexivity. Qed.

Lemma isWhitespace_lowerChar (a : ascii) :
  Js.isWhitespace (Js.lowerChar a) = Js.isWhitespace a.
Proof. destruct a as [[] [] [] [] [] [] [] []]; reflexivity. Qed.

Lemma emailChar_lowerChar (a : ascii) : emailChar (Js.lowerChar a) = emailChar a.
Proof. destruct a as [[] [] [] [] [] [] [] []]; reflexivity. Qed.

Lemma at_lowerChar (a : ascii) : Ascii.eqb (Js.lowerChar a) "@" = Ascii.eqb a "@".
Proof. destruct a as [[] [] [] [] [] [] [] []]; reflexivity. Qed.

Lemma dot_lowerChar (a : ascii) : Ascii.eqb (Js.lowerChar a) "." = Ascii.eqb a ".".
Proof. destruct a as [[] [] [] [] [] [] [] []]; reflexivity. Qed.

Lemma toLowerCase_idem (s : string) :
  Js.toLowerCase (Js.toLowerCase s) = Js.toLowerCase s.
Proof. induction s as [|a s IH]; cbn; [reflexivity|]. rewrite lowerChar_idem, IH. reflexivity. Qed.

Lemma truthy_toLowerCase (s : string) : Js.truthy (Js.toLowerCase s) = Js.truthy s.
Proof. destruct s; reflexivity. Qed.

Lemma trimStart_toLowerCase (s : string) :
  Js.trimStart (Js.toLowerCase s) = Js.toLowerCase (Js.trimStart s).
Proof.
  induction s as [|a s IH]; cbn; [reflexivity|].
  rewrite isWhitespace_lowerChar. destruct (Js.isWhitespace a); [exact IH|reflexivity].
Qed.

Lemma trimEnd_toLowerCase (s : string) :
  Js.trimEnd (Js.toLowerCase s) = Js.toLowerCase (Js.trimEnd s).
Proof.
  induction s as [|a s IH]; cbn; [reflexivity|].
  rewrite IH, isWhitespace_lowerChar.
  destruct (Js.trimEnd s) as [|b t]; cbn; [|reflexivity].
  destruct (Js.isWhitespace a); reflexivity.
Qed.

(** Trimming and lower-casing commute. *)
Lemma trim_toLowerCase (s : string) :
  Js.trim (Js.toLowerCase s) = Js.toLowerCase (Js.trim s).
Proof. unfold Js.trim. rewrite trimStart_toLowerCase, trimEnd_toLowerCase. reflexivity. Qed.

Lemma trimEnd_idem (s : string) : Js.trimEnd (Js.trimEnd s) = Js.trimEnd s.
Proof.
  induction s as [|a s IH]; cbn; [reflexivity|].
  destruct (Js.trimEnd s) as [|b t] eqn:Hs.
  - destruct (Js.isWhitespace a) eqn:Ha; cbn; [reflexivity|]. rewrite Ha. reflexivity.
  - change (Js.trimEnd (String a (String b t)))
      with (match Js.trimEnd (String b t) with
            | EmptyString =>
                if Js.isWhitespace a then EmptyString else String a EmptyString
            | String c r => String a (String c r)
            end).
    rewrite IH. reflexivity.
Qed.

Lemma trimStart_noLeadingSpace (s : string) : noLeadingSpace (Js.trimStart s).
Proof.
  induction s as [|a s IH]; cbn; [exact I|].
  destruct (Js.isWhitespace a) eqn:Ha; [exact IH|exact Ha].
Qed.

Lemma trimEnd_noLeadingSpace (s : string) :
  noLeadingSpace s → noLeadingSpace (Js.trimEnd s).
Proof.
  destruct s as [|a s]; cbn; [auto|]. intros Ha.
  destruct (Js.trimEnd s); [rewrite Ha|]; exact Ha.
Qed.

Lemma trimStart_fixed (s : string) : noLeadingSpace s → Js.trimStart s = s.
Proof. destruct s as [|a s]; cbn; [reflexivity|]. intros ->. reflexivity. Qed.

Lemma trim_idem (s : string) : Js.trim (Js.trim s) = Js.trim s.
Proof.
  unfold Js.trim.
  rewrite (trimStart_fixed (Js.trimEnd (Js.trimStart s))).
  - apply trimEnd_idem.
  - apply trimEnd_noLeadingSpace, trimStart_noLeadingSpace.
Qed.

Lemma normalizeEmail_twice (email : string) :
  normalizeEmail (normalizeEmail email) = normalizeEmail email.
Proof.
  unfold normalizeEmail. rewrite trim_toLowerCase, trim_idem, toLowerCase_idem.
  reflexivity.
Qed.

End Normalization.

(** X2.  Normalizing an email twice is normalizing it once, and trimming
    before lower-casing gives what lower-casing before trimming gives. *)
Theorem normalizeEmail_idempotent (email : string) :
  normalizeEmail (normalizeEmail email) = normalizeEmail email ∧
  Js.trim (Js.toLowerCase email) = normalizeEmail email.
Proof.
  unfold normalizeEmail. split; [|apply trim_toLowerCase].
  rewrite trim_toLowerCase, trim_idem, toLowerCase_idem. reflexivity.
Qed.

(* ===================================================================== *)
(** * Properties of the parsed conflict sets                              *)
(* ===================================================================== *)

Section StoredEmails.
Local Open Scope string_scope.

Lemma allEmailChars_toLowerCase (s : string) :
  allEmailChars (Js.toLowerCase s) = allEmailChars s.
Proof. induction s as [|a s IH]; cbn; [reflexivity|]. rewrite emailChar_lowerChar, IH. reflexivity. Qed.

Lemma dotThenMore_toLowerCase (s : string) :
  dotThenMore (Js.toLowerCase s) = dotThenMore s.
Proof.
  induction s as [|a s IH]; cbn; [reflexivity|].
  rewrite dot_lowerChar, truthy_toLowerCase, IH. reflexivity.
Qed.

Lemma domainPart_toLowerCase (s : string) :
  domainPart (Js.toLowerCase s) = domainPart s.
Proof.
  destruct s as [|a s]; cbn; [reflexivity|].
  rewrite emailChar_lowerChar, allEmailChars_toLowerCase, dotThenMore_toLowerCase.
  reflexivity.
Qed.

Lemma localPart_toLowerCase (s : string) (seen : bool) :
  localPart seen (Js.toLowerCase s) = localPart seen s.
Proof.
  revert seen. induction s as [|a s IH]; intros seen; cbn; [reflexivity|].
  rewrite at_lowerChar, emailChar_lowerChar, domainPart_toLowerCase, IH. reflexivity.
Qed.

(** Lower-casing neither makes nor breaks a match of the email pattern. *)
Lemma isValidEmail_toLowerCase (email : string) :
  isValidEmail (Js.toLowerCase email) = isValidEmail email.
Proof. apply localPart_toLowerCase. Qed.

Lemma allEmailChars_noWhitespace (s : string) :
  allEmailChars s = true → noWhitespace s = true.
Proof.
  induction s as [|a s IH]; cbn; [reflexivity|].
  unfold emailChar. rewrite !andb_true_iff. intros [[Ha _] Hs]. auto.
Qed.

Lemma localPart_noWhitespace (s : string) (seen : bool) :
  localPart seen s = true → noWhitespace s = true.
Proof.
  revert seen. induction s as [|a s IH]; intros seen; cbn; [discriminate|].
  destruct (Ascii.eqb a "@") eqn:Ha.
  - apply Ascii.eqb_eq in Ha as ->. rewrite andb_true_iff. intros [_ Hd]. cbn.
    destruct s as [|b s]; cbn in Hd; [discriminate|].
    apply andb_true_iff in Hd as [Hd _].
    apply (allEmailChars_noWhitespace (String b s)). exact Hd.
  - unfold emailChar. rewrite !andb_true_iff. intros [[Hw _] Hs].
    split; [assumption|]. eapply IH, Hs.
Qed.

Lemma trimEnd_noWhitespace (s : string) : noWhitespace s = true → Js.trimEnd s = s.
Proof.
  induction s as [|a s IH]; cbn; [reflexivity|].
  rewrite andb_true_iff, negb_true_iff. intros [Ha Hs].
  rewrite IH by assumption. destruct s; [rewrite Ha|]; reflexivity.
Qed.

Lemma trim_noWhitespace (s : string) : noWhitespace s = true → Js.trim s = s.
Proof.
  intros Hs. unfold Js.trim. rewrite (trimStart_fixed s).
  - apply trimEnd_noWhitespace, Hs.
  - destruct s as [|a s]; cbn in *; [exact I|].
    apply andb_true_iff in Hs as [Ha _]. apply negb_true_iff, Ha.
Qed.

(** An email that matches the pattern has no white space to trim. *)
Lemma isValidEmail_trim (email : string) :
  isValidEmail email = true → Js.trim email = email.
Proof. intros Hv. eapply trim_noWhitespace, localPart_noWhitespace, Hv. Qed.

(** What the parsers add to a round after the validity test. *)
Lemma storedEmail_normalizeEmail (email : string) :
  isValidEmail email = true → storedEmail (normalizeEmail email).
Proof.
  intros Hv. split; [|apply normalizeEmail_twice].
  unfold normalizeEmail. rewrite isValidEmail_toLowerCase, isValidEmail_trim; assumption.
Qed.

End StoredEmails.

Section ParserInvariant.

Lemma storedRounds_addToRound roundId email rounds :
  storedEmail email → storedRounds rounds →
  storedRounds (Csv.addToRound roundId email rounds).
Proof.
  intros He Hrounds r emails e. unfold Csv.addToRound.
  destruct (decide (roundId = r)) as [->|Hne].
  - rewrite lookup_insert_eq. intros [= <-] [Hin|Hin]%elem_of_union.
    + apply elem_of_singleton in Hin as ->. exact He.
    + destruct (rounds !! r) as [old|] eqn:Hr; cbn in Hin.
      * eapply Hrounds; eassumption.
      * apply not_elem_of_empty in Hin. contradiction.
  - rewrite lookup_insert_ne by assumption. apply Hrounds.
Qed.

Lemma rowsLoop_invariant (P : Csv.Parsed → Prop)
    (step : nat → Csv.Row → Csv.Parsed → Csv.Parsed) :
  (∀ i row acc, P acc → P (step i row acc)) →
  ∀ rows i acc, P acc → P (Csv.rowsLoop step i rows acc).
Proof.
  intros Hstep rows. induction rows as [|row rows IH]; intros i acc Hacc; cbn; auto.
Qed.

Lemma storedNames_insert email name names :
  storedEmail email → Js.truthy name = true → storedNames names →
  storedNames (<[email := name]> names).
Proof.
  intros He Hname Hnames e n. destruct (decide (email = e)) as [->|Hne].
  - rewrite lookup_insert_eq. intros [= <-]. split; [assumption|].
    destruct name; [discriminate|discriminate].
  - rewrite lookup_insert_ne by assumption. apply Hnames.
Qed.

Lemma rowBasedStep_stored i row acc :
  storedParsed acc → storedParsed (Csv.rowBasedStep i row acc).
Proof.
  intros [Hrounds Hnames]. unfold Csv.rowBasedStep.
  destruct (find _ (Csv.keys row)) as [roundIdKey|]; [|split; assumption].
  destruct (find _ (Csv.keys row)) as [emailKey|]; [|split; assumption].
  destruct (negb (Js.truthy roundIdKey) || negb (Js.truthy emailKey));
    [split; assumption|].
  destruct (negb (Js.truthy _)); [split; assumption|].
  destruct (negb (Js.truthy _)); [split; assumption|].
  destruct (isValidEmail _) eqn:Hvalid; cbn [negb]; [|split; assumption].
  apply storedEmail_normalizeEmail in Hvalid.
  split; cbn [Csv.rounds Csv.emailToName].
  - apply storedRounds_addToRound; assumption.
  - match goal with |- context [Js.truthy ?n && _] => destruct (Js.truthy n) eqn:Hname end;
      cbn [andb]; [|assumption].
    destruct (negb _); [|assumption].
    apply storedNames_insert; assumption.
Qed.

Lemma markRounds_stored row email roundColumns rounds :
  storedEmail email → storedRounds rounds →
  storedRounds (Csv.markRounds row email roundColumns rounds).
Proof.
  intros He. revert rounds.
  induction roundColumns as [|roundCol rest IH]; intros rounds Hrounds; cbn; [assumption|].
  apply IH. destruct (Csv.isConflict _); [|assumption].
  apply storedRounds_addToRound; assumption.
Qed.

Lemma columnBasedStep_stored emailKey nameKey roundColumns i row acc :
  storedParsed acc →
  storedParsed (Csv.columnBasedStep emailKey nameKey roundColumns i row acc).
Proof.
  intros [Hrounds Hnames]. unfold Csv.columnBasedStep.
  destruct (negb (Js.truthy _)); [split; assumption|].
  destruct (isValidEmail _) eqn:Hvalid; cbn [negb]; [|split; assumption].
  apply storedEmail_normalizeEmail in Hvalid.
  split; cbn [Csv.rounds Csv.emailToName].
  - apply markRounds_stored; assumption.
  - match goal with |- context [if Js.truthy ?n then _ else _] =>
      destruct (Js.truthy n) eqn:Hname end; [|assumption].
    apply storedNames_insert; assumption.
Qed.

Lemma initRounds_lookup roundColumns roundId emails :
  Csv.initRounds roundColumns !! roundId = Some emails → emails = ∅.
Proof.
  unfold Csv.initRounds.
  assert (Hgen : ∀ (init : gmap string (gset string)),
            (∀ r es, init !! r = Some es → es = ∅) →
            ∀ r es, fold_left (λ rounds roundCol, <[roundCol := ∅]> rounds)
                      roundColumns init !! r = Some es → es = ∅).
  { induction roundColumns as [|c rest IH]; intros init Hinit r es; cbn; [apply Hinit|].
    apply IH. intros r' es'. destruct (decide (c = r')) as [->|Hne].
    - rewrite lookup_insert_eq. congruence.
    - rewrite lookup_insert_ne by assumption. apply Hinit. }
  apply Hgen. intros r es. rewrite lookup_empty. discriminate.
Qed.

Lemma storedParsed_empty : storedParsed Csv.emptyParsed.
Proof.
  split.
  - intros r emails e Hr. cbn in Hr. rewrite lookup_empty in Hr. discriminate.
  - intros e name Hname. cbn in Hname. rewrite lookup_empty in Hname. discriminate.
Qed.

Lemma parseRows_stored detected rows headers :
  storedParsed (Csv.parseRows detected rows headers).
Proof.
  assert (Hcolumn : storedParsed (Csv.parseColumnBased rows headers)).
  { unfold Csv.parseColumnBased.
    destruct (find _ headers) as [emailKey|]; [|apply storedParsed_empty].
    destruct (negb (Js.truthy emailKey)); [apply storedParsed_empty|].
    destruct (List.filter _ headers) as [|roundCol roundColumns] eqn:Hcols;
      [apply storedParsed_empty|].
    apply (rowsLoop_invariant storedParsed); [apply columnBasedStep_stored|].
    split; cbn [Csv.rounds Csv.emailToName].
    - intros r emails e Hr He. apply initRounds_lookup in Hr as ->.
      apply not_elem_of_empty in He. contradiction.
    - intros e name. rewrite lookup_empty. discriminate. }
  destruct detected; cbn [Csv.parseRows]; try exact Hcolumn.
  unfold Csv.parseRowBased.
  apply (rowsLoop_invariant storedParsed);
    [apply rowBasedStep_stored|apply storedParsed_empty].
Qed.

End ParserInvariant.

(** X3.  Whatever the reader returns, a successful parse holds only emails
    that match the email pattern and are in normal form, in every round and
    as keys of the name map, and no registered name is empty. *)
Theorem parseCSV_stores_normalized_emails (Papa_parse : string → Csv.PapaResults)
    (csvContent : string) (parsed : Csv.ParsedCSV) :
  Csv.parsed (Csv.parseCSV Papa_parse csvContent) = Some parsed →
  storedRounds (Csv.csvRounds parsed) ∧ storedNames (Csv.csvEmailToName parsed).
Proof.
  unfold Csv.parseCSV, Csv.complete.
  destruct (Csv.data (Papa_parse csvContent)) as [|row rows] eqn:Hdata; [discriminate|].
  rewrite <- Hdata.
  pose proof (parseRows_stored
                (Csv.detectCSVFormat (Csv.headersOf (Papa_parse csvContent)))
                (Csv.data (Papa_parse csvContent))
                (Csv.headersOf (Papa_parse csvContent))) as Hstored.
  destruct (Csv.detectCSVFormat _); try discriminate;
    match goal with |- context [Nat.eqb ?n 0] => destruct (Nat.eqb n 0) end;
    try discriminate; intros [= <-]; exact Hstored.
Qed.

Lemma parseCSV_stores_normalized_emails_witness :
  storedRounds {[ "1" := {[ "alice@example.com" ]}; "yes" := {[ "bob@example.com" ]} ]} ∧
  storedNames ∅.
Proof.
  refine (parseCSV_stores_normalized_emails Csv.plainReader scenarioB_text
            {| Csv.format := Csv.RowBased;
               Csv.csvRounds := {[ "1" := {[ "alice@example.com" ]};
                                   "yes" := {[ "bob@example.com" ]} ]};
               Csv.csvEmailToName := ∅ |} _).
  vm_compute. reflexivity.
Defined.

Section ColumnBased.

Lemma dom_initRounds (roundColumns : list string) :
  dom (Csv.initRounds roundColumns) = list_to_set roundColumns.
Proof.
  unfold Csv.initRounds.
  assert (Hgen : ∀ (init : gmap string (gset string)),
            dom (fold_left (λ rounds roundCol, <[roundCol := ∅]> rounds)
                   roundColumns init)
            = list_to_set roundColumns ∪ dom init).
  { induction roundColumns as [|c rest IH]; intros init; cbn.
    - rewrite (left_id_L ∅ (∪)). reflexivity.
    - rewrite IH, dom_insert_L. apply set_eq. intros x.
      rewrite !elem_of_union. tauto. }
  rewrite Hgen, dom_empty_L, (right_id_L ∅ (∪)). reflexivity.
Qed.

Lemma dom_addToRound_known roundId email (rounds : gmap string (gset string)) :
  roundId ∈ dom rounds → dom (Csv.addToRound roundId email rounds) = dom rounds.
Proof.
  intros Hin. unfold Csv.addToRound. rewrite dom_insert_L.
  apply set_eq. intros x. rewrite elem_of_union, elem_of_singleton.
  split; [intros [->|]; assumption|auto].
Qed.

Lemma dom_markRounds row email roundColumns (rounds : gmap string (gset string)) :
  (∀ c, c ∈ roundColumns → c ∈ dom rounds) →
  dom (Csv.markRounds row email roundColumns rounds) = dom rounds.
Proof.
  revert rounds. induction roundColumns as [|c rest IH]; intros rounds Hin; cbn;
    [reflexivity|].
  assert (Hc : c ∈ dom rounds) by (apply Hin; left).
  destruct (Csv.isConflict _).
  - rewrite IH; rewrite dom_addToRound_known by assumption; [reflexivity|].
    intros c' Hc'. apply Hin. right. assumption.
  - apply IH. intros c' Hc'. apply Hin. right. assumption.
Qed.

Lemma dom_columnBasedStep emailKey nameKey roundColumns i row acc :
  dom (Csv.rounds acc) = list_to_set roundColumns →
  dom (Csv.rounds (Csv.columnBasedStep emailKey nameKey roundColumns i row acc))
  = list_to_set roundColumns.
Proof.
  intros Hdom. unfold Csv.columnBasedStep.
  destruct (negb (Js.truthy _)); [assumption|].
  destruct (negb (isValidEmail _)); [assumption|].
  cbn [Csv.rounds]. rewrite dom_markRounds; [assumption|].
  intros c Hc. rewrite Hdom. apply elem_of_list_to_set. assumption.
Qed.

Lemma find_email_truthy (headers : list string) (emailKey : string) :
  find (λ h, Js.includes (Js.toLowerCase h) "email") headers = Some emailKey →
  Js.truthy emailKey = true.
Proof.
  intros Hfind. apply find_some in Hfind as [_ Hincl].
  destruct emailKey; [discriminate Hincl|reflexivity].
Qed.

(** The rounds of a column-based parse are the round columns of the header,
    whatever the rows hold. *)
Lemma dom_parseColumnBased (rows : list Csv.Row) (headers : list string) :
  dom (Csv.rounds (Csv.parseColumnBased rows headers))
  = list_to_set (roundColumnsOf headers).
Proof.
  unfold Csv.parseColumnBased, roundColumnsOf.
  destruct (find _ headers) as [emailKey|] eqn:Hfind; cbn.
  - rewrite (find_email_truthy _ _ Hfind). cbn [negb].
    destruct (List.filter _ headers) as [|roundCol roundColumns] eqn:Hcols.
    + cbn. apply dom_empty_L.
    + apply (rowsLoop_invariant
               (λ acc, dom (Csv.rounds acc) = list_to_set (roundCol :: roundColumns))).
      * intros i row acc. apply dom_columnBasedStep.
      * cbn [Csv.rounds]. apply dom_initRounds.
  - apply dom_empty_L.
Qed.

End ColumnBased.

(** X4.  When the header is detected as column-based and there is a data
    row, the parse succeeds exactly when the header has a round column (a
    column other than the email and the name column), and the rounds it
    returns are these columns: rows that are skipped, or that flag nothing,
    take no round away. *)
Theorem parseCSV_column_based_rounds (results : Csv.PapaResults) :
  Csv.data results ≠ [] →
  Csv.detectCSVFormat (Csv.headersOf results) = Csv.column_based →
  (Csv.success (Csv.complete results) = true ↔
     roundColumnsOf (Csv.headersOf results) ≠ []) ∧
  (∀ parsed, Csv.parsed (Csv.complete results) = Some parsed →
     Csv.format parsed = Csv.ColumnBased ∧
     dom (Csv.csvRounds parsed) = list_to_set (roundColumnsOf (Csv.headersOf results))).
Proof.
  intros Hdata Hformat.
  pose proof (dom_parseColumnBased (Csv.data results) (Csv.headersOf results)) as Hdom.
  split.
  - rewrite complete_success, Hformat. cbn [Csv.parseRows].
    rewrite !andb_true_iff, !negb_true_iff, !bool_decide_eq_false, Nat.eqb_neq.
    rewrite map_size_empty_iff.
    split.
    + intros [_ Hrounds] Hcols. apply Hrounds. apply dom_empty_iff_L.
      rewrite Hdom, Hcols. reflexivity.
    + intros Hcols. split; [split; [assumption|discriminate]|].
      intros Hrounds. apply Hcols. rewrite Hrounds, dom_empty_L in Hdom.
      destruct (roundColumnsOf _) as [|c cols]; [reflexivity|].
      exfalso. assert (Hc : c ∈ (∅ : gset string)); [|by apply not_elem_of_empty in Hc].
      rewrite Hdom. apply elem_of_list_to_set. left.
  - unfold Csv.complete. destruct (Csv.data results) as [|row rows] eqn:Hrows;
      [contradiction|].
    rewrite Hformat. cbn [Csv.parseRows].
    destruct (Nat.eqb _ 0); [discriminate|]. intros parsed [= <-]. cbn.
    split; [reflexivity|exact Hdom].
Qed.

Lemma parseCSV_column_based_rounds_witness :
  (Csv.success (Csv.complete (Csv.plainReader sampleColumnBasedCSV)) = true ↔
     roundColumnsOf (Csv.headersOf (Csv.plainReader sampleColumnBasedCSV)) ≠ []) ∧
  (∀ parsed, Csv.parsed (Csv.complete (Csv.plainReader sampleColumnBasedCSV)) = Some parsed →
     Csv.format parsed = Csv.ColumnBased ∧
     dom (Csv.csvRounds parsed)
     = list_to_set (roundColumnsOf (Csv.headersOf (Csv.plainReader sampleColumnBasedCSV)))).
Proof.
  apply (parseCSV_column_based_rounds (Csv.plainReader sampleColumnBasedCSV)).
  - vm_compute. discriminate.
  - vm_compute. reflexivity.
Defined.

(* ===================================================================== *)
(** * Properties of truncate and of the display-name filter               *)
(* ===================================================================== *)

Section Truncate.
Local Open Scope string_scope.

Lemma length_append (a b : string) :
  String.length (a ++ b) = String.length a + String.length b.
Proof. induction a as [|x a IH]; [reflexivity|]. rewrite append_cons. cbn. rewrite IH. reflexivity. Qed.

Lemma length_substring0 (n : nat) (s : string) :
  String.length (String.substring 0 n s) = Nat.min n (String.length s).
Proof.
  revert s. induction n as [|n IH]; intros [|x s]; cbn; try reflexivity.
  rewrite IH. reflexivity.
Qed.

Lemma prefix_substring0 (n : nat) (s : string) :
  String.prefix (String.substring 0 n s) s = true.
Proof.
  revert s. induction n as [|n IH]; intros [|x s]; cbn; try reflexivity.
  rewrite IH. destruct (ascii_dec x x); [reflexivity|contradiction].
Qed.

End Truncate.

(** X5.  [truncate] returns a string that fits unchanged.  A longer string is
    cut to its first [maxLength - 3] characters (none when [maxLength] is
    below 3) followed by three dots, so the result never has more than
    [maxLength] characters when [maxLength] is at least 3, and has exactly 3
    when it is less. *)
Theorem truncate_length (str : string) (maxLength : Z) :
  ((Z.of_nat (String.length str) ≤ maxLength)%Z → truncate str maxLength = str) ∧
  ((maxLength < Z.of_nat (String.length str))%Z →
     ∃ kept, truncate str maxLength = (kept ++ "...")%string ∧
             String.prefix kept str = true ∧
             Z.of_nat (String.length kept) = Z.max 0 (maxLength - 3)) ∧
  (Z.of_nat (String.length (truncate str maxLength)) ≤ Z.max maxLength 3)%Z.
Proof.
  unfold truncate.
  destruct (Z.leb_spec (Z.of_nat (String.length str)) maxLength) as [Hfits|Hlong].
  - split; [reflexivity|]. split; [lia|lia].
  - assert (Hkept : ∃ n, Js.substring str 0 (maxLength - 3) = String.substring 0 n str ∧
                         Z.of_nat n = Z.max 0 (maxLength - 3) ∧ n ≤ String.length str).
    { unfold Js.substring. exists (Z.to_nat (Z.max 0 (maxLength - 3))).
      split; [|lia]. f_equal; lia. }
    destruct Hkept as (n & -> & Hn & Hle).
    split; [lia|]. split.
    + intros _. eexists. split; [reflexivity|]. split; [apply prefix_substring0|].
      rewrite length_substring0. lia.
    + rewrite length_append, length_substring0. cbn. lia.
Qed.

(** X6.  The display-name filter keeps the participants in their order; the
    case of the search term and the blanks around it make no difference,
    and a blank term keeps every participant. *)
Theorem filterByDisplayName_term :
  (∀ participants term, filterByDisplayName participants term `sublist_of` participants) ∧
  (∀ participants term,
     filterByDisplayName participants (Js.toLowerCase term)
     = filterByDisplayName participants term) ∧
  (∀ participants term,
     filterByDisplayName participants (Js.trim term)
     = filterByDisplayName participants term) ∧
  (∀ participants term,
     Js.trim term = EmptyString → filterByDisplayName participants term = participants).
Proof.
  unfold filterByDisplayName. split; [|split; [|split]].
  - intros participants term. apply sublist_filter.
  - intros participants term. rewrite toLowerCase_idem. reflexivity.
  - intros participants term.
    rewrite !trim_toLowerCase, trim_idem. reflexivity.
  - intros participants term Hblank. rewrite trim_toLowerCase, Hblank. cbn.
    induction participants as [|p rest IH]; [reflexivity|].
    rewrite filter_cons_True.
    + f_equal. exact IH.
    + destruct (Js.toLowerCase (displayName p)); reflexivity.
Qed.

(* ===================================================================== *)
(** * Properties of the manual retry                                      *)
(* ===================================================================== *)

Lemma run_retryParticipant (operation : WaitingRoom.Operation)
    (result : Op.OperationResult) (provider : Async.Provider) :
  Async.run (WaitingRoom.retryParticipant operation result) provider =
    (let answer := operationAnswer provider operation (Op.participantUUID result) in
     {| Op.participantUUID := Op.participantUUID result;
        Op.success := Sdk.success answer;
        Op.error := if Sdk.success answer then None
                    else Some (Js.orElse (Sdk.error answer) "Operation failed");
        Op.retryCount := Op.retryCount result + 1 |},
     [operationCall operation (Op.participantUUID result)]).
Proof.
  unfold Async.run, WaitingRoom.retryParticipant, WaitingRoom.attempt.
  destruct operation; cbn;
    match goal with |- context [Sdk.success ?a] => destruct (Sdk.success a) end;
    reflexivity.
Qed.

(** X7.  [retryFailedOperations] makes one provider call per earlier result,
    the move or the admit of its participant, with no backoff and no second
    attempt; the new result has the answer's success flag, the answer's
    error (or "Operation failed") when it failed, and the earlier retry
    count plus one. *)
Theorem retryFailedOperations_once (failedResults : list Op.OperationResult)
    (operation : WaitingRoom.Operation) (providers : nat → Async.Provider)
    (j : nat) (result : Op.OperationResult) :
  failedResults !! j = Some result →
  ∃ r, WaitingRoom.retryFailedOperations failedResults operation providers = Some r ∧
       length (Utils.results r) = length failedResults ∧
       Utils.calls r !! j = Some [operationCall operation (Op.participantUUID result)] ∧
       Utils.results r !! j =
         Some (let answer :=
                 operationAnswer (providers j) operation (Op.participantUUID result) in
               {| Op.participantUUID := Op.participantUUID result;
                  Op.success := Sdk.success answer;
                  Op.error := if Sdk.success answer then None
                              else Some (Js.orElse (Sdk.error answer) "Operation failed");
                  Op.retryCount := Op.retryCount result + 1 |}).
Proof.
  intros Hj. unfold WaitingRoom.retryFailedOperations.
  destruct (processBatch_ends failedResults (WaitingRoom.retryParticipant operation)
              WaitingRoom.CONCURRENCY_LIMIT providers)
    as (batch & Hbatch & Hresults & Hcalls); [unfold WaitingRoom.CONCURRENCY_LIMIT; lia|].
  rewrite Hbatch. eexists. split; [reflexivity|].
  cbn [Utils.results Utils.calls app].
  rewrite Hresults, Hcalls, length_imap, !list_lookup_imap, Hj.
  cbn [fmap option_fmap option_map]. rewrite run_retryParticipant.
  split; [reflexivity|]. split; reflexivity.
Qed.

Lemma retryFailedOperations_once_witness :
  ∃ r, WaitingRoom.retryFailedOperations [exhausted "p1"]
         WaitingRoom.admitOperation (λ _, flaky 1 []) = Some r ∧
       length (Utils.results r) = 1 ∧
       Utils.calls r !! 0 = Some [Async.admitFromWaitingRoom "p1"] ∧
       Utils.results r !! 0 =
         Some {| Op.participantUUID := "p1"; Op.success := false;
                 Op.error := Some "busy"; Op.retryCount := 4 |}.
Proof.
  refine (retryFailedOperations_once [exhausted "p1"]
            WaitingRoom.admitOperation (λ _, flaky 1 []) 0 (exhausted "p1") _).
  reflexivity.
Defined.

(* ===================================================================== *)
(** * The schedule of retryWithBackoff                                    *)
(* ===================================================================== *)

Section Schedule.
Import Async.

Variable call : Call.
Variable result : Response call → Sdk.CallResult.
Variable fallback : string.
Variable provider : Provider.
Hypothesis provider_call : isTimer call = false.

Local Abbreviation fn := (WaitingRoom.attempt call result fallback).
Local Abbreviation ok n := (Sdk.success (result (provider n call))).

Lemma providerCalls_call_pause awaited (ms : Z) :
  providerCalls (awaited ++ [call; sleep ms]) = S (providerCalls awaited).
Proof.
  rewrite providerCalls_app. unfold providerCalls at 2. cbn.
  rewrite provider_call. cbn. lia.
Qed.

Lemma runFrom_retryLoop_fulfilled maxRetries baseDelay (k : nat) :
  ∀ remaining attempt lastError awaited,
    k < remaining → attempt + k ≤ maxRetries →
    (∀ i, i < k → ok (providerCalls awaited + i) = false) →
    ok (providerCalls awaited + k) = true →
    runFrom (Utils.retryLoop fn maxRetries baseDelay remaining attempt lastError)
      provider awaited
    = (Fulfilled tt, awaited ++ scheduleFrom call baseDelay attempt k).
Proof.
  induction k as [|k IH]; intros remaining attempt lastError awaited Hk Hbudget Hfail Hok;
    (destruct remaining as [|remaining]; [lia|]);
    cbn [Utils.retryLoop]; rewrite runFrom_bind, runFrom_attempt;
    cbn [fst snd].
  - rewrite Nat.add_0_r in Hok. rewrite Hok. reflexivity.
  - pose proof (Hfail 0 ltac:(lia)) as Hfirst. rewrite Nat.add_0_r in Hfirst.
    rewrite Hfirst. rewrite runFrom_bind.
    replace (Nat.ltb attempt maxRetries) with true
      by (symmetry; apply Nat.ltb_lt; lia).
    cbn [await runFrom fst snd]. rewrite <- app_assoc. cbn [app].
    rewrite IH.
    + rewrite <- app_assoc. reflexivity.
    + lia.
    + lia.
    + intros i Hi. rewrite providerCalls_call_pause.
      replace (S (providerCalls awaited) + i) with (providerCalls awaited + S i) by lia.
      apply Hfail. lia.
    + rewrite providerCalls_call_pause.
      replace (S (providerCalls awaited) + k) with (providerCalls awaited + S k) by lia.
      exact Hok.
Qed.

Lemma retryLoop_step {T : Type} (body : Promise (Outcome T)) maxRetries baseDelay
    remaining attempt lastError :
  Utils.retryLoop body maxRetries baseDelay (S remaining) attempt lastError =
    (body ≫= λ r,
      match r with
      | Fulfilled t => Resolve (Fulfilled t)
      | Rejected error =>
          (if Nat.ltb attempt maxRetries
           then await (sleep (baseDelay * 3 ^ Z.of_nat attempt))
           else Resolve tt)
          ≫= λ _, Utils.retryLoop body maxRetries baseDelay remaining (S attempt) error
      end).
Proof. reflexivity. Qed.

Lemma runFrom_retryLoop_rejected maxRetries baseDelay :
  ∀ remaining attempt lastError awaited,
    attempt + remaining = maxRetries →
    (∀ i, i ≤ remaining → ok (providerCalls awaited + i) = false) →
    runFrom (Utils.retryLoop fn maxRetries baseDelay (S remaining) attempt lastError)
      provider awaited
    = (Rejected (thrownFor (result (provider (providerCalls awaited + remaining) call))
                   fallback),
       awaited ++ scheduleFrom call baseDelay attempt remaining).
Proof.
  induction remaining as [|remaining IH]; intros attempt lastError awaited Hbudget Hfail;
    rewrite retryLoop_step, runFrom_bind, runFrom_attempt;
    cbn [fst snd];
    pose proof (Hfail 0 ltac:(lia)) as Hfirst; rewrite Nat.add_0_r in Hfirst;
    rewrite Hfirst; rewrite runFrom_bind.
  - replace (Nat.ltb attempt maxRetries) with false
      by (symmetry; apply Nat.ltb_ge; lia).
    cbn. rewrite Nat.add_0_r. reflexivity.
  - replace (Nat.ltb attempt maxRetries) with true
      by (symmetry; apply Nat.ltb_lt; lia).
    cbn [await runFrom fst snd]. rewrite <- app_assoc. cbn [app].
    rewrite IH.
    + rewrite providerCalls_call_pause, <- app_assoc.
      replace (S (providerCalls awaited) + remaining)
        with (providerCalls awaited + S remaining) by lia.
      reflexivity.
    + lia.
    + intros i Hi. rewrite providerCalls_call_pause.
      replace (S (providerCalls awaited) + i) with (providerCalls awaited + S i) by lia.
      apply Hfail. lia.
Qed.

Lemma run_retryWithBackoff_rejected maxRetries baseDelay :
  (∀ i, i ≤ maxRetries → ok i = false) →
  run (Utils.retryWithBackoff fn maxRetries baseDelay) provider
  = (Rejected (thrownFor (result (provider maxRetries call)) fallback),
     schedule call baseDelay maxRetries).
Proof.
  intros Hfail. unfold run, Utils.retryWithBackoff, schedule.
  rewrite (runFrom_retryLoop_rejected maxRetries baseDelay maxRetries 0);
    [reflexivity|lia|exact Hfail].
Qed.

End Schedule.

(** X8.  [retryWithBackoff] around a provider call makes at most
    [maxRetries + 1] attempts.  When the call fails [k] times, [k] within
    the budget, and then succeeds, it is fulfilled after [k + 1] calls with a
    pause of [baseDelay * 3 ^ i] after the failure number [i].  When all
    [maxRetries + 1] attempts fail it is rejected with the error of the last
    answer, and no pause follows the last attempt. *)
Theorem retryWithBackoff_schedule (call : Async.Call)
    (result : Async.Response call → Sdk.CallResult) (fallback : string)
    (provider : Async.Provider) (maxRetries : nat) (baseDelay : Z) :
  Async.isTimer call = false →
  (∀ k, k ≤ maxRetries →
     (∀ i, i < k → Sdk.success (result (provider i call)) = false) →
     Sdk.success (result (provider k call)) = true →
     Async.run (Utils.retryWithBackoff (WaitingRoom.attempt call result fallback)
                  maxRetries baseDelay) provider
     = (Async.Fulfilled tt, schedule call baseDelay k)) ∧
  ((∀ i, i ≤ maxRetries → Sdk.success (result (provider i call)) = false) →
   Async.run (Utils.retryWithBackoff (WaitingRoom.attempt call result fallback)
                maxRetries baseDelay) provider
   = (Async.Rejected (thrownFor (result (provider maxRetries call)) fallback),
      schedule call baseDelay maxRetries)).
Proof.
  intros Htimer. unfold Async.run, Utils.retryWithBackoff, schedule. split.
  - intros k Hk Hfail Hok.
    rewrite (runFrom_retryLoop_fulfilled call result fallback provider Htimer
               maxRetries baseDelay k); [reflexivity|lia|lia|exact Hfail|exact Hok].
  - intros Hfail. fold (Async.run (Utils.retryWithBackoff
                               (WaitingRoom.attempt call result fallback)
                               maxRetries baseDelay) provider).
    apply (run_retryWithBackoff_rejected call result fallback provider Htimer). exact Hfail.
Qed.

Lemma retryWithBackoff_schedule_witness :
  (∀ k, k ≤ 3 →
     (∀ i, i < k → Sdk.success (flaky 2 [] i (Async.moveToWaitingRoom "p1")) = false) →
     Sdk.success (flaky 2 [] k (Async.moveToWaitingRoom "p1")) = true →
     Async.run (Utils.retryWithBackoff
                  (WaitingRoom.attempt (Async.moveToWaitingRoom "p1") (λ x, x) "failed")
                  3 300) (flaky 2 [])
     = (Async.Fulfilled tt, schedule (Async.moveToWaitingRoom "p1") 300 k)) ∧
  ((∀ i, i ≤ 3 → Sdk.success (flaky 2 [] i (Async.moveToWaitingRoom "p1")) = false) →
   Async.run (Utils.retryWithBackoff
                (WaitingRoom.attempt (Async.moveToWaitingRoom "p1") (λ x, x) "failed")
                3 300) (flaky 2 [])
   = (Async.Rejected (thrownFor (flaky 2 [] 3 (Async.moveToWaitingRoom "p1")) "failed"),
      schedule (Async.moveToWaitingRoom "p1") 300 3)).
Proof.
  apply (retryWithBackoff_schedule (Async.moveToWaitingRoom "p1") (λ x, x) "failed"
           (flaky 2 []) 3 300).
  reflexivity.
Defined.

(** X9.  A move or an admit whose provider call fails on all four attempts
    is reported with success = false, the retry budget as its retry count
    and the error of the fourth answer (the fallback text when that answer
    names none); its calls are the four attempts with pauses of 300, 900
    and 2700 ms between them. *)
Theorem exhausted_operation_reports_last_error :
  (∀ (p : ParticipantWithEmail) (provider : Async.Provider),
     (∀ i, i ≤ 3 →
        Sdk.success (provider i (Async.moveToWaitingRoom (participantUUID p))) = false) →
     Async.run (WaitingRoom.moveParticipant p) provider =
       ({| Op.participantUUID := participantUUID p; Op.success := false;
           Op.error :=
             Some (Js.orElse
                     (Sdk.error (provider 3 (Async.moveToWaitingRoom (participantUUID p))))
                     "Failed to move participant");
           Op.retryCount := 3 |},
        [ Async.moveToWaitingRoom (participantUUID p); Async.sleep 300;
          Async.moveToWaitingRoom (participantUUID p); Async.sleep 900;
          Async.moveToWaitingRoom (participantUUID p); Async.sleep 2700;
          Async.moveToWaitingRoom (participantUUID p) ])) ∧
  (∀ (waitingRoomUUIDs : gset string) (uuid : string) (provider : Async.Provider),
     uuid ∈ waitingRoomUUIDs →
     (∀ i, i ≤ 3 → Sdk.success (provider i (Async.admitFromWaitingRoom uuid)) = false) →
     Async.run (WaitingRoom.admitParticipant waitingRoomUUIDs uuid) provider =
       ({| Op.participantUUID := uuid; Op.success := false;
           Op.error :=
             Some (Js.orElse (Sdk.error (provider 3 (Async.admitFromWaitingRoom uuid)))
                     "Failed to admit participant");
           Op.retryCount := 3 |},
        [ Async.admitFromWaitingRoom uuid; Async.sleep 300;
          Async.admitFromWaitingRoom uuid; Async.sleep 900;
          Async.admitFromWaitingRoom uuid; Async.sleep 2700;
          Async.admitFromWaitingRoom uuid ])).
Proof.
  split.
  - intros p provider Hfail. unfold Async.run, WaitingRoom.moveParticipant.
    rewrite runFrom_bind.
    pose proof (run_retryWithBackoff_rejected (Async.moveToWaitingRoom (participantUUID p))
                  (λ x, x) "Failed to move participant" provider eq_refl
                  WaitingRoom.MAX_RETRIES WaitingRoom.BASE_DELAY Hfail) as Hrejected.
    unfold Async.run in Hrejected. rewrite Hrejected. reflexivity.
  - intros waitingRoomUUIDs uuid provider Hin Hfail.
    unfold Async.run, WaitingRoom.admitParticipant.
    rewrite bool_decide_eq_true_2 by assumption. cbn [negb].
    rewrite runFrom_bind.
    pose proof (run_retryWithBackoff_rejected (Async.admitFromWaitingRoom uuid)
                  (λ x, x) "Failed to admit participant" provider eq_refl
                  WaitingRoom.MAX_RETRIES WaitingRoom.BASE_DELAY Hfail) as Hrejected.
    unfold Async.run in Hrejected. rewrite Hrejected. reflexivity.
Qed.

(* ===================================================================== *)
(** * Progress and termination of processBatch                            *)
(* ===================================================================== *)

Section Progress.
Import Async.
Context {T R : Type}.
Variable items : list T.
Variable processor : T → Promise R.
Variable concurrency : nat.
Variable providers : nat → Provider.
Hypothesis positive : 0 < concurrency.

Local Abbreviation total := (length items).

(** The number of chunks that start at position [i] or later. *)
Local Abbreviation chunksFrom i := ((total - i + concurrency - 1) / concurrency).

Lemma chunksFrom_done i : total ≤ i → chunksFrom i = 0.
Proof.
  intros Hi. replace (total - i + concurrency - 1) with (concurrency - 1) by lia.
  apply Nat.div_small. lia.
Qed.

Lemma chunksFrom_step i : i < total → chunksFrom i = S (chunksFrom (i + concurrency)).
Proof.
  intros Hi. destruct (le_lt_dec (i + concurrency) total) as [Hfull|Hlast].
  - replace (total - i + concurrency - 1)
      with (total - (i + concurrency) + concurrency - 1 + 1 * concurrency) by lia.
    rewrite Nat.div_add by lia. lia.
  - rewrite (chunksFrom_done (i + concurrency)) by lia.
    assert (Hone : (total - i + concurrency - 1) / concurrency = 1); [|lia].
    symmetry. apply (Nat.div_unique _ _ 1 (total - i - 1)); lia.
Qed.

Lemma processBatchLoop_progress fuel i acc reported awaited :
  total - i ≤ fuel →
  ∃ r, Utils.processBatchLoop fuel items processor concurrency providers
         i acc (Nat.min i total) reported awaited = Some r ∧
       Utils.progress r =
         reported ++ ((λ m, (Nat.min (i + m * concurrency) total, total))
                        <$> seq 1 (chunksFrom i)).
Proof.
  revert i acc reported awaited.
  induction fuel as [|fuel IH]; intros i acc reported awaited Hfuel;
    cbn [Utils.processBatchLoop]; destruct (Nat.ltb i total) eqn:Hi.
  - apply Nat.ltb_lt in Hi. lia.
  - apply Nat.ltb_ge in Hi. rewrite chunksFrom_done by assumption. cbn.
    rewrite app_nil_r. eauto.
  - apply Nat.ltb_lt in Hi.
    assert (Hchunk : Nat.min i total + length (Utils.slice items i (i + concurrency))
                     = Nat.min (i + concurrency) total).
    { unfold Utils.slice. rewrite length_take, length_drop. lia. }
    rewrite Hchunk.
    destruct (IH (i + concurrency)
                (acc ++ (imap (λ j item, run (processor item) (providers (i + j)))
                           (Utils.slice items i (i + concurrency))).*1)
                (reported ++ [(Nat.min (i + concurrency) total, total)])
                (awaited ++ (imap (λ j item, run (processor item) (providers (i + j)))
                               (Utils.slice items i (i + concurrency))).*2))
      as (r & Hr & Hprogress); [lia|].
    exists r. split; [exact Hr|]. rewrite Hprogress, (chunksFrom_step i) by assumption.
    rewrite <- app_assoc. f_equal. cbn [seq fmap list_fmap app].
    f_equal; [f_equal; f_equal; lia|].
    rewrite <- (fmap_S_seq 1), <- list_fmap_compose. apply list_fmap_ext.
    intros _ m _. cbn. f_equal. f_equal. lia.
  - apply Nat.ltb_ge in Hi. rewrite chunksFrom_done by assumption. cbn.
    rewrite app_nil_r. eauto.
Qed.

End Progress.

(** X10.  With a positive concurrency [processBatch] reports progress once per
    chunk: the report number [m] is the number of items of the first [m]
    chunks, capped at the total, together with the total.  An empty list
    gives no report, and the last report of a non-empty one is (total,
    total). *)
Theorem processBatch_progress (T R : Type) (items : list T)
    (processor : T → Async.Promise R) (concurrency : nat)
    (providers : nat → Async.Provider) :
  0 < concurrency →
  ∃ r, Utils.processBatch items processor concurrency providers = Some r ∧
       Utils.progress r =
         (λ m, (Nat.min (m * concurrency) (length items), length items))
           <$> seq 1 ((length items + concurrency - 1) / concurrency) ∧
       (items = [] → Utils.progress r = []) ∧
       (items ≠ [] → last (Utils.progress r) = Some (length items, length items)).
Proof.
  intros Hpos. unfold Utils.processBatch.
  destruct (processBatchLoop_progress items processor concurrency providers Hpos
              (length items) 0 [] [] []) as (r & Hr & Hprogress); [lia|].
  cbn [Nat.min] in Hr. exists r. split; [exact Hr|].
  rewrite Hprogress. cbn [app]. rewrite Nat.sub_0_r. cbn [Nat.add].
  split; [reflexivity|]. split.
  - intros ->. cbn. rewrite Nat.div_small by lia. reflexivity.
  - intros Hitems.
    assert (Hlen : 0 < length items) by (destruct items; [contradiction|cbn; lia]).
    set (chunks := (length items + concurrency - 1) / concurrency).
    assert (Hchunks : 0 < chunks ∧ length items ≤ chunks * concurrency).
    { subst chunks.
      pose proof (Nat.div_mod_eq (length items + concurrency - 1) concurrency) as Hdm.
      pose proof (Nat.mod_upper_bound (length items + concurrency - 1) concurrency
                    ltac:(lia)) as Hmod.
      split; [|nia].
      apply Nat.div_str_pos. lia. }
    destruct Hchunks as [Hpos' Hcover].
    destruct chunks as [|k]; [lia|].
    rewrite seq_S, fmap_app. cbn [fmap list_fmap]. rewrite last_snoc.
    f_equal. f_equal. lia.
Qed.

Lemma processBatch_progress_witness :
  ∃ r, Utils.processBatch [participant "p1"; participant "p2"; participant "p3"]
         WaitingRoom.moveParticipant 2 (λ _, flaky 0 []) = Some r ∧
       Utils.progress r =
         (λ m, (Nat.min (m * 2) 3, 3)) <$> seq 1 ((3 + 2 - 1) / 2) ∧
       ([participant "p1"; participant "p2"; participant "p3"] = [] →
          Utils.progress r = []) ∧
       ([participant "p1"; participant "p2"; participant "p3"] ≠ [] →
          last (Utils.progress r) = Some (3, 3)).
Proof.
  apply (processBatch_progress ParticipantWithEmail Op.OperationResult
           [participant "p1"; participant "p2"; participant "p3"]
           WaitingRoom.moveParticipant 2 (λ _, flaky 0 [])).
  lia.
Defined.

(** X11.  With a concurrency of 0 the loop of [processBatch] makes no
    progress on a non-empty list: however many iterations it is given, it
    has not ended. *)
Theorem processBatch_zero_concurrency (T R : Type) (items : list T)
    (processor : T → Async.Promise R) (providers : nat → Async.Provider)
    (fuel : nat) :
  items ≠ [] →
  Utils.processBatchLoop fuel items processor 0 providers 0 [] 0 [] [] = None ∧
  Utils.processBatch items processor 0 providers = None.
Proof.
  intros Hitems.
  assert (Hloop : ∀ fuel acc completed reported awaited,
            Utils.processBatchLoop fuel items processor 0 providers
              0 acc completed reported awaited = None).
  { intros n. induction n as [|n IH]; intros acc completed reported awaited;
      cbn [Utils.processBatchLoop];
      (destruct (Nat.ltb 0 (length items)) eqn:Hlt;
       [|apply Nat.ltb_ge in Hlt; destruct items; [contradiction|cbn in Hlt; lia]]).
    - reflexivity.
    - apply IH. }
  split; [apply Hloop|apply Hloop].
Qed.

Lemma processBatch_zero_concurrency_witness :
  Utils.processBatchLoop 100 [participant "p1"] WaitingRoom.moveParticipant 0
    (λ _, flaky 0 []) 0 [] 0 [] [] = None ∧
  Utils.processBatch [participant "p1"] WaitingRoom.moveParticipant 0
    (λ _, flaky 0 []) = None.
Proof.
  apply (processBatch_zero_concurrency ParticipantWithEmail Op.OperationResult
           [participant "p1"] WaitingRoom.moveParticipant (λ _, flaky 0 []) 100).
  discriminate.
Defined.

(* ===================================================================== *)
(** * The stored copy of the rounds                                       *)
(* ===================================================================== *)

Section StoredCopy.

(** What is loaded depends on the stored item alone. *)
Lemma loadPersistedState_storage (w w' : Store.World) :
  Store.storage w' = Store.storage w →
  (Store.loadPersistedState w').1 = (Store.loadPersistedState w).1.
Proof.
  intros Hstorage. run_store. cbn -[Store.forEach]. rewrite Hstorage.
  destruct (Store.storage w); reflexivity.
Qed.

Lemma loadPersistedState_saveState (w : Store.World) (s : Store.AppState) :
  valid s →
  (Store.loadPersistedState (Store.exec (Store.saveState s) w)).1 = Some (modelOf s).
Proof.
  intros (Hrounds & Hnames & Hactive & Hids).
  run_store. unfold modelOf. cbn -[Store.forEach]. f_equal. f_equal.
  - apply (saved_loaded (Store.parsedRounds s) (λ _ emails, elements emails)
             (λ _ emails, list_to_set emails)); [assumption|].
    intros k emails _. apply list_to_set_elements_L.
  - apply (saved_loaded (Store.emailToName s) (λ _ name, name) (λ _ name, name));
      [assumption|reflexivity].
  - apply (saved_loaded (Store.activeRounds s) (λ _ roundState, Store.roundRecord roundState)
             Store.roundStateOf); [assumption|].
    intros k [rid moved started ended movedN admittedN] Hk. apply Hids in Hk.
    cbn in Hk. unfold Store.roundStateOf, Store.roundRecord. cbn.
    rewrite list_to_set_elements_L. congruence.
Qed.

(** A world whose stored item was written by [saveState] for a valid state
    with the persisted fields of the present one is in sync. *)
Lemma inSync_saved (w' w1 : Store.World) (s1 : Store.AppState) :
  valid s1 →
  Store.storage w' = Store.storage (Store.exec (Store.saveState s1) w1) →
  modelOf (Store.state w') = modelOf s1 →
  inSync w'.
Proof.
  intros Hvalid Hstorage Hmodel. unfold inSync.
  rewrite (loadPersistedState_storage _ _ Hstorage), Hmodel.
  apply loadPersistedState_saveState. exact Hvalid.
Qed.

Lemma inSync_kept (w w' : Store.World) :
  Store.storage w' = Store.storage w →
  modelOf (Store.state w') = modelOf (Store.state w) →
  inSync w → inSync w'.
Proof.
  unfold inSync. intros Hstorage Hmodel Hsync.
  rewrite (loadPersistedState_storage _ _ Hstorage), Hmodel. exact Hsync.
Qed.

Lemma valid_withActiveRounds (s : Store.AppState) (rounds : gmap string Store.RoundState) :
  valid s →
  rounds !! "__proto__" = None →
  map_Forall (λ roundId roundState, Store.roundId roundState = roundId) rounds →
  valid (Store.withActiveRounds rounds s).
Proof. intros (Hrounds & Hnames & _ & _) Hproto Hids. repeat split; assumption. Qed.

Lemma valid_insert_round (s : Store.AppState) (roundId : string)
    (roundState : Store.RoundState) :
  valid s → roundId ≠ "__proto__" → Store.roundId roundState = roundId →
  valid (Store.withActiveRounds (<[roundId := roundState]> (Store.activeRounds s)) s).
Proof.
  intros Hvalid Hname Hid. apply valid_withActiveRounds; [assumption| |].
  - rewrite lookup_insert_ne by assumption. apply Hvalid.
  - apply map_Forall_insert_2; [assumption|apply Hvalid].
Qed.

Lemma round_of_valid (s : Store.AppState) (roundId : string) (roundState : Store.RoundState) :
  valid s → Store.activeRounds s !! roundId = Some roundState →
  Store.roundId roundState = roundId ∧ roundId ≠ "__proto__".
Proof.
  intros (_ & _ & Hproto & Hids) Hround. split; [exact (Hids _ _ Hround)|].
  intros ->. congruence.
Qed.

Lemma perform_keeps (a : Action) (w : Store.World) :
  admissible a → valid (Store.state w) →
  valid (Store.state (Store.exec (perform a) w)) ∧
  (inSync w ∨ saves a = true → inSync (Store.exec (perform a) w)).
Proof.
  intros Hadm Hvalid.
  destruct a as [newRounds|names|selected|flag|flag|entry|roundId|roundId|roundId uuid
                |roundId moved admitted|roundId|participants| |uuid address
                |uuid address|uuid];
    cbn [admissible saves perform] in *.
  - (* setParsedRounds *)
    assert (Hnew : valid (Store.withParsedRounds newRounds (Store.state w))).
    { destruct Hvalid as (_ & ? & ? & ?). repeat split; assumption. }
    split; [exact Hnew|]. intros _.
    apply (inSync_saved _ (Store.exec (Store.set (Store.withParsedRounds newRounds)) w)
             _ Hnew); reflexivity.
  - (* setEmailToName *)
    assert (Hnew : valid (Store.withEmailToName names (Store.state w))).
    { destruct Hvalid as (? & _ & ? & ?). repeat split; assumption. }
    split; [exact Hnew|]. intros _.
    apply (inSync_saved _ (Store.exec (Store.set (Store.withEmailToName names)) w)
             _ Hnew); reflexivity.
  - (* setSelectedRoundId *)
    assert (Hnew : valid (Store.withSelectedRoundId selected (Store.state w))).
    { exact Hvalid. }
    split; [exact Hnew|]. intros _.
    apply (inSync_saved _ (Store.exec (Store.set (Store.withSelectedRoundId selected)) w)
             _ Hnew); reflexivity.
  - (* setIsProcessing *)
    split; [exact Hvalid|]. intros [Hsync|?]; [|discriminate].
    revert Hsync. apply inSync_kept; reflexivity.
  - (* setFallbackMode *)
    split; [exact Hvalid|]. intros [Hsync|?]; [|discriminate].
    revert Hsync. apply inSync_kept; reflexivity.
  - (* addActionLog *)
    split; [exact Hvalid|]. intros [Hsync|?]; [|discriminate].
    revert Hsync. apply inSync_kept; reflexivity.
  - (* startRound *)
    set (roundState :=
           match Store.activeRounds (Store.state w) !! roundId with
           | Some roundState => Store.restarted (Store.times w 0) roundState
           | None => freshRound roundId (Store.times w 0)
           end).
    assert (Hnew : valid (Store.withActiveRounds
                            (<[roundId := roundState]> (Store.activeRounds (Store.state w)))
                            (Store.state w))).
    { apply valid_insert_round; [assumption..|]. subst roundState.
      destruct (Store.activeRounds (Store.state w) !! roundId) as [r|] eqn:Hround;
        [|reflexivity].
      apply (round_of_valid _ _ _ Hvalid Hround). }
    rewrite startRound_state. fold roundState. split; [exact Hnew|]. intros _.
    apply (inSync_saved _
             (Store.exec (Store.set (Store.withActiveRounds
                (<[roundId := roundState]> (Store.activeRounds (Store.state w)))))
                (Store.exec Store.Date_now w)) _ Hnew).
    + subst roundState. run_store.
      destruct (Store.activeRounds (Store.state w) !! roundId); reflexivity.
    + rewrite startRound_state. reflexivity.
  - (* endRound *)
    destruct (Store.activeRounds (Store.state w) !! roundId) as [roundState|] eqn:Hround.
    + destruct (round_of_valid _ _ _ Hvalid Hround) as [Hid Hname].
      assert (Hnew : valid (Store.withActiveRounds
                              (<[roundId := Store.ended (Store.times w 0) roundState]>
                                 (Store.activeRounds (Store.state w)))
                              (Store.state w))).
      { apply valid_insert_round; assumption. }
      rewrite (endRound_state _ _ _ Hround). split; [exact Hnew|]. intros _.
      apply (inSync_saved _
               (Store.exec (Store.set (Store.withActiveRounds
                  (<[roundId := Store.ended (Store.times w 0) roundState]>
                     (Store.activeRounds (Store.state w)))))
                  (Store.exec Store.Date_now w)) _ Hnew).
      * run_store. rewrite Hround. reflexivity.
      * rewrite (endRound_state _ _ _ Hround). reflexivity.
    + assert (Hstate : Store.state (Store.exec (Store.endRound roundId) w)
                       = Store.withActionLog
                           (Store.actionLog (Store.state w)
                              ++ [roundEntry Store.Log.end_round roundId w 0])
                           (Store.state w)).
      { run_store. rewrite Hround. reflexivity. }
      rewrite Hstate. split; [exact Hvalid|]. intros [Hsync|?]; [|discriminate].
      revert Hsync. apply inSync_kept.
      * run_store. rewrite Hround. reflexivity.
      * rewrite Hstate. reflexivity.
  - (* addMovedParticipant *)
    destruct (Store.activeRounds (Store.state w) !! roundId) as [roundState|] eqn:Hround.
    + destruct (round_of_valid _ _ _ Hvalid Hround) as [Hid _].
      set (roundState' :=
             {| Store.roundId := Store.roundId roundState;
                Store.movedParticipants :=
                  {[uuid]} ∪ Store.movedParticipants roundState;
                Store.startedAt := Store.startedAt roundState;
                Store.endedAt := Store.endedAt roundState;
                Store.movedCount := Store.movedCount roundState;
                Store.admittedCount := Store.admittedCount roundState |}).
      assert (Hnew : valid (Store.withActiveRounds
                              (<[roundId := roundState']> (Store.activeRounds (Store.state w)))
                              (Store.state w))).
      { apply valid_insert_round; assumption. }
      assert (Hstate : Store.state (Store.exec (Store.addMovedParticipant roundId uuid) w)
                       = Store.withActiveRounds
                           (<[roundId := roundState']> (Store.activeRounds (Store.state w)))
                           (Store.state w)).
      { run_store. rewrite Hround. reflexivity. }
      rewrite Hstate. split; [exact Hnew|]. intros _.
      apply (inSync_saved _
               (Store.exec (Store.set (Store.withActiveRounds
                  (<[roundId := roundState']> (Store.activeRounds (Store.state w))))) w)
               _ Hnew).
      * run_store. rewrite Hround. reflexivity.
      * rewrite Hstate. reflexivity.
    + assert (Hnew : valid (Store.withActiveRounds
                              (<[roundId := firstMoved roundId uuid (Store.times w 0)]>
                                 (Store.activeRounds (Store.state w)))
                              (Store.state w))).
      { apply valid_insert_round; [assumption..|reflexivity]. }
      assert (Hstate : Store.state (Store.exec (Store.addMovedParticipant roundId uuid) w)
                       = Store.withActiveRounds
                           (<[roundId := firstMoved roundId uuid (Store.times w 0)]>
                              (Store.activeRounds (Store.state w)))
                           (Store.state w)).
      { run_store. rewrite Hround. reflexivity. }
      rewrite Hstate. split; [exact Hnew|]. intros _.
      apply (inSync_saved _
               (Store.exec (Store.set (Store.withActiveRounds
                  (<[roundId := firstMoved roundId uuid (Store.times w 0)]>
                     (Store.activeRounds (Store.state w)))))
                  (Store.exec Store.Date_now w))
               _ Hnew).
      * run_store. rewrite Hround. reflexivity.
      * rewrite Hstate. reflexivity.
  - (* updateRoundStats *)
    destruct (Store.activeRounds (Store.state w) !! roundId) as [roundState|] eqn:Hround.
    + destruct (round_of_valid _ _ _ Hvalid Hround) as [Hid Hname].
      set (roundState' :=
             {| Store.roundId := Store.roundId roundState;
                Store.movedParticipants := Store.movedParticipants roundState;
                Store.startedAt := Store.startedAt roundState;
                Store.endedAt := Store.endedAt roundState;
                Store.movedCount := moved;
                Store.admittedCount := admitted |}).
      assert (Hnew : valid (Store.withActiveRounds
                              (<[roundId := roundState']> (Store.activeRounds (Store.state w)))
                              (Store.state w))).
      { apply valid_insert_round; assumption. }
      assert (Hstate : Store.state (Store.exec (Store.updateRoundStats roundId moved admitted) w)
                       = Store.withActiveRounds
                           (<[roundId := roundState']> (Store.activeRounds (Store.state w)))
                           (Store.state w)).
      { run_actions. rewrite Hround. reflexivity. }
      rewrite Hstate. split; [exact Hnew|]. intros _.
      apply (inSync_saved _
               (Store.exec (Store.set (Store.withActiveRounds
                  (<[roundId := roundState']> (Store.activeRounds (Store.state w))))) w)
               _ Hnew).
      * run_actions. rewrite Hround. reflexivity.
      * rewrite Hstate. reflexivity.
    + assert (Hworld : Store.exec (Store.updateRoundStats roundId moved admitted) w = w).
      { run_actions. rewrite Hround. reflexivity. }
      rewrite Hworld. split; [exact Hvalid|]. intros [Hsync|?]; [exact Hsync|discriminate].
  - (* clearRound *)
    assert (Hnew : valid (Store.withActiveRounds
                            (delete roundId (Store.activeRounds (Store.state w)))
                            (Store.state w))).
    { apply valid_withActiveRounds; [assumption| |].
      - apply lookup_delete_None. right. apply Hvalid.
      - apply map_Forall_delete, Hvalid. }
    split; [exact Hnew|]. intros _.
    apply (inSync_saved _
             (Store.exec (Store.set (Store.withActiveRounds
                (delete roundId (Store.activeRounds (Store.state w))))) w)
             _ Hnew); reflexivity.
  - (* setCachedParticipants *)
    split; [exact Hvalid|]. intros [Hsync|?]; [|discriminate].
    revert Hsync. apply inSync_kept; reflexivity.
  - (* clearCachedParticipants *)
    split; [exact Hvalid|]. intros [Hsync|?]; [|discriminate].
    revert Hsync. apply inSync_kept; reflexivity.
  - (* updateParticipantEmail *)
    assert (Hworld : Store.storage (Store.exec (Store.updateParticipantEmail uuid address) w)
                     = Store.storage w ∧
                     modelOf (Store.state (Store.exec (Store.updateParticipantEmail uuid address) w))
                     = modelOf (Store.state w) ∧
                     valid (Store.state (Store.exec (Store.updateParticipantEmail uuid address) w))).
    { run_actions. destruct (Store.cachedParticipants (Store.state w));
        (split; [reflexivity|split; [reflexivity|exact Hvalid]]). }
    destruct Hworld as (Hstorage & Hmodel & Hnew).
    split; [exact Hnew|]. intros [Hsync|?]; [|discriminate].
    revert Hsync. apply inSync_kept; assumption.
  - (* setEmailOverride *)
    split; [exact Hvalid|]. intros [Hsync|?]; [|discriminate].
    revert Hsync. apply inSync_kept; reflexivity.
  - (* removeEmailOverride *)
    split; [exact Hvalid|]. intros [Hsync|?]; [|discriminate].
    revert Hsync. apply inSync_kept; reflexivity.
Qed.

End StoredCopy.

(** X12.  Whatever actions of the store run, in whatever order, on a valid
    state (actions that file nothing under the name [__proto__]), the state
    stays valid; and once the stored item is in sync with the state, or as
    soon as one action that always saves has run, the stored item reloads to
    the session, rounds, names, round states and selection the store holds
    at the end. *)
Theorem store_actions_keep_stored_copy (actions : list Action) (w : Store.World) :
  Forall admissible actions →
  valid (Store.state w) →
  valid (Store.state (performAll actions w)) ∧
  (inSync w ∨ Exists (λ a, saves a = true) actions → inSync (performAll actions w)).
Proof.
  intros Hadm. revert w. induction Hadm as [|a actions Ha Hactions IH]; intros w Hvalid.
  - split; [exact Hvalid|]. intros [Hsync|Hnone]; [exact Hsync|]. inversion Hnone.
  - destruct (perform_keeps a w Ha Hvalid) as [Hvalid1 Hsync1].
    destruct (IH _ Hvalid1) as [Hvalid' Hsync'].
    change (performAll (a :: actions) w)
      with (performAll actions (Store.exec (perform a) w)).
    split; [exact Hvalid'|]. intros [Hsync|Hsaves].
    + apply Hsync'. left. apply Hsync1. left. exact Hsync.
    + apply Exists_cons in Hsaves as [Hsave|Hlater].
      * apply Hsync'. left. apply Hsync1. right. exact Hsave.
      * apply Hsync'. right. exact Hlater.
Qed.

Lemma store_actions_keep_stored_copy_witness :
  let actions := [SetEmailOverride "p3" " Carol@Example.com "; StartRound "r3";
                  AddMovedParticipant "r3" "p3"; EndRound "r3";
                  UpdateRoundStats "r3" 1 0; AddActionLog
                    {| Store.Log.fieldsType := Store.Log.parse_csv;
                       Store.Log.fieldsRoundId := None;
                       Store.Log.fieldsParticipantUUID := None;
                       Store.Log.fieldsDisplayName := None;
                       Store.Log.fieldsEmail := None;
                       Store.Log.fieldsStatus := Store.Log.success;
                       Store.Log.fieldsError := None;
                       Store.Log.fieldsRetryCount := None |}] in
  valid (Store.state (performAll actions sampleWorld)) ∧
  (inSync sampleWorld ∨ Exists (λ a, saves a = true) actions →
   inSync (performAll actions sampleWorld)).
Proof.
  intros actions. apply (store_actions_keep_stored_copy actions sampleWorld).
  - subst actions. repeat constructor; discriminate.
  - apply (bool_decide_unpack _). vm_compute. exact I.
Defined.

(* ===================================================================== *)
(** * Moved participants, cleared rounds and resets                       *)
(* ===================================================================== *)

Section MovedParticipants.
Variable w : Store.World.
Variable roundId participantUUID : string.

Local Abbreviation rounds := (Store.activeRounds (Store.state w)).

(** The record [addMovedParticipant] leaves for the round. *)
Local Abbreviation added :=
  (match rounds !! roundId with
   | Some roundState =>
       {| Store.roundId := Store.roundId roundState;
          Store.movedParticipants :=
            {[participantUUID]} ∪ Store.movedParticipants roundState;
          Store.startedAt := Store.startedAt roundState;
          Store.endedAt := Store.endedAt roundState;
          Store.movedCount := Store.movedCount roundState;
          Store.admittedCount := Store.admittedCount roundState |}
   | None => firstMoved roundId participantUUID (Store.times w 0)
   end).

Lemma addMovedParticipant_state :
  Store.state (Store.exec (Store.addMovedParticipant roundId participantUUID) w) =
    Store.withActiveRounds (<[roundId := added]> rounds) (Store.state w).
Proof.
  run_store. destruct (Store.activeRounds (Store.state w) !! roundId); reflexivity.
Qed.

End MovedParticipants.

(** X13.  [addMovedParticipant] adds the participant to the moved set of the
    round and nothing else: the other members stay, the other rounds and
    the other fields of the store (the action log included) are as before,
    and the counters and timestamps of an existing record are kept, so
    [movedCount] does not follow the moved set.  A round without a record
    gets one, started at the time of the call, with counters 0.  Adding the
    same participant again changes no round. *)
Theorem addMovedParticipant_adds_one (w : Store.World) (roundId participantUUID : string) :
  let w1 := Store.exec (Store.addMovedParticipant roundId participantUUID) w in
  movedSet roundId w1 = {[participantUUID]} ∪ movedSet roundId w ∧
  (∀ other, other ≠ roundId →
     Store.activeRounds (Store.state w1) !! other
       = Store.activeRounds (Store.state w) !! other) ∧
  (∀ roundState, Store.activeRounds (Store.state w) !! roundId = Some roundState →
     ∃ roundState1,
       Store.activeRounds (Store.state w1) !! roundId = Some roundState1 ∧
       Store.startedAt roundState1 = Store.startedAt roundState ∧
       Store.endedAt roundState1 = Store.endedAt roundState ∧
       Store.movedCount roundState1 = Store.movedCount roundState ∧
       Store.admittedCount roundState1 = Store.admittedCount roundState) ∧
  (Store.activeRounds (Store.state w) !! roundId = None →
     Store.activeRounds (Store.state w1) !! roundId
       = Some (firstMoved roundId participantUUID (Store.times w 0))) ∧
  sameSettings (Store.state w) (Store.state w1) ∧
  Store.actionLog (Store.state w1) = Store.actionLog (Store.state w) ∧
  Store.activeRounds
    (Store.state (Store.exec (Store.addMovedParticipant roundId participantUUID) w1))
    = Store.activeRounds (Store.state w1).
Proof.
  intros w1.
  assert (H1 := addMovedParticipant_state w roundId participantUUID). fold w1 in H1.
  assert (H2 := addMovedParticipant_state w1 roundId participantUUID).
  split; [|split; [|split; [|split; [|split; [|split]]]]].
  - rewrite !movedSet_lookup, H1. cbn. rewrite lookup_insert_eq.
    destruct (Store.activeRounds (Store.state w) !! roundId); cbn; [reflexivity|].
    symmetry. apply union_empty_r_L.
  - intros other Hother. rewrite H1. cbn. apply lookup_insert_ne. congruence.
  - intros roundState Hround. rewrite H1, Hround. cbn. rewrite lookup_insert_eq.
    eexists. split; [reflexivity|]. repeat split.
  - intros Hround. rewrite H1, Hround. cbn. apply lookup_insert_eq.
  - rewrite H1. repeat split.
  - rewrite H1. reflexivity.
  - rewrite H2. cbn. rewrite H1. cbn. rewrite lookup_insert_eq, insert_insert_eq.
    f_equal. destruct (Store.activeRounds (Store.state w) !! roundId); cbn.
    + f_equal. rewrite (assoc_L (∪)), union_idemp_L. reflexivity.
    + unfold firstMoved. f_equal. apply union_idemp_L.
Qed.

(** X14.  A round without a record: [endRound] creates none and writes
    nothing to the storage, yet appends an end_round entry with status
    success to the action log; [updateRoundStats] leaves the whole store as
    it is; [getMovedParticipants] gives the empty set. *)
Theorem actions_on_a_round_without_record (w : Store.World) (roundId : string)
    (movedCount admittedCount : Z) :
  Store.activeRounds (Store.state w) !! roundId = None →
  let ended := Store.exec (Store.endRound roundId) w in
  Store.activeRounds (Store.state ended) = Store.activeRounds (Store.state w) ∧
  Store.storage ended = Store.storage w ∧
  Store.actionLog (Store.state ended)
    = Store.actionLog (Store.state w) ++ [roundEntry Store.Log.end_round roundId w 0] ∧
  Store.exec (Store.updateRoundStats roundId movedCount admittedCount) w = w ∧
  movedSet roundId w = ∅.
Proof.
  intros Hround ended. subst ended. rewrite movedSet_lookup.
  run_actions. rewrite Hround. repeat split.
Qed.

Lemma actions_on_a_round_without_record_witness :
  let ended := Store.exec (Store.endRound "r9") sampleWorld in
  Store.activeRounds (Store.state ended) = Store.activeRounds (Store.state sampleWorld) ∧
  Store.storage ended = Store.storage sampleWorld ∧
  Store.actionLog (Store.state ended)
    = Store.actionLog (Store.state sampleWorld)
        ++ [roundEntry Store.Log.end_round "r9" sampleWorld 0] ∧
  Store.exec (Store.updateRoundStats "r9" 4 2) sampleWorld = sampleWorld ∧
  movedSet "r9" sampleWorld = ∅.
Proof.
  apply (actions_on_a_round_without_record sampleWorld "r9" 4 2).
  vm_compute. reflexivity.
Defined.

(** X15.  [clearRound] removes the record of the round and keeps the others:
    its moved set reads as empty afterwards, and a [startRound] that
    follows starts the round with an empty moved set and counters 0, where
    without the [clearRound] it would have kept them. *)
Theorem clearRound_forgets_round (w : Store.World) (roundId : string) :
  let cleared := Store.exec (Store.clearRound roundId) w in
  let restarted := Store.exec (Store.startRound roundId) cleared in
  Store.activeRounds (Store.state cleared) !! roundId = None ∧
  movedSet roundId cleared = ∅ ∧
  (∀ other, other ≠ roundId →
     Store.activeRounds (Store.state cleared) !! other
       = Store.activeRounds (Store.state w) !! other) ∧
  dom (Store.activeRounds (Store.state cleared))
    = dom (Store.activeRounds (Store.state w)) ∖ {[roundId]} ∧
  Store.actionLog (Store.state cleared) = Store.actionLog (Store.state w) ∧
  Store.activeRounds (Store.state restarted) !! roundId
    = Some (freshRound roundId (Store.times w 1)) ∧
  movedSet roundId restarted = ∅.
Proof.
  intros cleared restarted.
  assert (Hcleared : Store.state cleared
                     = Store.withActiveRounds
                         (delete roundId (Store.activeRounds (Store.state w)))
                         (Store.state w)) by reflexivity.
  assert (Hnone : Store.activeRounds (Store.state cleared) !! roundId = None).
  { rewrite Hcleared. cbn. apply lookup_delete_eq. }
  assert (Hrestarted : Store.activeRounds (Store.state restarted) !! roundId
                       = Some (freshRound roundId (Store.times w 1))).
  { subst restarted. rewrite startRound_state, Hnone. cbn. apply lookup_insert_eq. }
  split; [exact Hnone|]. split; [rewrite movedSet_lookup, Hnone; reflexivity|].
  split; [|split; [|split; [|split]]].
  - intros other Hother. rewrite Hcleared. cbn. apply lookup_delete_ne. congruence.
  - rewrite Hcleared. cbn. apply dom_delete_L.
  - rewrite Hcleared. reflexivity.
  - exact Hrestarted.
  - rewrite movedSet_lookup, Hrestarted. reflexivity.
Qed.

Section Reset.
Variable w : Store.World.

(** The state [createInitialState] builds from what was loaded. *)
Lemma resetState_storage : Store.storage (Store.exec Store.resetState w) = None.
Proof.
  run_actions. cbn -[Store.forEach]. destruct (Store.storage w) as [doc|]; cbn -[Store.forEach].
  - destruct (Js.truthy (Store.Persisted.sessionId doc)); reflexivity.
  - reflexivity.
Qed.

Lemma resetState_state_loaded (loaded : Store.Loaded) :
  (Store.loadPersistedState w).1 = Some loaded →
  Store.state (Store.exec Store.resetState w) =
    {| Store.sessionId :=
         Store.uuids w (if Js.truthy (Store.loadedSessionId loaded) then 0 else 1);
       Store.parsedRounds := Store.loadedParsedRounds loaded;
       Store.emailToName := Store.loadedEmailToName loaded;
       Store.activeRounds := Store.loadedActiveRounds loaded;
       Store.actionLog := [];
       Store.selectedRoundId :=
         match Store.loadedSelectedRoundId loaded with
         | Some roundId => if Js.truthy roundId then Some roundId else None
         | None => None
         end;
       Store.isProcessing := false;
       Store.fallbackMode := false;
       Store.cachedParticipants := None;
       Store.lastEmailFetchTime := None;
       Store.emailOverrides := ∅ |}.
Proof.
  run_actions. cbn -[Store.forEach]. destruct (Store.storage w) as [doc|]; [|discriminate].
  cbn -[Store.forEach]. intros [= <-]. cbn -[Store.forEach].
  destruct (Js.truthy (Store.Persisted.sessionId doc)); reflexivity.
Qed.

Lemma resetState_state_empty :
  Store.storage w = None →
  Store.state (Store.exec Store.resetState w) =
    {| Store.sessionId := Store.uuids w 1;
       Store.parsedRounds := ∅; Store.emailToName := ∅; Store.activeRounds := ∅;
       Store.actionLog := []; Store.selectedRoundId := None;
       Store.isProcessing := false; Store.fallbackMode := false;
       Store.cachedParticipants := None; Store.lastEmailFetchTime := None;
       Store.emailOverrides := ∅ |}.
Proof. intros Hstorage. run_actions. rewrite Hstorage. reflexivity. Qed.

End Reset.

(** X16.  [resetState] on a store whose stored item is in sync does not
    clear the rounds: it rebuilds the state from the stored item before it
    removes the item, so the parsed rounds, the names, the round states
    with their moved sets and the selected round survive, while the session
    identifier is new and the action log, the cache and the manual email
    associations are emptied.  The stored item is gone afterwards, so a
    second [resetState] leaves no round. *)
Theorem resetState_keeps_stored_rounds (w : Store.World) :
  inSync w →
  let once := Store.exec Store.resetState w in
  let twice := Store.exec Store.resetState once in
  (Store.parsedRounds (Store.state once) = Store.parsedRounds (Store.state w) ∧
   Store.emailToName (Store.state once) = Store.emailToName (Store.state w) ∧
   Store.activeRounds (Store.state once) = Store.activeRounds (Store.state w) ∧
   ∀ roundId, movedSet roundId once = movedSet roundId w) ∧
  (Store.sessionId (Store.state once)
     = Store.uuids w (if Js.truthy (Store.sessionId (Store.state w)) then 0 else 1) ∧
   Store.actionLog (Store.state once) = [] ∧
   Store.cachedParticipants (Store.state once) = None ∧
   Store.emailOverrides (Store.state once) = ∅ ∧
   Store.storage once = None) ∧
  (Store.parsedRounds (Store.state twice) = ∅ ∧
   Store.emailToName (Store.state twice) = ∅ ∧
   Store.activeRounds (Store.state twice) = ∅ ∧
   Store.selectedRoundId (Store.state twice) = None ∧
   Store.storage twice = None).
Proof.
  intros Hsync once twice.
  assert (Honce := resetState_state_loaded w _ Hsync). fold once in Honce.
  assert (Hgone := resetState_storage w). fold once in Hgone.
  assert (Htwice := resetState_state_empty once Hgone). fold twice in Htwice.
  split; [|split].
  - rewrite Honce. cbn. repeat split. intros roundId.
    rewrite !movedSet_lookup, Honce. reflexivity.
  - rewrite Honce. cbn. repeat split. exact Hgone.
  - rewrite Htwice. cbn. repeat split. apply resetState_storage.
Qed.

Lemma resetState_keeps_stored_rounds_witness :
  let once := Store.exec Store.resetState savedWorld in
  let twice := Store.exec Store.resetState once in
  (Store.parsedRounds (Store.state once) = Store.parsedRounds (Store.state savedWorld) ∧
   Store.emailToName (Store.state once) = Store.emailToName (Store.state savedWorld) ∧
   Store.activeRounds (Store.state once) = Store.activeRounds (Store.state savedWorld) ∧
   ∀ roundId, movedSet roundId once = movedSet roundId savedWorld) ∧
  (Store.sessionId (Store.state once)
     = Store.uuids savedWorld
         (if Js.truthy (Store.sessionId (Store.state savedWorld)) then 0 else 1) ∧
   Store.actionLog (Store.state once) = [] ∧
   Store.cachedParticipants (Store.state once) = None ∧
   Store.emailOverrides (Store.state once) = ∅ ∧
   Store.storage once = None) ∧
  (Store.parsedRounds (Store.state twice) = ∅ ∧
   Store.emailToName (Store.state twice) = ∅ ∧
   Store.activeRounds (Store.state twice) = ∅ ∧
   Store.selectedRoundId (Store.state twice) = None ∧
   Store.storage twice = None).
Proof.
  apply (resetState_keeps_stored_rounds savedWorld).
  vm_compute. reflexivity.
Defined.

(* ===================================================================== *)
(** * Properties of the breakout room operations                          *)
(* ===================================================================== *)

Section BreakoutRuns.
Import Breakout.
Variable provider : Provider.

Lemma breakout_runFrom_bind {A R : Type} (m : Promise A) (f : A → Promise R) awaited :
  runFrom (m ≫= f) provider awaited =
    runFrom (f (runFrom m provider awaited).1) provider (runFrom m provider awaited).2.
Proof.
  revert awaited. induction m as [a|c k IH]; intros awaited; cbn.
  - reflexivity.
  - apply IH.
Qed.

Lemma breakout_runFrom_await {R : Type} (c : Call) (k : Response c → Promise R) awaited :
  runFrom (await c ≫= k) provider awaited =
    runFrom (k (provider (length awaited) c)) provider (awaited ++ [c]).
Proof. reflexivity. Qed.

Section Assign.
Variable breakoutRoomId participantUUID displayName : string.

Local Abbreviation call := (assignParticipantToBreakoutRoom breakoutRoomId participantUUID).
Local Abbreviation answer n := (provider n call).

Lemma assignFrom_step remaining retryCount awaited :
  runFrom (BreakoutRoom.assignFrom remaining breakoutRoomId participantUUID displayName
             retryCount) provider awaited =
    if Sdk.success (answer (length awaited)) then
      ({| Op.participantUUID := participantUUID; Op.success := true;
          Op.error := None; Op.retryCount := retryCount |}, awaited ++ [call])
    else
      match remaining with
      | S remaining' =>
          runFrom (BreakoutRoom.assignFrom remaining' breakoutRoomId participantUUID
                     displayName (S retryCount)) provider
            (awaited ++ [call; delay (BreakoutRoom.RETRY_DELAY_MS
                                        * (Z.of_nat retryCount + 1))])
      | 0 =>
          ({| Op.participantUUID := participantUUID; Op.success := false;
              Op.error := Some (Js.orElse (Sdk.error (answer (length awaited)))
                                  "Unknown error");
              Op.retryCount := retryCount |}, awaited ++ [call])
      end.
Proof.
  destruct remaining as [|remaining']; cbn [BreakoutRoom.assignFrom];
    rewrite (breakout_runFrom_await call);
    destruct (Sdk.success (answer (length awaited))); try reflexivity.
  rewrite (breakout_runFrom_await (delay _)), <- app_assoc. reflexivity.
Qed.

Lemma assignFrom_succeeds (k : nat) :
  ∀ remaining retryCount awaited,
    k ≤ remaining →
    (∀ i, i < k → Sdk.success (answer (length awaited + 2 * i)) = false) →
    Sdk.success (answer (length awaited + 2 * k)) = true →
    runFrom (BreakoutRoom.assignFrom remaining breakoutRoomId participantUUID displayName
               retryCount) provider awaited
    = ({| Op.participantUUID := participantUUID; Op.success := true;
          Op.error := None; Op.retryCount := retryCount + k |},
       awaited ++ assignSchedule call retryCount k).
Proof.
  induction k as [|k IH]; intros remaining retryCount awaited Hk Hfail Hok;
    rewrite assignFrom_step.
  - rewrite Nat.mul_0_r, Nat.add_0_r in Hok. rewrite Hok, Nat.add_0_r. reflexivity.
  - pose proof (Hfail 0 ltac:(lia)) as Hfirst.
    rewrite Nat.mul_0_r, Nat.add_0_r in Hfirst. rewrite Hfirst.
    destruct remaining as [|remaining]; [lia|].
    rewrite IH.
    + rewrite <- app_assoc. cbn [assignSchedule app].
      replace (S retryCount + k) with (retryCount + S k) by lia. reflexivity.
    + lia.
    + intros i Hi. rewrite length_app. cbn [length].
      replace (length awaited + 2 + 2 * i) with (length awaited + 2 * S i) by lia.
      apply Hfail. lia.
    + rewrite length_app. cbn [length].
      replace (length awaited + 2 + 2 * k) with (length awaited + 2 * S k) by lia.
      exact Hok.
Qed.

Lemma assignFrom_gives_up :
  ∀ remaining retryCount awaited,
    (∀ i, i ≤ remaining → Sdk.success (answer (length awaited + 2 * i)) = false) →
    runFrom (BreakoutRoom.assignFrom remaining breakoutRoomId participantUUID displayName
               retryCount) provider awaited
    = ({| Op.participantUUID := participantUUID; Op.success := false;
          Op.error := Some (Js.orElse
                              (Sdk.error (answer (length awaited + 2 * remaining)))
                              "Unknown error");
          Op.retryCount := retryCount + remaining |},
       awaited ++ assignSchedule call retryCount remaining).
Proof.
  induction remaining as [|remaining IH]; intros retryCount awaited Hfail;
    rewrite assignFrom_step;
    pose proof (Hfail 0 ltac:(lia)) as Hfirst;
    rewrite Nat.mul_0_r, Nat.add_0_r in Hfirst; rewrite Hfirst.
  - rewrite Nat.mul_0_r, !Nat.add_0_r. reflexivity.
  - rewrite IH.
    + rewrite <- app_assoc, length_app. cbn [assignSchedule app length].
      replace (length awaited + 2 + 2 * remaining)
        with (length awaited + 2 * S remaining) by lia.
      replace (S retryCount + remaining) with (retryCount + S remaining) by lia.
      reflexivity.
    + intros i Hi. rewrite length_app. cbn [length].
      replace (length awaited + 2 + 2 * i) with (length awaited + 2 * S i) by lia.
      apply Hfail. lia.
Qed.

(** Whatever the meeting answers: the result is for the participant, its
    retry count is within the budget, a failure has used the whole budget
    and names an error, and the calls are assignments of the participant
    to the room, one more than the retry count says, and pauses. *)
Lemma assignFrom_any :
  ∀ remaining retryCount awaited,
    let r := runFrom (BreakoutRoom.assignFrom remaining breakoutRoomId participantUUID
                        displayName retryCount) provider awaited in
    Op.participantUUID r.1 = participantUUID ∧
    retryCount ≤ Op.retryCount r.1 ≤ retryCount + remaining ∧
    (Op.success r.1 = false →
       Op.retryCount r.1 = retryCount + remaining ∧ is_Some (Op.error r.1)) ∧
    (Op.success r.1 = true → Op.error r.1 = None) ∧
    ∃ more, r.2 = awaited ++ more ∧
            Forall (assignmentCall breakoutRoomId) more ∧
            Forall (λ c, isProgress c = false) more ∧
            List.filter isAssignment more
            = replicate (S (Op.retryCount r.1 - retryCount)) call.
Proof.
  induction remaining as [|remaining IH]; intros retryCount awaited r; subst r;
    rewrite assignFrom_step; destruct (Sdk.success (answer (length awaited))).
  - cbn. repeat split; try lia; try discriminate.
    exists [call]. rewrite Nat.sub_diag. repeat split; repeat constructor.
  - cbn. repeat split; try lia; try discriminate; eauto.
    exists [call]. rewrite Nat.sub_diag. repeat split; repeat constructor.
  - cbn. repeat split; try lia; try discriminate.
    exists [call]. rewrite Nat.sub_diag. repeat split; repeat constructor.
  - specialize (IH (S retryCount)
                  (awaited ++ [call; delay (BreakoutRoom.RETRY_DELAY_MS
                                              * (Z.of_nat retryCount + 1))])).
    cbn zeta in IH. destruct IH as (Huuid & Hcount & Hfailed & Hok & more & Hmore & Hcalls & Hnone & Hassign).
    split; [exact Huuid|]. split; [lia|]. split.
    { intros Hf. destruct (Hfailed Hf) as [? ?]. split; [lia|assumption]. }
    split; [exact Hok|].
    exists (call :: delay (BreakoutRoom.RETRY_DELAY_MS * (Z.of_nat retryCount + 1)) :: more).
    rewrite Hmore, <- app_assoc. split; [reflexivity|]. split; [|split].
    + repeat constructor. exact Hcalls.
    + repeat constructor. exact Hnone.
    + cbn [List.filter isAssignment]. rewrite Hassign.
      replace (Op.retryCount _ - retryCount)
        with (S (Op.retryCount
                   (runFrom (BreakoutRoom.assignFrom remaining breakoutRoomId
                               participantUUID displayName (S retryCount)) provider
                      (awaited ++ [call; delay (BreakoutRoom.RETRY_DELAY_MS
                                                  * (Z.of_nat retryCount + 1))])).1
                 - S retryCount)) by lia.
      reflexivity.
Qed.

End Assign.
End BreakoutRuns.

(** X17.  [assignParticipantWithRetry] reports the retries it made: when the
    assignment fails [k] times, [k] at most 3, and then succeeds, the
    result is a success with retry count [k]; when all four attempts fail
    it is a failure with retry count 3 and the error of the last answer.
    The pause after the failure number [i] is 500 ms times [i + 1]. *)
Theorem assignParticipantWithRetry_counts_retries
    (breakoutRoomId participantUUID displayName : string) (provider : Breakout.Provider) :
  let call := Breakout.assignParticipantToBreakoutRoom breakoutRoomId participantUUID in
  let run := Breakout.run (BreakoutRoom.assignParticipantWithRetry breakoutRoomId
                             participantUUID displayName) provider in
  (∀ k, k ≤ 3 →
     (∀ i, i < k → Sdk.success (provider (2 * i) call) = false) →
     Sdk.success (provider (2 * k) call) = true →
     run = ({| Op.participantUUID := participantUUID; Op.success := true;
               Op.error := None; Op.retryCount := k |},
            assignSchedule call 0 k)) ∧
  ((∀ i, i ≤ 3 → Sdk.success (provider (2 * i) call) = false) →
   run = ({| Op.participantUUID := participantUUID; Op.success := false;
             Op.error := Some (Js.orElse (Sdk.error (provider 6 call)) "Unknown error");
             Op.retryCount := 3 |},
          [call; Breakout.delay 500; call; Breakout.delay 1000;
           call; Breakout.delay 1500; call])).
Proof.
  intros call run. subst run call.
  unfold Breakout.run, BreakoutRoom.assignParticipantWithRetry, BreakoutRoom.MAX_RETRIES.
  split.
  - intros k Hk Hfail Hok.
    apply (assignFrom_succeeds provider breakoutRoomId participantUUID displayName k 3 0 []);
      [exact Hk|exact Hfail|exact Hok].
  - intros Hfail.
    apply (assignFrom_gives_up provider breakoutRoomId participantUUID displayName 3 0 []).
    exact Hfail.
Qed.

Section AssignAll.
Import Breakout.
Variable provider : Provider.
Variable breakoutRoomId : string.

Lemma assignAll_any (participants : list ParticipantWithEmail) (total : nat) :
  ∀ completed results awaited,
    let r := runFrom (BreakoutRoom.assignAll breakoutRoomId participants total
                        completed results) provider awaited in
    ∃ new more,
      r.1 = results ++ new ∧ r.2 = awaited ++ more ∧
      Op.participantUUID <$> new = participantUUID <$> participants ∧
      Forall assignmentResult new ∧
      Forall (assignmentCall breakoutRoomId) more ∧
      List.filter isProgress more = progressReports completed (length participants) total ∧
      List.filter isAssignment more = assignmentsOf breakoutRoomId new.
Proof.
  induction participants as [|participant rest IH]; intros completed results awaited r;
    subst r.
  - exists [], []. cbn. rewrite !app_nil_r. repeat split; constructor.
  - cbn [BreakoutRoom.assignAll]. rewrite breakout_runFrom_bind.
    unfold BreakoutRoom.assignParticipantWithRetry.
    destruct (assignFrom_any provider breakoutRoomId (participantUUID participant)
                (displayName participant) BreakoutRoom.MAX_RETRIES 0 awaited)
      as (Huuid & Hcount & Hfailed & Hok & calls & Hcalls & Hown & Hquiet & Hassign).
    set (first := runFrom (BreakoutRoom.assignFrom BreakoutRoom.MAX_RETRIES breakoutRoomId
                             (participantUUID participant) (displayName participant) 0)
                    provider awaited) in *.
    cbn zeta. rewrite (breakout_runFrom_await provider (onProgress (S completed) total)).
    set (pause := if Nat.ltb (S completed) total
                  then await (delay BreakoutRoom.BATCH_DELAY_MS) else Resolve tt).
    rewrite breakout_runFrom_bind.
    assert (Hpause : ∃ pauses, (runFrom pause provider (first.2 ++ [onProgress (S completed) total])).2
                               = (first.2 ++ [onProgress (S completed) total]) ++ pauses ∧
                               Forall (assignmentCall breakoutRoomId) pauses ∧
                               List.filter isProgress pauses = [] ∧
                               List.filter isAssignment pauses = []).
    { subst pause. destruct (Nat.ltb (S completed) total).
      - exists [delay BreakoutRoom.BATCH_DELAY_MS]. repeat split; repeat constructor.
      - exists []. cbn. rewrite app_nil_r. repeat split; constructor. }
    destruct Hpause as (pauses & Hpauses & Hpown & Hpquiet & Hpassign).
    rewrite Hpauses.
    destruct (IH (S completed) (results ++ [first.1])
                ((first.2 ++ [onProgress (S completed) total]) ++ pauses))
      as (new & more & Hnew & Hmore & Huuids & Hresults & Hmown & Hprogress & Hmassign).
    exists (first.1 :: new), (calls ++ [onProgress (S completed) total] ++ pauses ++ more).
    rewrite Hnew, Hmore, Hcalls, <- !app_assoc. cbn [app].
    split; [reflexivity|]. split; [reflexivity|]. split; [|split; [|split; [|split]]].
    + rewrite !fmap_cons, Huuid, Huuids. reflexivity.
    + constructor; [|exact Hresults]. unfold assignmentResult.
      split; [lia|]. split; [|exact Hok].
      intros Hf. destruct (Hfailed Hf) as [Hall Herror]. split; [lia|exact Herror].
    + apply Forall_app. split; [exact Hown|]. constructor; [exact I|].
      apply Forall_app. split; assumption.
    + rewrite List.filter_app. cbn [List.filter isProgress].
      rewrite List.filter_app, Hpquiet, Hprogress. cbn [app].
      replace (List.filter isProgress calls) with (@nil Call).
      * reflexivity.
      * symmetry. clear -Hquiet. induction Hquiet as [|c l Hc _ IHl]; [reflexivity|].
        cbn. rewrite Hc. exact IHl.
    + rewrite List.filter_app. cbn [List.filter isAssignment].
      rewrite List.filter_app, Hpassign, Hmassign, Hassign. cbn [app].
      unfold assignmentsOf. cbn [mbind list_bind].
      rewrite Huuid, Nat.sub_0_r. reflexivity.
Qed.

End AssignAll.

(** X18.  [sendParticipantsToBreakoutRooms] in a meeting without open rooms
    ends and returns one result per participant, in the order of the
    participants.  For an empty list it calls nothing.  When the meeting
    creates no room (or names no room id) every participant is reported
    failed with retry count 0 and the creation error, and nothing is
    configured, assigned or opened.  Otherwise the participants are
    assigned to the created room one after the other, each with its
    retries before the next one starts, progress is reported after each,
    and the rooms are opened at the end; what the meeting answers to the
    opening is not in the results. *)
Theorem sendParticipantsToBreakoutRooms_results (provider : Breakout.Provider)
    (fuel : nat) (participants : list ParticipantWithEmail) (roundId : string) :
  noRoomsOpen provider →
  ∃ results trace,
    Breakout.run (BreakoutRoom.sendParticipantsToBreakoutRooms fuel participants roundId)
      provider = (Some results, trace) ∧
    Op.participantUUID <$> results = participantUUID <$> participants ∧
    (participants = [] → trace = []) ∧
    (participants ≠ [] →
       match createdRoom (provider 1 (createCall roundId)) with
       | None =>
           results = allFailed participants (createFailure (provider 1 (createCall roundId))) ∧
           trace = [Breakout.getBreakoutRoomList; createCall roundId]
       | Some breakoutRoomId =>
           Forall assignmentResult results ∧
           ∃ calls,
             trace = [Breakout.getBreakoutRoomList; createCall roundId;
                      Breakout.configureBreakoutRooms false true 0]
                     ++ calls ++ [Breakout.delay 400; Breakout.openBreakoutRooms] ∧
             Forall (assignmentCall breakoutRoomId) calls ∧
             List.filter isProgress calls
               = progressReports 0 (length participants) (length participants) ∧
             List.filter isAssignment calls = assignmentsOf breakoutRoomId results
       end).
Proof.
  intros Hclosed. unfold noRoomsOpen in Hclosed.
  unfold Breakout.run, BreakoutRoom.sendParticipantsToBreakoutRooms.
  destruct participants as [|p rest].
  { exists [], []. repeat split. intros Hne. contradiction. }
  change (Nat.eqb (length (p :: rest)) 0) with false. cbn iota.
  set (participants := p :: rest).
  rewrite breakout_runFrom_bind. unfold BreakoutRoom.sendBody.
  rewrite (breakout_runFrom_await provider Breakout.getBreakoutRoomList).
  cbn [length app]. rewrite Hclosed.
  change (Breakout.Resolve (Some tt) ≫= ?k) with (k (Some tt)). cbn beta iota.
  rewrite (breakout_runFrom_await provider (createCall roundId)). cbn [length app].
  unfold createdRoom, createFailure.
  destruct (if Breakout.created (provider 1 (createCall roundId))
            then Breakout.rooms (provider 1 (createCall roundId)) else None)
    as [response|] eqn:Hcreated.
  - destruct (Js.truthyOpt (BreakoutRoom.firstRoomId response)) eqn:Hid.
    + destruct (BreakoutRoom.firstRoomId response) as [breakoutRoomId|] eqn:Hroom;
        [|discriminate]. cbn [Js.toStr].
      rewrite (breakout_runFrom_await provider (Breakout.configureBreakoutRooms false true 0)).
      cbn [length app]. rewrite breakout_runFrom_bind.
      destruct (assignAll_any provider breakoutRoomId participants (length participants)
                  0 []
                  [Breakout.getBreakoutRoomList; createCall roundId;
                   Breakout.configureBreakoutRooms false true 0])
        as (new & more & Hnew & Hmore & Huuids & Hresults & Hown & Hprogress & Hassign).
      rewrite Hnew, Hmore.
      rewrite (breakout_runFrom_await provider (Breakout.delay _)).
      rewrite (breakout_runFrom_await provider Breakout.openBreakoutRooms).
      cbn [Breakout.runFrom fst snd app].
      eexists _, _. split; [reflexivity|]. split; [exact Huuids|].
      split; [discriminate|]. intros _. split; [exact Hresults|].
      exists more. rewrite <- !app_assoc. repeat split; assumption.
    + cbn [Breakout.runFrom fst snd].
      eexists _, _. split; [reflexivity|]. split.
      * unfold participants. rewrite <- list_fmap_compose. reflexivity.
      * split; [discriminate|]. intros _.
        split; reflexivity.
  - cbn [Breakout.runFrom fst snd].
    eexists _, _. split; [reflexivity|]. split.
    + unfold participants. rewrite <- list_fmap_compose. reflexivity.
    + split; [discriminate|]. intros _. split; reflexivity.
Qed.

Lemma sendParticipantsToBreakoutRooms_results_witness :
  ∃ results trace,
    Breakout.run (BreakoutRoom.sendParticipantsToBreakoutRooms 0
                    [participant "p1"; participant "p2"] "r1")
      (meeting (λ n, Nat.eqb n 3)) = (Some results, trace) ∧
    Op.participantUUID <$> results = participantUUID <$> [participant "p1"; participant "p2"] ∧
    ([participant "p1"; participant "p2"] = [] → trace = []) ∧
    ([participant "p1"; participant "p2"] ≠ [] →
       match createdRoom (meeting (λ n, Nat.eqb n 3) 1 (createCall "r1")) with
       | None =>
           results = allFailed [participant "p1"; participant "p2"]
                       (createFailure (meeting (λ n, Nat.eqb n 3) 1 (createCall "r1"))) ∧
           trace = [Breakout.getBreakoutRoomList; createCall "r1"]
       | Some breakoutRoomId =>
           Forall assignmentResult results ∧
           ∃ calls,
             trace = [Breakout.getBreakoutRoomList; createCall "r1";
                      Breakout.configureBreakoutRooms false true 0]
                     ++ calls ++ [Breakout.delay 400; Breakout.openBreakoutRooms] ∧
             Forall (assignmentCall breakoutRoomId) calls ∧
             List.filter isProgress calls = progressReports 0 2 2 ∧
             List.filter isAssignment calls = assignmentsOf breakoutRoomId results
       end).
Proof.
  apply (sendParticipantsToBreakoutRooms_results (meeting (λ n, Nat.eqb n 3)) 0
           [participant "p1"; participant "p2"] "r1").
  reflexivity.
Defined.

Section Wait.
Import Breakout.
Variable provider : Provider.

Lemma waitLoop_step fuel start timeoutMs awaited :
  runFrom (BreakoutRoom.waitLoop fuel start timeoutMs) provider awaited =
    if (provider (length awaited) Date_now - start <? timeoutMs)%Z then
      match fuel with
      | 0 => (None, awaited ++ [Date_now])
      | S fuel' =>
          let status := provider (S (length awaited)) getBreakoutRoomList in
          if negb (listed status) || negb (bool_decide (state status = Some "open"))
          then (Some tt, awaited ++ [Date_now; getBreakoutRoomList])
          else runFrom (BreakoutRoom.waitLoop fuel' start timeoutMs) provider
                 (awaited ++ [Date_now; getBreakoutRoomList; delay 400])
      end
    else (Some tt, awaited ++ [Date_now]).
Proof.
  destruct fuel as [|fuel']; cbn [BreakoutRoom.waitLoop];
    rewrite (breakout_runFrom_await provider Date_now);
    destruct (provider (length awaited) Date_now - start <? timeoutMs)%Z; try reflexivity.
  rewrite (breakout_runFrom_await provider getBreakoutRoomList).
  rewrite length_app, Nat.add_1_r. cbn zeta.
  destruct (negb (listed (provider (S (length awaited)) getBreakoutRoomList))
            || negb (bool_decide (state (provider (S (length awaited)) getBreakoutRoomList)
                                  = Some "open"))).
  - rewrite <- app_assoc. reflexivity.
  - rewrite (breakout_runFrom_await provider (delay 400)), <- !app_assoc. reflexivity.
Qed.

Lemma waitLoop_bound (start : Z) :
  (∀ i : nat, (start + 400 * Z.of_nat i ≤ provider (1 + 3 * i)%nat Date_now)%Z) →
  ∀ fuel i awaited,
    length awaited = 1 + 3 * i → 13 ≤ fuel + i →
    ∃ more,
      runFrom (BreakoutRoom.waitLoop fuel start 5000) provider awaited
      = (Some tt, awaited ++ more) ∧
      length (List.filter isPoll more) ≤ 13 - i.
Proof.
  intros Hclock. induction fuel as [|fuel IH]; intros i awaited Hlen Hfuel;
    rewrite waitLoop_step, Hlen; pose proof (Hclock i) as Hnow;
    destruct (Z.ltb_spec (provider (1 + 3 * i) Date_now - start) 5000) as [Hearly|Hlate];
    try (exists [Date_now]; split; [reflexivity|cbn; lia]).
  - lia.
  - cbn zeta.
    destruct (negb (listed (provider (S (1 + 3 * i)) getBreakoutRoomList))
              || negb (bool_decide (state (provider (S (1 + 3 * i)) getBreakoutRoomList)
                                    = Some "open"))).
    + exists [Date_now; getBreakoutRoomList]. split; [reflexivity|]. cbn. lia.
    + destruct (IH (S i) (awaited ++ [Date_now; getBreakoutRoomList; delay 400]))
        as (more & Hrun & Hpolls).
      * rewrite length_app, Hlen. cbn [length]. lia.
      * lia.
      * exists ([Date_now; getBreakoutRoomList; delay 400] ++ more).
        rewrite Hrun, <- app_assoc. split; [reflexivity|].
        cbn [app List.filter isPoll length]. lia.
Qed.

End Wait.

(** X19.  [waitForBreakoutRoomsToClose] gives up: in a meeting whose clock
    advances by at least 400 ms over each pause of 400 ms it returns,
    whatever the meeting answers, after at most 13 polls of the room
    list. *)
Theorem waitForBreakoutRoomsToClose_gives_up (provider : Breakout.Provider) (fuel : nat) :
  clockAdvances provider →
  13 ≤ fuel →
  ∃ trace,
    Breakout.run (BreakoutRoom.waitForBreakoutRoomsToClose fuel 5000) provider
    = (Some tt, trace) ∧
    length (List.filter isPoll trace) ≤ 13.
Proof.
  intros Hclock Hfuel. unfold Breakout.run, BreakoutRoom.waitForBreakoutRoomsToClose.
  rewrite (breakout_runFrom_await provider Breakout.Date_now). cbn [length app].
  destruct (waitLoop_bound provider (provider 0 Breakout.Date_now) Hclock fuel 0
              [Breakout.Date_now]) as (more & Hrun & Hpolls); [reflexivity|lia|].
  rewrite Hrun. eexists. split; [reflexivity|]. cbn. lia.
Qed.

Lemma waitForBreakoutRoomsToClose_gives_up_witness :
  ∃ trace,
    Breakout.run (BreakoutRoom.waitForBreakoutRoomsToClose 13 5000) stuckMeeting
    = (Some tt, trace) ∧
    length (List.filter isPoll trace) ≤ 13.
Proof.
  apply (waitForBreakoutRoomsToClose_gives_up stuckMeeting 13).
  - intros i. unfold stuckMeeting.
    replace ((1 + 3 * i) / 3) with i; [cbn; lia|].
    apply (Nat.div_unique _ _ i 1); lia.
  - lia.
Defined.

(* ===================================================================== *)
(** * The start of a round, from the panel to the store                   *)
(* ===================================================================== *)

Lemma cmd_bind_run {A B : Type} (m : Store.Cmd A) (f : A → Store.Cmd B) (w : Store.World) :
  (m ≫= f) w = f (m w).1 (m w).2.
Proof. unfold mbind, Store.cmd_bind. destruct (m w). reflexivity. Qed.

Lemma addActionLogEntry_state (w : Store.World) (entry : Store.Log.Fields) :
  Store.state (Store.exec (Store.addActionLogEntry entry) w) =
    Store.withActionLog
      (Store.actionLog (Store.state w) ++
       [{| Store.Log.id := Store.uuids w 0;
           Store.Log.timestamp := Store.times w 0;
           Store.Log.sessionId := Store.sessionId (Store.state w);
           Store.Log.type := Store.Log.fieldsType entry;
           Store.Log.roundId := Store.Log.fieldsRoundId entry;
           Store.Log.participantUUID := Store.Log.fieldsParticipantUUID entry;
           Store.Log.displayName := Store.Log.fieldsDisplayName entry;
           Store.Log.email := Store.Log.fieldsEmail entry;
           Store.Log.status := Store.Log.fieldsStatus entry;
           Store.Log.error := Store.Log.fieldsError entry;
           Store.Log.retryCount := Store.Log.fieldsRetryCount entry |}])
      (Store.state w).
Proof. reflexivity. Qed.

Section Recording.
Variable selectedRoundId : string.

Lemma movedBy_cons (result : Op.OperationResult) (results : list Op.OperationResult) :
  movedBy (result :: results) =
    if Op.success result then {[Op.participantUUID result]} ∪ movedBy results
    else movedBy results.
Proof.
  unfold movedBy. destruct (Op.success result) eqn:Hs.
  - rewrite filter_cons_True by exact Hs. reflexivity.
  - rewrite filter_cons_False by congruence. reflexivity.
Qed.

Lemma successes_cons (result : Op.OperationResult) (results : list Op.OperationResult) :
  successes (result :: results) =
    ((if Op.success result then 1 else 0) + successes results)%Z.
Proof.
  unfold successes. destruct (Op.success result) eqn:Hs.
  - rewrite filter_cons_True by exact Hs. cbn [length]. lia.
  - rewrite filter_cons_False by congruence. lia.
Qed.

Lemma recordResults_run (results : list Op.OperationResult) :
  ∀ (successCount : Z) (w : Store.World) (roundState : Store.RoundState),
    Store.activeRounds (Store.state w) !! selectedRoundId = Some roundState →
    let run := ControlPanel.recordResults selectedRoundId results successCount w in
    run.1 = (successCount + successes results)%Z ∧
    Store.activeRounds (Store.state run.2) !! selectedRoundId
      = Some (withMoved (movedBy results ∪ Store.movedParticipants roundState) roundState) ∧
    (∀ other, other ≠ selectedRoundId →
       Store.activeRounds (Store.state run.2) !! other
         = Store.activeRounds (Store.state w) !! other) ∧
    logView <$> Store.actionLog (Store.state run.2)
      = (logView <$> Store.actionLog (Store.state w))
          ++ (movedView selectedRoundId <$> results) ∧
    sameSettings (Store.state w) (Store.state run.2).
Proof.
  induction results as [|result rest IH]; intros successCount w roundState Hround run;
    subst run.
  - cbn. rewrite app_nil_r. split; [unfold successes; cbn; lia|].
    split; [|repeat split].
    rewrite Hround. f_equal. destruct roundState. unfold withMoved, movedBy. cbn.
    f_equal. symmetry. apply (left_id_L ∅ (∪)).
  - cbn [ControlPanel.recordResults]. rewrite movedBy_cons, successes_cons.
    destruct (Op.success result) eqn:Hs.
    + rewrite !cmd_bind_run.
      set (w1 := (Store.addMovedParticipant selectedRoundId (Op.participantUUID result) w).2).
      set (w2 := (Store.addActionLogEntry
                    (ControlPanel.movedEntry selectedRoundId result) w1).2).
      assert (H1 : Store.state w1
                   = Store.withActiveRounds
                       (<[selectedRoundId :=
                            withMoved ({[Op.participantUUID result]}
                                       ∪ Store.movedParticipants roundState) roundState]>
                          (Store.activeRounds (Store.state w)))
                       (Store.state w)).
      { subst w1. fold (Store.exec (Store.addMovedParticipant selectedRoundId
                                      (Op.participantUUID result)) w).
        rewrite addMovedParticipant_state, Hround. reflexivity. }
      assert (H2 := addActionLogEntry_state w1
                      (ControlPanel.movedEntry selectedRoundId result)).
      fold (Store.exec (Store.addActionLogEntry
                          (ControlPanel.movedEntry selectedRoundId result)) w1) in w2.
      fold w2 in H2.
      destruct (IH (successCount + 1)%Z w2
                  (withMoved ({[Op.participantUUID result]}
                              ∪ Store.movedParticipants roundState) roundState))
        as (Hcount & Hrecord & Hothers & Hlog & Hsame).
      { rewrite H2, H1. cbn. apply lookup_insert_eq. }
      split; [rewrite Hcount; lia|]. split; [|split; [|split]].
      * rewrite Hrecord. unfold withMoved. cbn. do 2 f_equal.
        rewrite (assoc_L (∪)), (comm_L (∪) (movedBy rest)). reflexivity.
      * intros other Hother. rewrite (Hothers other Hother), H2, H1. cbn.
        apply lookup_insert_ne. congruence.
      * rewrite Hlog, H2, H1. cbn. rewrite fmap_app, <- app_assoc. reflexivity.
      * destruct Hsame as (? & ? & ? & ? & ? & ? & ? & ? & ?).
        rewrite H2, H1 in *. cbn in *. repeat split; assumption.
    + rewrite !cmd_bind_run.
      set (w2 := (Store.addActionLogEntry
                    (ControlPanel.movedEntry selectedRoundId result) w).2).
      assert (H2 := addActionLogEntry_state w
                      (ControlPanel.movedEntry selectedRoundId result)).
      fold (Store.exec (Store.addActionLogEntry
                          (ControlPanel.movedEntry selectedRoundId result)) w) in w2.
      fold w2 in H2.
      destruct (IH successCount w2 roundState) as (Hcount & Hrecord & Hothers & Hlog & Hsame).
      { rewrite H2. exact Hround. }
      split; [rewrite Hcount; lia|]. split; [exact Hrecord|]. split; [|split].
      * intros other Hother. rewrite (Hothers other Hother), H2. reflexivity.
      * rewrite Hlog, H2. cbn. rewrite fmap_app, <- app_assoc. reflexivity.
      * destruct Hsame as (? & ? & ? & ? & ? & ? & ? & ? & ?).
        rewrite H2 in *. cbn in *. repeat split; assumption.
Qed.

(** The loop keeps the state valid and the stored copy in sync. *)
Lemma recordResults_keeps (results : list Op.OperationResult) :
  selectedRoundId ≠ "__proto__" →
  ∀ (successCount : Z) (w : Store.World),
    valid (Store.state w) → inSync w →
    let run := ControlPanel.recordResults selectedRoundId results successCount w in
    valid (Store.state run.2) ∧ inSync run.2.
Proof.
  intros Hname. induction results as [|result rest IH]; intros successCount w Hvalid Hsync run;
    subst run.
  - split; assumption.
  - cbn [ControlPanel.recordResults]. destruct (Op.success result).
    + rewrite !cmd_bind_run.
      destruct (perform_keeps (AddMovedParticipant selectedRoundId (Op.participantUUID result))
                  w Hname Hvalid) as [Hvalid1 Hsync1].
      destruct (perform_keeps (AddActionLog (ControlPanel.movedEntry selectedRoundId result))
                  _ I Hvalid1) as [Hvalid2 Hsync2].
      apply IH; [exact Hvalid2|]. apply Hsync2. left. apply Hsync1. left. exact Hsync.
    + rewrite !cmd_bind_run.
      destruct (perform_keeps (AddActionLog (ControlPanel.movedEntry selectedRoundId result))
                  w I Hvalid) as [Hvalid2 Hsync2].
      apply IH; [exact Hvalid2|]. apply Hsync2. left. exact Hsync.
Qed.

End Recording.

(** X20.  [confirmStartRound], for a selected round and a breakout operation
    that ended with [results]: the moved set of the round becomes the
    earlier one plus the participants reported as moved; the record of the
    round is started at the time of the call, not ended, and its counters
    are the number of successes of this start (not the size of the moved
    set) and 0; the other rounds are kept; the log gets the start_round
    entry and then one entry per result, in order, with the error of a
    failure; processing is over; and for a valid state the stored copy
    reloads to the new rounds. *)
Theorem confirmStartRound_records_moves (w : Store.World) (fuel : nat)
    (selectedRoundId : string) (participantsToMove : list ParticipantWithEmail)
    (provider : Breakout.Provider) (results : list Op.OperationResult) :
  Js.truthy selectedRoundId = true →
  (Breakout.run (BreakoutRoom.sendParticipantsToBreakoutRooms fuel participantsToMove
                   selectedRoundId) provider).1 = Some results →
  let run := ControlPanel.confirmStartRound fuel (Some selectedRoundId)
               participantsToMove provider w in
  let after := Store.state run.2 in
  run.1 = true ∧
  movedSet selectedRoundId run.2 = movedBy results ∪ movedSet selectedRoundId w ∧
  (∃ roundState,
     Store.activeRounds after !! selectedRoundId = Some roundState ∧
     Store.startedAt roundState = Some (Store.times w 0) ∧
     Store.endedAt roundState = None ∧
     Store.movedCount roundState = successes results ∧
     Store.admittedCount roundState = 0%Z) ∧
  (∀ other, other ≠ selectedRoundId →
     Store.activeRounds after !! other = Store.activeRounds (Store.state w) !! other) ∧
  logView <$> Store.actionLog after
    = (logView <$> Store.actionLog (Store.state w))
        ++ (Store.Log.start_round, Some selectedRoundId, None, Store.Log.success, None)
        :: (movedView selectedRoundId <$> results) ∧
  Store.isProcessing after = false ∧
  (valid (Store.state w) → selectedRoundId ≠ "__proto__" → valid after ∧ inSync run.2).
Proof.
  intros Htruthy Hresults run after. subst after run.
  unfold ControlPanel.confirmStartRound. rewrite Htruthy. cbn [negb].
  rewrite !cmd_bind_run, Hresults, !cmd_bind_run. cbn [fst snd].
  set (w0 := (Store.setIsProcessing true w).2).
  set (w1 := (Store.startRound selectedRoundId w0).2).
  assert (H1 := startRound_state w0 selectedRoundId).
  fold (Store.exec (Store.startRound selectedRoundId) w0) in w1. fold w1 in H1.
  set (started := match Store.activeRounds (Store.state w0) !! selectedRoundId with
                  | Some roundState => Store.restarted (Store.times w0 0) roundState
                  | None => freshRound selectedRoundId (Store.times w0 0)
                  end) in H1.
  assert (Hstarted : Store.activeRounds (Store.state w1) !! selectedRoundId = Some started).
  { rewrite H1. cbn. apply lookup_insert_eq. }
  destruct (recordResults_run selectedRoundId results 0%Z w1 started Hstarted)
    as (Hcount & Hrecord & Hothers & Hlog & Hsame).
  set (recorded := ControlPanel.recordResults selectedRoundId results 0 w1) in *.
  set (w2 := recorded.2) in *.
  set (w3 := (Store.updateRoundStats selectedRoundId recorded.1 0 w2).2).
  assert (H3 : Store.state w3
               = Store.withActiveRounds
                   (<[selectedRoundId :=
                        {| Store.roundId := Store.roundId started;
                           Store.movedParticipants :=
                             movedBy results ∪ Store.movedParticipants started;
                           Store.startedAt := Store.startedAt started;
                           Store.endedAt := Store.endedAt started;
                           Store.movedCount := recorded.1;
                           Store.admittedCount := 0 |}]>
                      (Store.activeRounds (Store.state w2)))
                   (Store.state w2)).
  { subst w3. unfold Store.updateRoundStats. rewrite cmd_bind_run.
    cbn [Store.get fst snd]. rewrite Hrecord. reflexivity. }
  assert (Hfinal : Store.state (Store.setIsProcessing false w3).2
                   = Store.withActionLog (Store.actionLog (Store.state w3))
                       (Store.state (Store.setIsProcessing false w3).2)) by reflexivity.
  assert (Hmoved0 : Store.movedParticipants started = movedSet selectedRoundId w).
  { subst started. rewrite movedSet_lookup.
    change (Store.activeRounds (Store.state w0)) with (Store.activeRounds (Store.state w)).
    destruct (Store.activeRounds (Store.state w) !! selectedRoundId); reflexivity. }
  split; [reflexivity|]. split; [|split; [|split; [|split; [|split]]]].
  - rewrite movedSet_lookup. cbn [Store.setIsProcessing Store.set snd Store.state
                                  Store.activeRounds].
    rewrite H3. cbn. rewrite lookup_insert_eq. cbn. rewrite Hmoved0. reflexivity.
  - eexists. cbn [Store.setIsProcessing Store.set snd Store.state Store.activeRounds].
    rewrite H3. cbn. rewrite lookup_insert_eq. split; [reflexivity|]. cbn.
    rewrite Hcount. subst started.
    change (Store.activeRounds (Store.state w0)) with (Store.activeRounds (Store.state w)).
    change (Store.times w0 0) with (Store.times w 0).
    destruct (Store.activeRounds (Store.state w) !! selectedRoundId);
      repeat split; cbn; lia.
  - intros other Hother.
    cbn [Store.setIsProcessing Store.set snd Store.state Store.activeRounds].
    rewrite H3. cbn. rewrite lookup_insert_ne by congruence.
    rewrite (Hothers other Hother), H1. cbn. apply lookup_insert_ne. congruence.
  - cbn [Store.setIsProcessing Store.set snd Store.state Store.actionLog].
    rewrite H3. cbn. rewrite Hlog, H1. cbn. rewrite fmap_app, <- app_assoc. reflexivity.
  - reflexivity.
  - intros Hvalid Hname.
    destruct (perform_keeps (SetIsProcessing true) w I Hvalid) as [Hvalid0 _].
    destruct (perform_keeps (StartRound selectedRoundId) w0 Hname Hvalid0)
      as [Hvalid1 Hsync1].
    destruct (recordResults_keeps selectedRoundId results Hname 0%Z w1 Hvalid1
                (Hsync1 (or_intror eq_refl))) as [Hvalid2 Hsync2].
    destruct (perform_keeps (UpdateRoundStats selectedRoundId recorded.1 0) w2 I Hvalid2)
      as [Hvalid3 Hsync3].
    destruct (perform_keeps (SetIsProcessing false) _ I Hvalid3) as [Hvalid4 Hsync4].
    split; [exact Hvalid4|]. apply Hsync4. left. apply Hsync3. left. exact Hsync2.
Qed.

Lemma confirmStartRound_records_moves_witness :
  let results :=
    [ {| Op.participantUUID := "p1"; Op.success := true; Op.error := None;
         Op.retryCount := 1 |};
      {| Op.participantUUID := "p3"; Op.success := true; Op.error := None;
         Op.retryCount := 0 |} ] in
  let run := ControlPanel.confirmStartRound 0 (Some "r1")
               [participant "p1"; participant "p3"] (meeting (λ n, Nat.eqb n 3))
               sampleWorld in
  let after := Store.state run.2 in
  run.1 = true ∧
  movedSet "r1" run.2 = movedBy results ∪ movedSet "r1" sampleWorld ∧
  (∃ roundState,
     Store.activeRounds after !! "r1" = Some roundState ∧
     Store.startedAt roundState = Some (Store.times sampleWorld 0) ∧
     Store.endedAt roundState = None ∧
     Store.movedCount roundState = successes results ∧
     Store.admittedCount roundState = 0%Z) ∧
  (∀ other, other ≠ "r1" →
     Store.activeRounds after !! other = Store.activeRounds (Store.state sampleWorld) !! other) ∧
  logView <$> Store.actionLog after
    = (logView <$> Store.actionLog (Store.state sampleWorld))
        ++ (Store.Log.start_round, Some "r1", None, Store.Log.success, None)
        :: (movedView "r1" <$> results) ∧
  Store.isProcessing after = false ∧
  (valid (Store.state sampleWorld) → "r1" ≠ "__proto__" → valid after ∧ inSync run.2).
Proof.
  intros results.
  apply (confirmStartRound_records_moves sampleWorld 0 "r1"
           [participant "p1"; participant "p3"] (meeting (λ n, Nat.eqb n 3)) results).
  - reflexivity.
  - vm_compute. reflexivity.
Defined.

(* ===================================================================== *)
(** * Properties of the panels                                            *)
(* ===================================================================== *)

Section Associations.

Lemma effectiveEmail_override (emailOverrides : gmap string string)
    (p : ParticipantWithEmail) (address : string) :
  emailOverrides !! participantUUID p = Some address → Js.truthy address = true →
  effectiveEmail emailOverrides p = Some address.
Proof. unfold effectiveEmail. intros -> ->. reflexivity. Qed.

Lemma elem_of_participantsWithOverrides cached emailOverrides p :
  p ∈ cached →
  Store.withEmail (Js.toStr (effectiveEmail emailOverrides p)) p
    ∈ ControlPanel.participantsWithOverrides cached emailOverrides ∨
  effectiveEmail emailOverrides p = None.
Proof.
  intros Hp. destruct (effectiveEmail emailOverrides p) as [address|] eqn:He; [left|by right].
  unfold ControlPanel.participantsWithOverrides. apply list_elem_of_fmap.
  exists p. split; [|exact Hp]. rewrite He. reflexivity.
Qed.

Lemma normalizeEmail_truthy (input : string) :
  Js.truthy (Js.trim input) = true → Js.truthy (normalizeEmail input) = true.
Proof. unfold normalizeEmail. rewrite truthy_toLowerCase. auto. Qed.

Lemma handleAssociate_state (w : Store.World) (selectedUUID emailInput : string) :
  Js.truthy selectedUUID = true → Js.truthy (Js.trim emailInput) = true →
  Store.exec (EmailAssociationPanel.handleAssociate selectedUUID emailInput) w =
    {| Store.state :=
         Store.withEmailOverrides
           (<[selectedUUID := normalizeEmail emailInput]>
              (Store.emailOverrides (Store.state w))) (Store.state w);
       Store.storage := Store.storage w;
       Store.times := Store.times w;
       Store.uuids := Store.uuids w |}.
Proof.
  intros Huuid Hinput. unfold EmailAssociationPanel.handleAssociate.
  rewrite Huuid, Hinput. cbn [negb orb]. run_actions. cbn.
  rewrite trim_toLowerCase, trim_idem. reflexivity.
Qed.

End Associations.

(** X21.  A manual association decides the match.  [handleAssociate] with a
    participant selected and an input that is not blank stores the
    normalized input as the override of the participant; the stored item
    is not touched (overrides are not persisted).  From then on the
    participant counts with that email, whatever email was fetched for it:
    [matchParticipants] on the participants with overrides matches it
    exactly when the normalized input is a conflict email, and never lists
    it under [noEmail]; and when the selected round has that email among
    its conflicts, [handleStartRound] opens the confirmation dialog with
    the participant among those to move. *)
Theorem handleAssociate_decides_match (w : Store.World)
    (selectedUUID emailInput : string) :
  Js.truthy selectedUUID = true →
  Js.truthy (Js.trim emailInput) = true →
  let w' := Store.exec (EmailAssociationPanel.handleAssociate selectedUUID emailInput) w in
  let address := normalizeEmail emailInput in
  Store.emailOverrides (Store.state w')
    = <[selectedUUID := address]> (Store.emailOverrides (Store.state w)) ∧
  Store.storage w' = Store.storage w ∧
  ∀ p, participantUUID p = selectedUUID →
    effectiveEmail (Store.emailOverrides (Store.state w')) p = Some address ∧
    (∀ cached conflictEmails, p ∈ cached →
       let m := matchParticipants conflictEmails
                  (ControlPanel.participantsWithOverrides cached
                     (Store.emailOverrides (Store.state w'))) in
       (Store.withEmail address p ∈ matched m ↔ address ∈ conflictEmails) ∧
       Store.withEmail address p ∉ noEmail m) ∧
    (∀ selectedRoundId cached,
       Store.selectedRoundId (Store.state w) = Some selectedRoundId →
       Js.truthy selectedRoundId = true →
       Store.cachedParticipants (Store.state w) = Some cached →
       p ∈ cached →
       address ∈ getConflictEmailsForRound selectedRoundId
                   (Store.parsedRounds (Store.state w)) →
       ∃ m, ControlPanel.handleStartRound (Store.state w')
              = ControlPanel.confirmStart m (matched m) ∧
            Store.withEmail address p ∈ matched m).
Proof.
  intros Huuid Hinput w' address. subst w'.
  rewrite (handleAssociate_state w selectedUUID emailInput Huuid Hinput).
  cbn [Store.state Store.storage Store.withEmailOverrides Store.emailOverrides].
  fold address.
  assert (Haddress : Js.truthy address = true) by (apply normalizeEmail_truthy; exact Hinput).
  split; [reflexivity|]. split; [reflexivity|]. intros p Hp.
  assert (Heffective : effectiveEmail
                         (<[selectedUUID := address]> (Store.emailOverrides (Store.state w))) p
                       = Some address).
  { apply effectiveEmail_override; [|exact Haddress]. rewrite Hp. apply lookup_insert_eq. }
  assert (Hmatch : ∀ cached conflictEmails, p ∈ cached →
            (Store.withEmail address p
               ∈ matched (matchParticipants conflictEmails
                            (ControlPanel.participantsWithOverrides cached
                               (<[selectedUUID := address]>
                                  (Store.emailOverrides (Store.state w)))))
             ↔ address ∈ conflictEmails)).
  { intros cached conflictEmails Hcached. rewrite matched_filter, list_elem_of_filter.
    unfold isHit, lookupKey. cbn [Store.withEmail email Js.truthyOpt Js.toStr].
    subst address. rewrite normalizeEmail_twice. split; [tauto|]. intros Hin.
    split; [split; assumption|].
    destruct (elem_of_participantsWithOverrides cached
                (<[selectedUUID := normalizeEmail emailInput]>
                   (Store.emailOverrides (Store.state w))) p Hcached) as [Hthere|Hnone].
    - rewrite Heffective in Hthere. exact Hthere.
    - congruence. }
  split; [exact Heffective|]. split.
  - intros cached conflictEmails Hcached. cbn zeta. split; [apply Hmatch, Hcached|].
    rewrite noEmail_filter, list_elem_of_filter. unfold lacksEmail.
    cbn [Store.withEmail email Js.truthyOpt]. intros [Hlacks _]. congruence.
  - intros selectedRoundId cached Hselected Htruthy Hcache Hcached Hconflict.
    unfold ControlPanel.handleStartRound, Store.withEmailOverrides.
    cbn [Store.selectedRoundId Store.cachedParticipants Store.emailOverrides
         Store.parsedRounds].
    rewrite Hselected, Htruthy, Hcache. cbn [negb].
    set (conflictEmails := getConflictEmailsForRound selectedRoundId
                             (Store.parsedRounds (Store.state w))) in *.
    pose proof (proj2 (Hmatch cached conflictEmails Hcached) Hconflict) as Hmatched.
    destruct (Nat.eqb_spec (size conflictEmails) 0) as [Hempty|_].
    { apply size_empty_iff in Hempty. rewrite Hempty in Hconflict.
      by apply not_elem_of_empty in Hconflict. }
    set (m := matchParticipants conflictEmails _) in *.
    destruct (matched m) as [|first others] eqn:Hm; [by apply not_elem_of_nil in Hmatched|].
    cbn [length Nat.ltb Nat.leb]. exists m. rewrite Hm. split; [reflexivity|exact Hmatched].
Qed.

Lemma handleAssociate_decides_match_witness :
  let w' := Store.exec (EmailAssociationPanel.handleAssociate "p2" " Bob@Example.com ")
              cachedWorld in
  let address := normalizeEmail " Bob@Example.com " in
  Store.emailOverrides (Store.state w')
    = <[ "p2" := address]> (Store.emailOverrides (Store.state cachedWorld)) ∧
  Store.storage w' = Store.storage cachedWorld ∧
  ∀ p, participantUUID p = "p2" →
    effectiveEmail (Store.emailOverrides (Store.state w')) p = Some address ∧
    (∀ cached conflictEmails, p ∈ cached →
       let m := matchParticipants conflictEmails
                  (ControlPanel.participantsWithOverrides cached
                     (Store.emailOverrides (Store.state w'))) in
       (Store.withEmail address p ∈ matched m ↔ address ∈ conflictEmails) ∧
       Store.withEmail address p ∉ noEmail m) ∧
    (∀ selectedRoundId cached,
       Store.selectedRoundId (Store.state cachedWorld) = Some selectedRoundId →
       Js.truthy selectedRoundId = true →
       Store.cachedParticipants (Store.state cachedWorld) = Some cached →
       p ∈ cached →
       address ∈ getConflictEmailsForRound selectedRoundId
                   (Store.parsedRounds (Store.state cachedWorld)) →
       ∃ m, ControlPanel.handleStartRound (Store.state w')
              = ControlPanel.confirmStart m (matched m) ∧
            Store.withEmail address p ∈ matched m).
Proof.
  apply (handleAssociate_decides_match cachedWorld "p2" " Bob@Example.com ");
    reflexivity.
Defined.

Section StatusDisplay.
Variable cached : list ParticipantWithEmail.
Variable emailOverrides : gmap string string.
Variable meetingParticipants : list Meeting.Participant.
Variable waitingRoomParticipants : list Sdk.WaitingRoomParticipant.

Local Abbreviation sameEmail e :=
  (λ p : ParticipantWithEmail,
     match effectiveEmail emailOverrides p with
     | Some pEmail => String.eqb (Js.toLowerCase pEmail) (Js.toLowerCase e)
     | None => false
     end).

Lemma getParticipantStatus_association (e : string) :
  RoundSelector.getParticipantStatus (Some cached) emailOverrides meetingParticipants
    waitingRoomParticipants e ≠ RoundSelector.no_association
  ↔ ∃ p pEmail, p ∈ cached ∧ effectiveEmail emailOverrides p = Some pEmail ∧
                Js.toLowerCase pEmail = Js.toLowerCase e.
Proof.
  unfold RoundSelector.getParticipantStatus. cbn [mbind option_bind].
  destruct (List.find (sameEmail e) cached) as [p|] eqn:Hfind.
  - split.
    + intros _. apply List.find_some in Hfind as [Hin Hsame].
      destruct (effectiveEmail emailOverrides p) as [pEmail|] eqn:He; [|discriminate].
      exists p, pEmail. split; [apply list_elem_of_In; exact Hin|].
      split; [exact He|]. apply String.eqb_eq. exact Hsame.
    + intros _.
      destruct (List.find _ waitingRoomParticipants); [discriminate|].
      destruct (List.find _ meetingParticipants); discriminate.
  - split; [congruence|]. intros (p & pEmail & Hin & He & Hsame). exfalso.
    pose proof (List.find_none _ _ Hfind p (proj1 (list_elem_of_In _ _) Hin)) as Hnot.
    cbn beta in Hnot. rewrite He, Hsame, String.eqb_refl in Hnot. discriminate.
Qed.

Lemma storedEmail_fixed (e : string) :
  storedEmail e → Js.toLowerCase e = e ∧ Js.trim e = e ∧ Js.truthy e = true.
Proof.
  intros [Hvalid Hnormal]. unfold normalizeEmail in Hnormal. split; [|split].
  - rewrite <- Hnormal at 1. rewrite toLowerCase_idem. exact Hnormal.
  - rewrite <- Hnormal at 1. rewrite trim_toLowerCase, trim_idem. exact Hnormal.
  - destruct e; [discriminate Hvalid|reflexivity].
Qed.

Lemma notFound_spec (conflictEmails : gset string) (e : string) :
  e ∈ conflictEmails →
  e ∉ notFound (matchParticipants conflictEmails
                  (ControlPanel.participantsWithOverrides cached emailOverrides))
  ↔ ∃ p pEmail, p ∈ cached ∧ effectiveEmail emailOverrides p = Some pEmail ∧
                Js.truthy pEmail = true ∧ normalizeEmail pEmail = e.
Proof.
  intros Hconflict. rewrite notFound_filter, list_elem_of_filter, elem_of_elements.
  split.
  - intros Hnot.
    destruct (decide (e ∈ (list_to_set
                (lookupKey <$> filter (isHit conflictEmails)
                   (ControlPanel.participantsWithOverrides cached emailOverrides))
                : gset string))) as [Hfound|Hmissing]; [|tauto].
    apply elem_of_foundEmails in Hfound as (q & Hq & [Htruthy _] & Hkey).
    unfold ControlPanel.participantsWithOverrides in Hq.
    apply list_elem_of_fmap in Hq as (p & -> & Hp).
    unfold lookupKey in Hkey. cbn [email] in *.
    destruct (effectiveEmail emailOverrides p) as [pEmail|] eqn:He; [|discriminate].
    exists p, pEmail. auto.
  - intros (p & pEmail & Hp & He & Htruthy & Hkey) [Hnot _]. apply Hnot.
    apply elem_of_foundEmails.
    exists {| participantUUID := participantUUID p; displayName := displayName p;
              role := role p; email := effectiveEmail emailOverrides p |}.
    split; [|split].
    + unfold ControlPanel.participantsWithOverrides. apply list_elem_of_fmap. eauto.
    + unfold isHit, lookupKey. cbn [email]. rewrite He. cbn [Js.truthyOpt Js.toStr].
      rewrite Hkey. auto.
    + unfold lookupKey. cbn [email]. rewrite He. exact Hkey.
Qed.

End StatusDisplay.

(** X22.  The status display of the round selector against the matcher, for
    a conflict email as the parser stores them.  When the selector finds
    an association for the email, the matcher finds a participant for it
    (it is not in [notFound]).  The converse holds when no email in use
    has white space around it; it fails otherwise: the matcher trims the
    participant's email and the selector does not, so a participant whose
    fetched email starts with a blank is matched for alice@example.com
    while the selector shows no association for that email. *)
Theorem getParticipantStatus_agrees_with_matcher :
  (∀ (cached : list ParticipantWithEmail) (emailOverrides : gmap string string)
     (meetingParticipants : list Meeting.Participant)
     (waitingRoomParticipants : list Sdk.WaitingRoomParticipant)
     (conflictEmails : gset string) (e : string),
     storedEmail e → e ∈ conflictEmails →
     let status := RoundSelector.getParticipantStatus (Some cached) emailOverrides
                     meetingParticipants waitingRoomParticipants e in
     let m := matchParticipants conflictEmails
                (ControlPanel.participantsWithOverrides cached emailOverrides) in
     (status ≠ RoundSelector.no_association → e ∉ notFound m) ∧
     ((∀ p pEmail, p ∈ cached → effectiveEmail emailOverrides p = Some pEmail →
                   Js.trim pEmail = pEmail) →
      e ∉ notFound m → status ≠ RoundSelector.no_association)) ∧
  (RoundSelector.getParticipantStatus (Some [blankAlice]) ∅ [] [] "alice@example.com"
     = RoundSelector.no_association ∧
   matchParticipants {[ "alice@example.com" ]}
     (ControlPanel.participantsWithOverrides [blankAlice] ∅)
     = {| matched := [blankAlice]; notFound := []; noEmail := [] |}).
Proof.
  split; [|split; vm_compute; reflexivity].
  intros cached emailOverrides meetingParticipants waitingRoomParticipants
    conflictEmails e Hstored Hconflict status m. subst status m.
  destruct (storedEmail_fixed e Hstored) as (Hlower & Htrim & Htruthy).
  rewrite getParticipantStatus_association, (notFound_spec _ _ _ _ Hconflict).
  split.
  - intros (p & pEmail & Hp & He & Hsame). exists p, pEmail.
    rewrite Hlower in Hsame. split; [exact Hp|]. split; [exact He|]. split.
    + rewrite <- (truthy_toLowerCase pEmail), Hsame. exact Htruthy.
    + unfold normalizeEmail. rewrite <- trim_toLowerCase, Hsame. exact Htrim.
  - intros Htrimmed (p & pEmail & Hp & He & _ & Hkey). exists p, pEmail.
    split; [exact Hp|]. split; [exact He|].
    unfold normalizeEmail in Hkey. rewrite (Htrimmed p pEmail Hp He) in Hkey.
    rewrite Hkey, Hlower. reflexivity.
Qed.

Section Upload.
Variable Papa_parse : string → Csv.PapaResults.
Variable content : string.
Variable w : Store.World.

Local Abbreviation result := (Csv.parseCSV Papa_parse content).

Lemma parseCSV_data :
  Csv.success result = true →
  ∃ data, Csv.parsed result = Some data ∧ Csv.csvRounds data ≠ ∅ ∧
          storedRounds (Csv.csvRounds data) ∧ storedNames (Csv.csvEmailToName data).
Proof.
  unfold Csv.parseCSV, Csv.complete.
  destruct (Csv.data (Papa_parse content)) as [|row rows] eqn:Hdata; [discriminate|].
  rewrite <- Hdata.
  pose proof (parseRows_stored
                (Csv.detectCSVFormat (Csv.headersOf (Papa_parse content)))
                (Csv.data (Papa_parse content))
                (Csv.headersOf (Papa_parse content))) as [Hrounds Hnames].
  destruct (Csv.detectCSVFormat _); try discriminate;
    match goal with |- context [Nat.eqb ?n 0] => destruct (Nat.eqb_spec n 0) as [|Hsize] end;
    try discriminate; intros _; (eexists; split; [reflexivity|]);
    cbn [Csv.csvRounds Csv.csvEmailToName];
    (split; [|split; assumption]);
    intros Hempty; apply Hsize; rewrite Hempty; apply map_size_empty.
Qed.

End Upload.

(** X23.  [handleFileUpload] and the store.  Without a file the store is
    left as it is.  When the file cannot be read, the rounds, the names,
    the round states and the stored item are as before, and the log has
    one more entry, parse_csv with status failed and the message of the
    error ("Unknown error" when what was thrown is no error object).  When
    the file is read, the round states are as before in every case.  After
    a failed parse the rounds, the names and the stored item are as before,
    and the log has one more entry, parse_csv with status failed and the
    errors joined by "; ".  After a successful parse the rounds and the
    names of the store are those of the file (the earlier ones are
    replaced, not merged), the rounds are not empty, every email in them
    is a valid email in normal form, the log has one more entry with
    status success, and, for a valid state and no round named
    [__proto__], the stored item reloads to the new state. *)
Theorem handleFileUpload_replaces_or_keeps (Papa_parse : string → Csv.PapaResults)
    (w : Store.World) :
  Store.exec (UploadPanel.handleFileUpload Papa_parse None) w = w ∧
  (∀ error : Async.Thrown,
     let w' := Store.exec (UploadPanel.handleFileUpload Papa_parse
                             (Some (Async.Rejected error))) w in
     let after := Store.state w' in
     Store.activeRounds after = Store.activeRounds (Store.state w) ∧
     Store.parsedRounds after = Store.parsedRounds (Store.state w) ∧
     Store.emailToName after = Store.emailToName (Store.state w) ∧
     Store.storage w' = Store.storage w ∧
     logView <$> Store.actionLog after
       = (logView <$> Store.actionLog (Store.state w))
           ++ [(Store.Log.parse_csv, None, None, Store.Log.failed,
                Some (match error with
                      | Async.ErrorObject message => message
                      | Async.undefinedValue => "Unknown error"
                      end))]) ∧
  (∀ content : string,
     let w' := Store.exec (UploadPanel.handleFileUpload Papa_parse
                             (Some (Async.Fulfilled content))) w in
     let result := Csv.parseCSV Papa_parse content in
     let after := Store.state w' in
     Store.activeRounds after = Store.activeRounds (Store.state w) ∧
     (Csv.success result = false →
        Store.parsedRounds after = Store.parsedRounds (Store.state w) ∧
        Store.emailToName after = Store.emailToName (Store.state w) ∧
        Store.storage w' = Store.storage w ∧
        logView <$> Store.actionLog after
          = (logView <$> Store.actionLog (Store.state w))
              ++ [(Store.Log.parse_csv, None, None, Store.Log.failed,
                   Some (String.concat "; " (Csv.resultErrors result)))]) ∧
     (Csv.success result = true →
        ∃ data,
          Csv.parsed result = Some data ∧
          Store.parsedRounds after = Csv.csvRounds data ∧
          Store.emailToName after = Csv.csvEmailToName data ∧
          Store.parsedRounds after ≠ ∅ ∧
          storedRounds (Store.parsedRounds after) ∧
          storedNames (Store.emailToName after) ∧
          logView <$> Store.actionLog after
            = (logView <$> Store.actionLog (Store.state w))
                ++ [(Store.Log.parse_csv, None, None, Store.Log.success, None)] ∧
          (valid (Store.state w) → Csv.csvRounds data !! "__proto__" = None →
           valid after ∧ inSync w'))).
Proof.
  split; [reflexivity|]. split.
  { intros error w' after. subst w' after.
    unfold UploadPanel.handleFileUpload, Store.exec.
    split; [reflexivity|]. split; [reflexivity|]. split; [reflexivity|].
    split; [reflexivity|].
    match goal with
    | |- context [(Store.addActionLogEntry ?entry ?w2).2] =>
        pose proof (addActionLogEntry_state w2 entry) as Hlog;
        unfold Store.exec in Hlog; rewrite Hlog
    end.
    cbn [Store.actionLog Store.withActionLog]. rewrite fmap_app.
    destruct error; reflexivity. }
  intros content w' result after. subst w' after.
  unfold UploadPanel.handleFileUpload, Store.exec.
  fold result.
  destruct (Csv.success result) eqn:Hsuccess.
  - destruct (parseCSV_data Papa_parse content Hsuccess)
      as (data & Hdata & Hnonempty & Hrounds & Hnames).
    fold result in Hdata. rewrite Hdata.
    split; [reflexivity|]. split; [discriminate|]. intros _.
    exists data. split; [reflexivity|]. split; [reflexivity|]. split; [reflexivity|].
    split; [exact Hnonempty|]. split; [exact Hrounds|]. split; [exact Hnames|].
    split.
    { rewrite !cmd_bind_run.
      match goal with
      | |- context [(Store.addActionLogEntry ?entry ?w2).2] =>
          pose proof (addActionLogEntry_state w2 entry) as Hlog;
          unfold Store.exec in Hlog; rewrite Hlog
      end.
      cbn [Store.actionLog Store.withActionLog]. rewrite fmap_app. reflexivity. }
    intros Hvalid Hproto. rewrite !cmd_bind_run.
    assert (Hnoname : Csv.csvEmailToName data !! "__proto__" = None).
    { destruct (Csv.csvEmailToName data !! "__proto__") as [name|] eqn:Hname; [|reflexivity].
      destruct (Hnames _ _ Hname) as [[Hv _] _]. discriminate Hv. }
    destruct (perform_keeps (SetParsedRounds (Csv.csvRounds data)) w Hproto Hvalid)
      as [Hvalid1 Hsync1].
    destruct (perform_keeps (SetEmailToName (Csv.csvEmailToName data)) _ Hnoname Hvalid1)
      as [Hvalid2 Hsync2].
    destruct (perform_keeps
                (AddActionLog
                   {| Store.Log.fieldsType := Store.Log.parse_csv;
                      Store.Log.fieldsRoundId := None;
                      Store.Log.fieldsParticipantUUID := None;
                      Store.Log.fieldsDisplayName := None;
                      Store.Log.fieldsEmail := None;
                      Store.Log.fieldsStatus := Store.Log.success;
                      Store.Log.fieldsError := None;
                      Store.Log.fieldsRetryCount := None |}) _ I Hvalid2)
      as [Hvalid3 Hsync3].
    split; [exact Hvalid3|]. apply Hsync3. left. apply Hsync2. right. reflexivity.
  - cbn iota. split; [reflexivity|]. split; [|discriminate]. intros _.
    split; [reflexivity|]. split; [reflexivity|]. split; [reflexivity|].
    match goal with
    | |- context [(Store.addActionLogEntry ?entry ?w2).2] =>
        pose proof (addActionLogEntry_state w2 entry) as Hlog;
        unfold Store.exec in Hlog; rewrite Hlog
    end.
    cbn [Store.actionLog Store.withActionLog]. rewrite fmap_app. reflexivity.
Qed.

(* ===================================================================== *)
(** * The parsers as unions over the rows                                 *)
(* ===================================================================== *)

Section MergeRounds.
Implicit Types a b c : gmap string (gset string).

Lemma lookup_mergeRounds a b (r : string) :
  mergeRounds a b !! r =
    match a !! r, b !! r with
    | Some x, Some y => Some (x ∪ y)
    | Some x, None => Some x
    | None, o => o
    end.
Proof.
  unfold mergeRounds. rewrite lookup_union_with.
  destruct (a !! r), (b !! r); reflexivity.
Qed.

Lemma mergeRounds_assoc a b c :
  mergeRounds a (mergeRounds b c) = mergeRounds (mergeRounds a b) c.
Proof.
  apply map_eq. intros r. rewrite !lookup_mergeRounds.
  destruct (a !! r), (b !! r), (c !! r); try reflexivity.
  f_equal. apply (assoc_L (∪)).
Qed.

Lemma mergeRounds_comm a b : mergeRounds a b = mergeRounds b a.
Proof.
  apply map_eq. intros r. rewrite !lookup_mergeRounds.
  destruct (a !! r), (b !! r); try reflexivity.
  f_equal. apply (comm_L (∪)).
Qed.

Lemma mergeRounds_empty_r a : mergeRounds a ∅ = a.
Proof.
  apply map_eq. intros r. rewrite lookup_mergeRounds, lookup_empty.
  destruct (a !! r); reflexivity.
Qed.

Lemma mergeRounds_idemp a : mergeRounds a a = a.
Proof.
  apply map_eq. intros r. rewrite lookup_mergeRounds.
  destruct (a !! r); [|reflexivity]. f_equal. apply union_idemp_L.
Qed.

Lemma addToRound_merge (roundId email : string) a :
  Csv.addToRound roundId email a = mergeRounds a (Csv.addToRound roundId email ∅).
Proof.
  apply map_eq. intros r. rewrite lookup_mergeRounds. unfold Csv.addToRound.
  destruct (decide (roundId = r)) as [->|Hne].
  - rewrite !lookup_insert_eq, lookup_empty. cbn.
    destruct (a !! r) as [x|]; cbn; f_equal.
    rewrite (right_id_L ∅ (∪)). apply (comm_L (∪)).
  - rewrite !lookup_insert_ne, lookup_empty by assumption.
    destruct (a !! r); reflexivity.
Qed.

Lemma markRounds_merge (row : Csv.Row) (email : string) (roundColumns : list string) :
  ∀ a, Csv.markRounds row email roundColumns a
       = mergeRounds a (Csv.markRounds row email roundColumns ∅).
Proof.
  induction roundColumns as [|roundCol rest IH]; intros a; cbn [Csv.markRounds].
  - symmetry. apply mergeRounds_empty_r.
  - rewrite IH, (IH (if Csv.isConflict _ then _ else _)).
    destruct (Csv.isConflict _).
    + rewrite (addToRound_merge roundCol email a), mergeRounds_assoc. reflexivity.
    + rewrite mergeRounds_assoc, mergeRounds_empty_r. reflexivity.
Qed.

End MergeRounds.

Section RowLoops.
Variable step : nat → Csv.Row → Csv.Parsed → Csv.Parsed.

Local Abbreviation roundsOf rows :=
  (Csv.rounds (Csv.rowsLoop step 0 rows Csv.emptyParsed)).
Local Abbreviation namesOf rows :=
  (Csv.emailToName (Csv.rowsLoop step 0 rows Csv.emptyParsed)).

Section Rounds.
Hypothesis step_rounds : ∀ i row acc,
  Csv.rounds (step i row acc)
  = mergeRounds (Csv.rounds acc) (Csv.rounds (step 0 row Csv.emptyParsed)).

Lemma rowsLoop_rounds (rows : list Csv.Row) :
  ∀ i acc, Csv.rounds (Csv.rowsLoop step i rows acc)
           = mergeRounds (Csv.rounds acc) (roundsOf rows).
Proof.
  induction rows as [|row rest IH]; intros i acc; cbn [Csv.rowsLoop].
  - cbn. symmetry. apply mergeRounds_empty_r.
  - rewrite IH, (IH 1), step_rounds, mergeRounds_assoc. reflexivity.
Qed.

Lemma roundsOf_cons (row : Csv.Row) (rows : list Csv.Row) :
  roundsOf (row :: rows) = mergeRounds (roundsOf [row]) (roundsOf rows).
Proof. cbn [Csv.rowsLoop]. apply rowsLoop_rounds. Qed.

Lemma roundsOf_permutation (rows rows' : list Csv.Row) :
  rows ≡ₚ rows' → roundsOf rows = roundsOf rows'.
Proof.
  induction 1 as [|row l l' _ IH|x y l|l l' l'' _ IH1 _ IH2].
  - reflexivity.
  - rewrite (roundsOf_cons row l), (roundsOf_cons row l'), IH. reflexivity.
  - rewrite (roundsOf_cons y), (roundsOf_cons x), (roundsOf_cons x (y :: l)),
      (roundsOf_cons y l), !mergeRounds_assoc, (mergeRounds_comm (roundsOf [y])).
    reflexivity.
  - congruence.
Qed.

End Rounds.

Section FirstName.
Hypothesis step_names : ∀ i row acc,
  Csv.emailToName (step i row acc)
  = Csv.emailToName acc ∪ Csv.emailToName (step 0 row Csv.emptyParsed).

Lemma rowsLoop_first_names (rows : list Csv.Row) :
  ∀ i acc, Csv.emailToName (Csv.rowsLoop step i rows acc)
           = Csv.emailToName acc ∪ namesOf rows.
Proof.
  induction rows as [|row rest IH]; intros i acc; cbn [Csv.rowsLoop].
  - cbn. symmetry. apply (right_id_L ∅ (∪)).
  - rewrite IH, (IH 1), step_names, (assoc_L (∪)). reflexivity.
Qed.

End FirstName.

Section LastName.
Hypothesis step_names : ∀ i row acc,
  Csv.emailToName (step i row acc)
  = Csv.emailToName (step 0 row Csv.emptyParsed) ∪ Csv.emailToName acc.

Lemma rowsLoop_last_names (rows : list Csv.Row) :
  ∀ i acc, Csv.emailToName (Csv.rowsLoop step i rows acc)
           = namesOf rows ∪ Csv.emailToName acc.
Proof.
  induction rows as [|row rest IH]; intros i acc; cbn [Csv.rowsLoop].
  - cbn. symmetry. apply (left_id_L ∅ (∪)).
  - rewrite IH, (IH 1), step_names, (assoc_L (∪)). reflexivity.
Qed.

End LastName.
End RowLoops.

Section Steps.

Lemma rowBasedStep_rounds i row acc :
  Csv.rounds (Csv.rowBasedStep i row acc)
  = mergeRounds (Csv.rounds acc) (Csv.rounds (Csv.rowBasedStep 0 row Csv.emptyParsed)).
Proof.
  unfold Csv.rowBasedStep.
  destruct (find _ (Csv.keys row)) as [roundIdKey|];
    [|cbn; symmetry; apply mergeRounds_empty_r].
  destruct (find _ (Csv.keys row)) as [emailKey|];
    [|cbn; symmetry; apply mergeRounds_empty_r].
  repeat match goal with
         | |- context [if ?b then _ else _] =>
             lazymatch b with
             | context [if _ then _ else _] => fail
             | Js.truthy (match _ with _ => _ end) && _ => fail
             | _ => destruct b
             end
         end;
    cbn [Csv.rounds Csv.pushError Csv.pushWarning Csv.emptyParsed];
    try (symmetry; apply mergeRounds_empty_r).
  apply addToRound_merge.
Qed.

Lemma rowBasedStep_names i row acc :
  Csv.emailToName (Csv.rowBasedStep i row acc)
  = Csv.emailToName acc
    ∪ Csv.emailToName (Csv.rowBasedStep 0 row Csv.emptyParsed).
Proof.
  unfold Csv.rowBasedStep.
  destruct (find _ (Csv.keys row)) as [roundIdKey|];
    [|cbn; symmetry; apply (right_id_L ∅ (∪))].
  destruct (find _ (Csv.keys row)) as [emailKey|];
    [|cbn; symmetry; apply (right_id_L ∅ (∪))].
  set (registeredName := match find _ (Csv.keys row) with
                         | Some nameKey => _ | None => _ end).
  destruct (negb (Js.truthy roundIdKey) || negb (Js.truthy emailKey));
    [cbn; symmetry; apply (right_id_L ∅ (∪))|].
  destruct (negb (Js.truthy (Js.trim (Js.toStr (Csv.get row roundIdKey)))));
    [cbn; symmetry; apply (right_id_L ∅ (∪))|].
  destruct (negb (Js.truthy (Js.trim (Js.toStr (Csv.get row emailKey)))));
    [cbn; symmetry; apply (right_id_L ∅ (∪))|].
  destruct (negb (isValidEmail (Js.trim (Js.toStr (Csv.get row emailKey)))));
    [cbn; symmetry; apply (right_id_L ∅ (∪))|].
  cbn [Csv.emailToName Csv.emptyParsed].
  set (e := normalizeEmail (Js.trim (Js.toStr (Csv.get row emailKey)))).
  rewrite lookup_empty.
  rewrite (bool_decide_eq_false_2 (is_Some None)) by (intros [? ?]; discriminate).
  destruct (Js.truthy registeredName); cbn [andb negb];
    [|symmetry; apply (right_id_L ∅ (∪))].
  destruct (Csv.emailToName acc !! e) as [name|] eqn:Hname.
  - rewrite bool_decide_eq_true_2 by eauto. cbn [negb].
    apply map_eq. intros k. rewrite lookup_union.
    destruct (decide (e = k)) as [<-|Hne].
    + rewrite Hname, lookup_insert_eq. reflexivity.
    + rewrite lookup_insert_ne, lookup_empty by assumption.
      destruct (Csv.emailToName acc !! k); reflexivity.
  - rewrite bool_decide_eq_false_2 by (intros [? ?]; discriminate). cbn [negb].
    apply map_eq. intros k. rewrite lookup_union.
    destruct (decide (e = k)) as [<-|Hne].
    + rewrite Hname, !lookup_insert_eq. reflexivity.
    + rewrite !lookup_insert_ne, lookup_empty by assumption.
      destruct (Csv.emailToName acc !! k); reflexivity.
Qed.

Lemma columnBasedStep_rounds emailKey nameKey roundColumns i row acc :
  Csv.rounds (Csv.columnBasedStep emailKey nameKey roundColumns i row acc)
  = mergeRounds (Csv.rounds acc)
      (Csv.rounds (Csv.columnBasedStep emailKey nameKey roundColumns 0 row Csv.emptyParsed)).
Proof.
  unfold Csv.columnBasedStep.
  destruct (negb (Js.truthy _)); [cbn; symmetry; apply mergeRounds_empty_r|].
  destruct (negb (isValidEmail _)); [cbn; symmetry; apply mergeRounds_empty_r|].
  cbn [Csv.rounds Csv.emptyParsed]. apply markRounds_merge.
Qed.

Lemma columnBasedStep_names emailKey nameKey roundColumns i row acc :
  Csv.emailToName (Csv.columnBasedStep emailKey nameKey roundColumns i row acc)
  = Csv.emailToName
      (Csv.columnBasedStep emailKey nameKey roundColumns 0 row Csv.emptyParsed)
    ∪ Csv.emailToName acc.
Proof.
  unfold Csv.columnBasedStep.
  destruct (negb (Js.truthy _)); [cbn; symmetry; apply (left_id_L ∅ (∪))|].
  destruct (negb (isValidEmail _)); [cbn; symmetry; apply (left_id_L ∅ (∪))|].
  cbn [Csv.emailToName Csv.emptyParsed].
  destruct (Js.truthy _); [|symmetry; apply (left_id_L ∅ (∪))].
  rewrite insert_empty. apply insert_union_singleton_l.
Qed.

Lemma rowsLoop_skip (rows : list Csv.Row) (acc : Csv.Parsed) :
  Csv.rowsLoop (λ _ _ acc, acc) 0 rows acc = acc.
Proof.
  induction rows as [|row rest IH] using rev_ind; [reflexivity|].
  rewrite rowsLoop_app. exact IH.
Qed.

(** [parseColumnBased] is a row loop from a start that registers no name;
    when it reports an error about the header, the loop does nothing. *)
Lemma parseColumnBased_loop (headers : list string) :
  ∃ start step,
    Csv.emailToName start = ∅ ∧
    (∀ i row acc, Csv.rounds (step i row acc)
       = mergeRounds (Csv.rounds acc) (Csv.rounds (step 0 row Csv.emptyParsed))) ∧
    (∀ i row acc, Csv.emailToName (step i row acc)
       = Csv.emailToName (step 0 row Csv.emptyParsed) ∪ Csv.emailToName acc) ∧
    ∀ rows, Csv.parseColumnBased rows headers = Csv.rowsLoop step 0 rows start.
Proof.
  assert (Hskip : ∀ start, Csv.emailToName start = ∅ →
            ∃ start' step,
              Csv.emailToName start' = ∅ ∧
              (∀ i row acc, Csv.rounds (step i row acc)
                 = mergeRounds (Csv.rounds acc) (Csv.rounds (step 0 row Csv.emptyParsed))) ∧
              (∀ i row acc, Csv.emailToName (step i row acc)
                 = Csv.emailToName (step 0 row Csv.emptyParsed) ∪ Csv.emailToName acc) ∧
              ∀ rows : list Csv.Row, start = Csv.rowsLoop step 0 rows start').
  { intros start Hnames. exists start, (λ _ _ acc, acc).
    split; [exact Hnames|]. split; [|split].
    - intros. cbn. symmetry. apply mergeRounds_empty_r.
    - intros. cbn. symmetry. apply (left_id_L ∅ (∪)).
    - intros rows. symmetry. apply rowsLoop_skip. }
  unfold Csv.parseColumnBased.
  destruct (find _ headers) as [emailKey|]; [|apply Hskip; reflexivity].
  destruct (negb (Js.truthy emailKey)); [apply Hskip; reflexivity|].
  destruct (List.filter _ headers) as [|roundCol roundColumns] eqn:Hcolumns;
    [apply Hskip; reflexivity|].
  eexists _, _. split; [|split; [apply columnBasedStep_rounds|
                                 split; [apply columnBasedStep_names|reflexivity]]].
  reflexivity.
Qed.

Lemma parseRows_rounds_app detected headers (rows more : list Csv.Row) :
  Csv.rounds (Csv.parseRows detected (rows ++ more) headers)
  = mergeRounds (Csv.rounds (Csv.parseRows detected rows headers))
      (Csv.rounds (Csv.parseRows detected more headers)).
Proof.
  assert (Hrow : Csv.rounds (Csv.parseRowBased (rows ++ more))
                 = mergeRounds (Csv.rounds (Csv.parseRowBased rows))
                     (Csv.rounds (Csv.parseRowBased more))).
  { unfold Csv.parseRowBased. rewrite rowsLoop_app.
    apply (rowsLoop_rounds _ rowBasedStep_rounds). }
  destruct detected; cbn [Csv.parseRows]; try exact Hrow;
    destruct (parseColumnBased_loop headers)
      as (start & step & _ & Hrounds & _ & Hloop);
    rewrite !Hloop, rowsLoop_app, !(rowsLoop_rounds step Hrounds _ _ start),
      (rowsLoop_rounds step Hrounds more _ (Csv.rowsLoop step 0 rows start)),
      (rowsLoop_rounds step Hrounds rows _ start);
    rewrite (mergeRounds_assoc (mergeRounds _ _) (Csv.rounds start)),
      <- (mergeRounds_assoc (Csv.rounds start) _ (Csv.rounds start)),
      (mergeRounds_comm _ (Csv.rounds start)),
      (mergeRounds_assoc (Csv.rounds start)), mergeRounds_idemp;
    reflexivity.
Qed.

Lemma parseRows_rounds_permutation detected headers (rows rows' : list Csv.Row) :
  rows ≡ₚ rows' →
  Csv.rounds (Csv.parseRows detected rows headers)
  = Csv.rounds (Csv.parseRows detected rows' headers).
Proof.
  intros Hperm.
  assert (Hrow : Csv.rounds (Csv.parseRowBased rows) = Csv.rounds (Csv.parseRowBased rows')).
  { apply (roundsOf_permutation _ rowBasedStep_rounds), Hperm. }
  destruct detected; cbn [Csv.parseRows]; try exact Hrow;
    destruct (parseColumnBased_loop headers)
      as (start & step & _ & Hrounds & _ & Hloop);
    rewrite !Hloop, !(rowsLoop_rounds step Hrounds _ _ start),
      (roundsOf_permutation step Hrounds rows rows' Hperm);
    reflexivity.
Qed.

End Steps.

(** X24.  Both parsers work row by row: the rounds of a file are, round by
    round, the union of the rounds of its first rows and of its last rows.
    The registered names differ by format: in a row-based file the first
    name given for an email is kept, in a column-based file the last
    one. *)
Theorem parseRows_of_appended_rows (detected : Csv.DetectedFormat)
    (headers : list string) (rows more : list Csv.Row) :
  let parse rows := Csv.parseRows detected rows headers in
  Csv.rounds (parse (rows ++ more))
    = mergeRounds (Csv.rounds (parse rows)) (Csv.rounds (parse more)) ∧
  Csv.emailToName (parse (rows ++ more))
    = (if bool_decide (detected = Csv.row_based)
       then Csv.emailToName (parse rows) ∪ Csv.emailToName (parse more)
       else Csv.emailToName (parse more) ∪ Csv.emailToName (parse rows)) ∧
  Csv.emailToName (Csv.parseRowBased namedRows) !! "alice@example.com" = Some "Alice".
Proof.
  intros parse. subst parse. cbn beta.
  split; [apply parseRows_rounds_app|]. split; [|vm_compute; reflexivity].
  assert (Hrow : Csv.emailToName (Csv.parseRowBased (rows ++ more))
                 = Csv.emailToName (Csv.parseRowBased rows)
                   ∪ Csv.emailToName (Csv.parseRowBased more)).
  { unfold Csv.parseRowBased. rewrite rowsLoop_app.
    apply (rowsLoop_first_names _ rowBasedStep_names). }
  destruct detected; cbn [Csv.parseRows];
    [rewrite bool_decide_eq_true_2 by reflexivity; exact Hrow| |];
    rewrite bool_decide_eq_false_2 by discriminate;
    destruct (parseColumnBased_loop headers)
      as (start & step & Hstart & _ & Hnames & Hloop);
    rewrite !Hloop, rowsLoop_app, !(rowsLoop_last_names step Hnames _ _ start),
      (rowsLoop_last_names step Hnames more _ (Csv.rowsLoop step 0 rows start)),
      (rowsLoop_last_names step Hnames rows _ start), Hstart,
      !(right_id_L ∅ (∪)); reflexivity.
Qed.

(** X25.  The rounds a file parses to do not depend on the order of its data
    rows: with the rows in another order [parseCSV] succeeds or fails
    alike, and returns the same format, the same rounds with the same
    emails, and the same statistics. *)
Theorem parse_independent_of_row_order (results : Csv.PapaResults)
    (rows : list Csv.Row) :
  Csv.data results ≡ₚ rows →
  let c := Csv.complete results in
  let c' := Csv.complete (withRows results rows) in
  Csv.success c = Csv.success c' ∧
  Csv.format <$> Csv.parsed c = Csv.format <$> Csv.parsed c' ∧
  Csv.csvRounds <$> Csv.parsed c = Csv.csvRounds <$> Csv.parsed c' ∧
  Csv.stats c = Csv.stats c'.
Proof.
  intros Hperm c c'. subst c c'. unfold Csv.complete.
  change (Csv.headersOf (withRows results rows)) with (Csv.headersOf results).
  change (Csv.data (withRows results rows)) with rows.
  pose proof (parseRows_rounds_permutation
                (Csv.detectCSVFormat (Csv.headersOf results)) (Csv.headersOf results)
                _ _ Hperm) as Hrounds.
  pose proof (Permutation_length Hperm) as Hlength.
  destruct (Csv.data results) as [|row rest] eqn:Hdata.
  { apply Permutation_nil_l in Hperm. subst rows. repeat split. }
  destruct rows as [|row' rest']; [by apply Permutation_nil_r in Hperm|].
  destruct (Csv.detectCSVFormat (Csv.headersOf results));
    rewrite <- ?Hrounds, <- ?Hlength;
    try match goal with |- context [Nat.eqb ?n 0] => destruct (Nat.eqb n 0) end;
    cbn; rewrite <- ?Hrounds; repeat split.
Qed.

Lemma parse_independent_of_row_order_witness :
  let rows := reverse (Csv.data scenarioB_results) in
  let c := Csv.complete scenarioB_results in
  let c' := Csv.complete (withRows scenarioB_results rows) in
  Csv.success c = Csv.success c' ∧
  Csv.format <$> Csv.parsed c = Csv.format <$> Csv.parsed c' ∧
  Csv.csvRounds <$> Csv.parsed c = Csv.csvRounds <$> Csv.parsed c' ∧
  Csv.stats c = Csv.stats c'.
Proof.
  apply (parse_independent_of_row_order scenarioB_results
           (reverse (Csv.data scenarioB_results))).
  symmetry. apply reverse_Permutation.
Defined.

Lemma run_returnParticipantsFromBreakoutRooms (provider : Breakout.Provider) :
  Sdk.success
    (Breakout.run BreakoutRoom.returnParticipantsFromBreakoutRooms provider).1
  = Sdk.success (provider 0 Breakout.closeBreakoutRooms).
Proof.
  unfold Breakout.run, BreakoutRoom.returnParticipantsFromBreakoutRooms.
  rewrite (breakout_runFrom_await provider Breakout.closeBreakoutRooms). cbn [length].
  destruct (Sdk.success (provider 0 Breakout.closeBreakoutRooms)); reflexivity.
Qed.

Section EndOfRound.
Variable selectedRoundId : string.

Lemma logAdmitted_run (uuids : list string) :
  ∀ w : Store.World,
    let w' := (ControlPanel.logAdmitted selectedRoundId uuids w).2 in
    Store.activeRounds (Store.state w') = Store.activeRounds (Store.state w) ∧
    Store.storage w' = Store.storage w ∧
    sameSettings (Store.state w) (Store.state w') ∧
    (∀ n, Store.times w' n = Store.times w (length uuids + n)) ∧
    logView <$> Store.actionLog (Store.state w')
      = (logView <$> Store.actionLog (Store.state w))
          ++ ((λ uuid, (Store.Log.admit_from_waiting_room, Some selectedRoundId,
                        Some uuid, Store.Log.success, None)) <$> uuids).
Proof.
  induction uuids as [|uuid rest IH]; intros w w'; subst w'.
  - cbn. rewrite app_nil_r. repeat split.
  - cbn [ControlPanel.logAdmitted]. rewrite cmd_bind_run.
    set (w1 := (Store.addActionLogEntry
                  (ControlPanel.admittedEntry selectedRoundId uuid) w).2).
    destruct (IH w1) as (Hrounds & Hstorage & Hsame & Htimes & Hlog).
    split; [rewrite Hrounds; reflexivity|]. split; [rewrite Hstorage; reflexivity|].
    split; [|split].
    + destruct Hsame as (? & ? & ? & ? & ? & ? & ? & ? & ?). repeat split; assumption.
    + intros n. rewrite Htimes. reflexivity.
    + rewrite Hlog. subst w1.
      pose proof (addActionLogEntry_state w
                    (ControlPanel.admittedEntry selectedRoundId uuid)) as H1.
      unfold Store.exec in H1. rewrite H1.
      cbn [Store.actionLog Store.withActionLog].
      rewrite fmap_app, <- app_assoc. reflexivity.
Qed.

End EndOfRound.

(** X26.  [confirmEndRound] for a selected round with a record.  When the
    breakout rooms could not be closed, nothing is recorded: the rounds, the
    log and the stored item are as before.  When they were closed, the
    round keeps its moved set and its start, gets an end timestamp, its
    [movedCount] becomes the size of the moved set and its [admittedCount]
    becomes 0, however many participants returned (the count is read from
    a field the operation does not return); every moved participant is
    logged as admitted with status success, and then the end of the round.
    Processing is over in both cases. *)
Theorem confirmEndRound_records_no_admission (w : Store.World) (selectedRoundId : string)
    (roundState : Store.RoundState) (provider : Breakout.Provider)
    (iteration : gset string → list string) :
  Js.truthy selectedRoundId = true →
  Store.activeRounds (Store.state w) !! selectedRoundId = Some roundState →
  let w' := Store.exec (ControlPanel.confirmEndRound (Some selectedRoundId) provider
                          iteration) w in
  let after := Store.state w' in
  let moved := iteration (Store.movedParticipants roundState) in
  Store.isProcessing after = false ∧
  (Sdk.success (provider 0 Breakout.closeBreakoutRooms) = false →
     Store.activeRounds after = Store.activeRounds (Store.state w) ∧
     Store.actionLog after = Store.actionLog (Store.state w) ∧
     Store.storage w' = Store.storage w) ∧
  (Sdk.success (provider 0 Breakout.closeBreakoutRooms) = true →
     Store.activeRounds after !! selectedRoundId
       = Some {| Store.roundId := Store.roundId roundState;
                 Store.movedParticipants := Store.movedParticipants roundState;
                 Store.startedAt := Store.startedAt roundState;
                 Store.endedAt := Some (Store.times w (length moved));
                 Store.movedCount :=
                   Z.of_nat (size (Store.movedParticipants roundState));
                 Store.admittedCount := 0 |} ∧
     (∀ other, other ≠ selectedRoundId →
        Store.activeRounds after !! other = Store.activeRounds (Store.state w) !! other) ∧
     logView <$> Store.actionLog after
       = (logView <$> Store.actionLog (Store.state w))
           ++ ((λ uuid, (Store.Log.admit_from_waiting_room, Some selectedRoundId,
                         Some uuid, Store.Log.success, None)) <$> moved)
           ++ [(Store.Log.end_round, Some selectedRoundId, None,
                Store.Log.success, None)]).
Proof.
  intros Htruthy Hround w' after moved. subst after w'.
  unfold Store.exec, ControlPanel.confirmEndRound. rewrite Htruthy. cbn [negb].
  rewrite !cmd_bind_run.
  set (w0 := (Store.setIsProcessing true w).2).
  assert (Hmoved : (Store.getMovedParticipants selectedRoundId w0).1
                   = Store.movedParticipants roundState).
  { unfold Store.getMovedParticipants. rewrite cmd_bind_run. cbn.
    rewrite Hround. reflexivity. }
  assert (Hsame : (Store.getMovedParticipants selectedRoundId w0).2 = w0).
  { unfold Store.getMovedParticipants. rewrite cmd_bind_run. reflexivity. }
  rewrite Hmoved, Hsame. fold moved.
  rewrite run_returnParticipantsFromBreakoutRooms.
  destruct (Sdk.success (provider 0 Breakout.closeBreakoutRooms)); cbn [negb].
  - split; [reflexivity|]. split; [discriminate|]. intros _.
    rewrite !cmd_bind_run.
    destruct (logAdmitted_run selectedRoundId moved w0)
      as (Hrounds & Hstorage & Hsettings & Htimes & Hlog).
    set (w1 := (ControlPanel.logAdmitted selectedRoundId moved w0).2) in *.
    assert (Hround1 : Store.activeRounds (Store.state w1) !! selectedRoundId
                      = Some roundState).
    { rewrite Hrounds. exact Hround. }
    assert (H2 := endRound_state w1 selectedRoundId roundState Hround1).
    unfold Store.exec in H2.
    set (w2 := (Store.endRound selectedRoundId w1).2) in *.
    assert (H3 : Store.state
                   (Store.updateRoundStats selectedRoundId
                      (Z.of_nat (size (Store.movedParticipants roundState))) 0 w2).2
                 = Store.withActiveRounds
                     (<[selectedRoundId :=
                          {| Store.roundId := Store.roundId roundState;
                             Store.movedParticipants := Store.movedParticipants roundState;
                             Store.startedAt := Store.startedAt roundState;
                             Store.endedAt := Some (Store.times w1 0);
                             Store.movedCount :=
                               Z.of_nat (size (Store.movedParticipants roundState));
                             Store.admittedCount := 0 |}]>
                        (Store.activeRounds (Store.state w2)))
                     (Store.state w2)).
    { assert (Hround2 : Store.activeRounds (Store.state w2) !! selectedRoundId
                        = Some (Store.ended (Store.times w1 0) roundState)).
      { rewrite H2. cbn. apply lookup_insert_eq. }
      unfold Store.updateRoundStats. rewrite cmd_bind_run. cbn [Store.get fst snd].
      rewrite Hround2. reflexivity. }
    cbn [Store.setIsProcessing Store.set snd Store.state Store.activeRounds
         Store.actionLog].
    rewrite H3. cbn [Store.activeRounds Store.actionLog Store.withActiveRounds].
    split; [|split].
    + rewrite lookup_insert_eq, (Htimes 0), Nat.add_0_r. reflexivity.
    + intros other Hother. rewrite lookup_insert_ne by congruence.
      rewrite H2. cbn. rewrite lookup_insert_ne by congruence.
      rewrite Hrounds. reflexivity.
    + rewrite H2. cbn. rewrite fmap_app, Hlog, <- app_assoc. reflexivity.
  - split; [reflexivity|]. split; [|discriminate]. intros _. repeat split.
Qed.

Lemma confirmEndRound_records_no_admission_witness :
  let roundState :=
    {| Store.roundId := "r1"; Store.movedParticipants := {[ "p1"; "p2" ]};
       Store.startedAt := Some 1000%Z; Store.endedAt := None;
       Store.movedCount := 2%Z; Store.admittedCount := 0%Z |} in
  let w' := Store.exec (ControlPanel.confirmEndRound (Some "r1") (meeting (λ _, false))
                          elements) sampleWorld in
  let after := Store.state w' in
  let moved := elements (Store.movedParticipants roundState) in
  Store.isProcessing after = false ∧
  (Sdk.success (meeting (λ _, false) 0 Breakout.closeBreakoutRooms) = false →
     Store.activeRounds after = Store.activeRounds (Store.state sampleWorld) ∧
     Store.actionLog after = Store.actionLog (Store.state sampleWorld) ∧
     Store.storage w' = Store.storage sampleWorld) ∧
  (Sdk.success (meeting (λ _, false) 0 Breakout.closeBreakoutRooms) = true →
     Store.activeRounds after !! "r1"
       = Some {| Store.roundId := Store.roundId roundState;
                 Store.movedParticipants := Store.movedParticipants roundState;
                 Store.startedAt := Store.startedAt roundState;
                 Store.endedAt := Some (Store.times sampleWorld (length moved));
                 Store.movedCount :=
                   Z.of_nat (size (Store.movedParticipants roundState));
                 Store.admittedCount := 0 |} ∧
     (∀ other, other ≠ "r1" →
        Store.activeRounds after !! other
          = Store.activeRounds (Store.state sampleWorld) !! other) ∧
     logView <$> Store.actionLog after
       = (logView <$> Store.actionLog (Store.state sampleWorld))
           ++ ((λ uuid, (Store.Log.admit_from_waiting_room, Some "r1",
                         Some uuid, Store.Log.success, None)) <$> moved)
           ++ [(Store.Log.end_round, Some "r1", None, Store.Log.success, None)]).
Proof.
  intros roundState.
  apply (confirmEndRound_records_no_admission sampleWorld "r1" roundState
           (meeting (λ _, false)) elements).
  - reflexivity.
  - vm_compute. reflexivity.
Defined.
